(** * boxtree: the FMM interaction-list builder ([boxtree/traversal.py])

    A shallow embedding of the traversal builder and of the OpenCL kernels it
    generates, followed by the properties of the lists it computes.

    Conventions of the embedding.
    - The kernels are OpenCL C (the templates are marked [//CL//] and are
      compiled by pyopencl).  [int] is a 32-bit two's complement integer; its
      left shift keeps the low five bits of the shift count and wraps.
    - [coord_t] is a floating point type.  The kernels of [Section Kernels]
      compute with exact rationals ([Q]): rounding is not part of them, and
      they are evaluated on trees whose coordinates are dyadic, which a
      binary floating point type holds exactly.  [Section AnyCoordinates]
      has the kernels over any coordinate type and any adjacency test, for
      what does not depend on the arithmetic.
    - Box ids, Morton numbers, levels and array indices are natural numbers;
      index arithmetic is assumed to stay inside [box_id_t].
    - Device arrays are lists.  A read outside an array is undefined in the
      kernel language; here it reads the default element ([0]). *)

From Stdlib Require Import ZArith QArith Qabs Qminmax Lqa.
From stdpp Require Import base list gmap strings.
From Stdlib Require PrimFloat FloatOps Uint63.

(* ================================================================= *)
(** ** Machine integers *)

Definition wrap_int32 (z : Z) : Z := ((z + 2 ^ 31) mod 2 ^ 32 - 2 ^ 31)%Z.

(** [a << n] on [int]: the count is taken modulo the width. *)
Definition shl_int32 (a n : Z) : Z := wrap_int32 (Z.shiftl a (Z.land n 31)).

(* ================================================================= *)
(** ** The tree (input) *)

#[global] Instance Q_inhabited : Inhabited Q := populate 0%Q.
#[global] Instance N_inhabited : Inhabited N := populate 0%N.

(** The attributes of [boxtree.Tree] that the builder reads.  [box_centers]
    and [box_child_ids] are flat, with stride [aligned_nboxes]. *)
Record Tree := {
  dimensions : nat;
  nboxes : nat;
  nlevels : nat;
  aligned_nboxes : nat;
  root_extent : Q;
  box_centers : list Q;
  box_levels : list nat;
  box_parent_ids : list nat;
  box_child_ids : list nat;
  box_flags : list N;
  level_start_box_nrs : list nat;
  sources_are_targets : bool;
  _is_pruned : bool;
}.

(** Modelled from the spec: [box_flags_enum] is declared in [boxtree.tree],
    which is not among the sources; the spec gives the five members of the
    bitset.  The kernels only test [flags & MASK], so the masks are taken as
    a parameter of the kernels. *)
Record box_flags_enum := {
  BOX_HAS_OWN_SOURCES : N;
  BOX_HAS_OWN_TARGETS : N;
  BOX_HAS_CHILD_SOURCES : N;
  BOX_HAS_CHILD_TARGETS : N;
  BOX_HAS_CHILDREN : N;
}.

(** [flags & MASK] used as a C condition. *)
Definition flag_set (flags mask : N) : bool := negb (N.land flags mask =? 0)%N.

(** Outcome of a kernel instance.  The level stack has [NLEVELS] slots; a
    write past its end is undefined behaviour and is reported as
    [StackOverrun].  [OutOfFuel] is the model's bound on loop iterations. *)
Inductive kres (A : Type) : Type :=
| Done (a : A)
| StackOverrun
| OutOfFuel.
Arguments Done {A} a.
Arguments StackOverrun {A}.
Arguments OutOfFuel {A}.

Definition kres_bind {A B} (r : kres A) (k : A → kres B) : kres B :=
  match r with
  | Done a => k a
  | StackOverrun => StackOverrun
  | OutOfFuel => OutOfFuel
  end.

(** The state of a tree walk: the variables declared by [walk_init]. *)
Record walk := Walk {
  box_stack : list nat;
  morton_nr_stack : list nat;
  walk_level : nat;
  walk_box_id : nat;
  walk_morton_nr : nat;
  continue_walk : bool;
}.

(* ================================================================= *)
(** ** Kernels *)

Section Kernels.

Variable fl : box_flags_enum.
Variable t : Tree.
(** [NLEVELS], the render variable [max_levels]. *)
Variable NLEVELS : nat.

(** Number of children of a box, [2**dimensions]. *)
Definition nchildren : nat := 2 ^ dimensions t.

Definition box_level (box_id : nat) : nat := box_levels t !!! box_id.
Definition box_parent (box_id : nat) : nat := box_parent_ids t !!! box_id.
Definition box_flag (box_id : nat) : N := box_flags t !!! box_id.

(** [box_child_ids[morton_nr * aligned_nboxes + box_id]] *)
Definition box_child (morton_nr box_id : nat) : nat :=
  box_child_ids t !!! (morton_nr * aligned_nboxes t + box_id).

(** [load_center]: one component per axis. *)
Definition load_center (box_id : nat) : list Q :=
  map (λ i, box_centers t !!! (aligned_nboxes t * i + box_id))
      (seq 0 (dimensions t)).

(** [#define LEVEL_TO_SIZE(level) (root_extent * 1 / (coord_t) (1 << level))] *)
Definition LEVEL_TO_SIZE (level : nat) : Q :=
  (root_extent t * 1 / inject_Z (shl_int32 1 (Z.of_nat level)))%Q.

(** [max_dist] after the unrolled loop over the axes. *)
Definition max_dist (center other_center : list Q) : Q :=
  foldl (λ acc i, Qmax acc (Qabs (center !!! i - other_center !!! i)))
        0%Q (seq 0 (dimensions t)).

Definition is_adjacent_or_overlapping
    (center : list Q) (level : nat) (other_box_id : nat) : bool :=
  let other_center := load_center other_box_id in
  let other_level := box_level other_box_id in
  let size_sum := (0.5 * (LEVEL_TO_SIZE level + LEVEL_TO_SIZE other_level))%Q in
  let slack :=
    (size_sum + 0.5 * LEVEL_TO_SIZE (Nat.max level other_level))%Q in
  Qle_bool (max_dist center other_center) slack.

(** *** The walk macros *)

Definition walk_init (start_box_id : nat) : walk :=
  Walk (replicate NLEVELS 0) (replicate NLEVELS 0) 0 start_box_id 0 true.

(** [walk_advance]: the [while (true)] loop; every iteration that does not
    leave the loop pops one level, so it recurses on [walk_level]. *)
Fixpoint walk_advance_from (bs ms : list nat) (lvl box morton : nat) : walk :=
  let morton' := S morton in
  if morton' <? nchildren then Walk bs ms lvl box morton' true
  else
    match lvl with
    | O => Walk bs ms 0 box morton' false
    | S l => walk_advance_from bs ms l (bs !!! l) (ms !!! l)
    end.

Definition walk_advance (w : walk) : walk :=
  walk_advance_from (box_stack w) (morton_nr_stack w)
    (walk_level w) (walk_box_id w) (walk_morton_nr w).

(** [walk_push] ([debug] is [False] in [get_kernel_info], so the level check
    is not rendered): the stores hit the stack only below [NLEVELS]. *)
Definition walk_push (w : walk) : option walk :=
  if walk_level w <? NLEVELS then
    Some (Walk (<[walk_level w := walk_box_id w]> (box_stack w))
               (<[walk_level w := walk_morton_nr w]> (morton_nr_stack w))
               (S (walk_level w)) (walk_box_id w) (walk_morton_nr w)
               (continue_walk w))
  else None.

(** One iteration of [while (continue_walk)].  The three walking kernels
    share this shape and differ in what they do with an existing child:
    [examine walk_level child_box_id] gives the boxes appended and whether
    the walk descends ([walk_push], then [continue]). *)
Definition walk_step (examine : nat → nat → list nat * bool)
    (w : walk) (out : list nat) : option (walk * list nat) :=
  let child_box_id := box_child (walk_morton_nr w) (walk_box_id w) in
  if child_box_id =? 0 then Some (walk_advance w, out)
  else
    let '(emitted, descend) := examine (walk_level w) child_box_id in
    if descend then
      match walk_push w with
      | Some w' =>
          Some (Walk (box_stack w') (morton_nr_stack w') (walk_level w')
                     child_box_id 0 (continue_walk w'), out ++ emitted)
      | None => None
      end
    else Some (walk_advance w, out ++ emitted).

Fixpoint walk_loop (examine : nat → nat → list nat * bool)
    (fuel : nat) (w : walk) (out : list nat) : kres (list nat) :=
  if continue_walk w then
    match fuel with
    | O => OutOfFuel
    | S fuel' =>
        match walk_step examine w out with
        | Some (w', out') => walk_loop examine fuel' w' out'
        | None => StackOverrun
        end
    end
  else Done out.

(** *** Sources, their parents, targets *)

(** [SOURCES_PARENTS_AND_TARGETS_TEMPLATE]: the appends of one box, by list
    name, in program order. *)
Definition sources_parents_and_targets_generate
    (render_sources_are_targets : bool) (box_id : nat) : list (string * nat) :=
  let flags := box_flag box_id in
  (if flag_set flags (BOX_HAS_OWN_SOURCES fl)
   then [("source_boxes"%string, box_id)] else [])
  ++ (if flag_set flags (BOX_HAS_CHILD_SOURCES fl)
      then [("source_parent_boxes"%string, box_id)] else [])
  ++ (if negb render_sources_are_targets then
        if flag_set flags (BOX_HAS_OWN_TARGETS fl)
        then [("target_boxes"%string, box_id)] else []
      else []).

(** *** Level starts of a box list *)

(** The [operation] of [LEVEL_START_BOX_NR_EXTRACTOR_TEMPLATE] at index [i]. *)
Definition extract_level_start_box_nrs_operation
    (box_list : list nat) (list_level_start_box_nrs : list nat) (i : nat)
    : list nat :=
  let my_box_id := box_list !!! i in
  let prev_box_id := box_list !!! (i - 1) in
  let my_level := box_level my_box_id in
  let my_level_start := level_start_box_nrs t !!! my_level in
  if (prev_box_id <? my_level_start) && (my_level_start <=? my_box_id)
  then <[my_level := i]> list_level_start_box_nrs
  else list_level_start_box_nrs.

(** The loop [for ilev in xrange(tree.nlevels-1, -1, -1)]; [n] is [ilev+1]. *)
Fixpoint postprocess_unoccupied (n prev_start : nat) (result : list nat)
    : list nat :=
  match n with
  | O => result
  | S ilev =>
      let v := Nat.min (result !!! ilev) prev_start in
      postprocess_unoccupied ilev v (<[ilev := v]> result)
  end.

(** [extract_level_start_box_nrs] of [__call__]; the kernel runs over
    [range=slice(1, len(box_list))]. *)
Definition extract_level_start_box_nrs (box_list : list nat) : list nat :=
  let result := replicate (nlevels t + 1) (length box_list) in
  let result :=
    foldl (extract_level_start_box_nrs_operation box_list) result
          (seq 1 (length box_list - 1)) in
  let result := <[0 := 0]> result in
  postprocess_unoccupied (nlevels t) (length box_list) result.

(** *** Colleagues *)

Definition colleagues_examine (box_id : nat) (center : list Q) (level : nat)
    (walk_level child_box_id : nat) : list nat * bool :=
  if is_adjacent_or_overlapping center level child_box_id then
    if (walk_level + 1 =? level) && negb (child_box_id =? box_id)
    then ([child_box_id], false)
    else ([], true)
  else ([], false).

Definition colleagues_generate (fuel : nat) (box_id : nat) : kres (list nat) :=
  let center := load_center box_id in
  if box_id =? 0 then Done []
  else
    let level := box_level box_id in
    walk_loop (colleagues_examine box_id center level) fuel (walk_init 0) [].

(** *** Neighbor source boxes ("list 1") *)

Definition neighbor_source_boxes_examine (center : list Q) (level : nat)
    (walk_level child_box_id : nat) : list nat * bool :=
  if is_adjacent_or_overlapping center level child_box_id then
    let flags := box_flag child_box_id in
    (if flag_set flags (BOX_HAS_OWN_SOURCES fl) then [child_box_id] else [],
     flag_set flags (BOX_HAS_CHILD_SOURCES fl))
  else ([], false).

Definition neighbor_source_boxes_generate (fuel : nat)
    (target_boxes : list nat) (target_box_number : nat) : kres (list nat) :=
  let box_id := target_boxes !!! target_box_number in
  let center := load_center box_id in
  let level := box_level box_id in
  walk_loop (neighbor_source_boxes_examine center level) fuel (walk_init 0) [].

(** *** Well-separated siblings ("list 2") *)

(** The index range [for (i = start; i < stop; ++i)]. *)
Definition index_range (start stop : nat) : list nat := seq start (stop - start).

Definition sep_siblings_generate
    (colleagues_starts colleagues_list : list nat) (box_id : nat) : list nat :=
  let center := load_center box_id in
  let level := box_level box_id in
  let parent := box_parent box_id in
  if parent =? box_id then []
  else
    let parent_coll_start := colleagues_starts !!! parent in
    let parent_coll_stop := colleagues_starts !!! (parent + 1) in
    i ← index_range parent_coll_start parent_coll_stop;
    let parent_colleague := colleagues_list !!! i in
    morton_nr ← seq 0 nchildren;
    let sib_box_id := box_child morton_nr parent_colleague in
    let sep := negb (is_adjacent_or_overlapping center level sib_box_id) in
    if sep then [sib_box_id] else [].

(** *** Separated smaller non-siblings ("list 3") *)

Definition sep_smaller_nonsiblings_examine (center : list Q) (level : nat)
    (walk_level child_box_id : nat) : list nat * bool :=
  if is_adjacent_or_overlapping center level child_box_id then
    ([], flag_set (box_flag child_box_id) (BOX_HAS_CHILDREN fl))
  else ([child_box_id], false).

Definition sep_smaller_nonsiblings_generate (fuel : nat)
    (target_boxes colleagues_starts colleagues_list : list nat)
    (target_box_number : nat) : kres (list nat) :=
  let box_id := target_boxes !!! target_box_number in
  let center := load_center box_id in
  let level := box_level box_id in
  let coll_start := colleagues_starts !!! box_id in
  let coll_stop := colleagues_starts !!! (box_id + 1) in
  foldl (λ acc i,
           kres_bind acc (λ out,
             let colleague := colleagues_list !!! i in
             walk_loop (sep_smaller_nonsiblings_examine center level)
                       fuel (walk_init colleague) out))
        (Done []) (index_range coll_start coll_stop).

(** *** Separated bigger non-siblings ("list 4") *)

(** The inner [while (true)] that looks for a closer parent; the result is
    [found_closer_parent].  [check_walk_level] starts above [walk_level] and
    the loop leaves when it reaches it. *)
Fixpoint found_closer_parent (colleague_center : list Q) (walk_level : nat)
    (check_walk_level check_parent_box_id : nat) : bool :=
  match check_walk_level with
  | O => false
  | S check_walk_level' =>
      if check_walk_level' =? walk_level then false
      else
        let check_parent_box_id' := box_parent check_parent_box_id in
        let parent_a_or_o :=
          is_adjacent_or_overlapping colleague_center walk_level
            check_parent_box_id' in
        if negb parent_a_or_o then true
        else found_closer_parent colleague_center walk_level
               check_walk_level' check_parent_box_id'
  end.

(** The outer [while (walk_level)]. *)
Fixpoint sep_bigger_nonsiblings_loop
    (colleagues_starts colleagues_list : list nat)
    (box_id : nat) (center : list Q) (box_level : nat)
    (walk_level current_parent_box_id : nat) : list nat :=
  match walk_level with
  | O => []
  | S walk_level' =>
      if walk_level' =? 0 then []
      else
        let current_parent_box_id' := box_parent current_parent_box_id in
        let coll_start := colleagues_starts !!! current_parent_box_id' in
        let coll_stop := colleagues_starts !!! (current_parent_box_id' + 1) in
        (i ← index_range coll_start coll_stop;
         let colleague_box_id := colleagues_list !!! i in
         let a_or_o :=
           is_adjacent_or_overlapping center box_level colleague_box_id in
         if negb a_or_o
            && flag_set (box_flag colleague_box_id) (BOX_HAS_OWN_SOURCES fl)
         then
           let colleague_center := load_center colleague_box_id in
           if negb (found_closer_parent colleague_center walk_level'
                      box_level box_id)
           then [colleague_box_id] else []
         else [])
        ++ sep_bigger_nonsiblings_loop colleagues_starts colleagues_list
             box_id center box_level walk_level' current_parent_box_id'
  end.

Definition sep_bigger_nonsiblings_generate
    (colleagues_starts colleagues_list : list nat) (box_id : nat) : list nat :=
  let center := load_center box_id in
  let box_level := box_level box_id in
  sep_bigger_nonsiblings_loop colleagues_starts colleagues_list
    box_id center box_level box_level box_id.

End Kernels.

(* ================================================================= *)
(** ** The kernels over any coordinate arithmetic *)

(** The kernels use the coordinates only through [load_center] and
    [is_adjacent_or_overlapping].  Here both are left open: [coord_vec_t] is
    any type, [load_center_in] reads the center of a box and
    [a_or_o center level other_box_id] is what the adjacency test returns,
    in whatever arithmetic [coord_t] has.  Apart from that the definitions
    repeat the kernels above line by line, and the kernels above are these
    at [load_center] and [is_adjacent_or_overlapping]. *)
Section AnyCoordinates.

Variable fl : box_flags_enum.
Variable t : Tree.
Variable NLEVELS : nat.
Context {coord_vec_t : Type}.
Variable load_center_in : nat → coord_vec_t.
Variable a_or_o : coord_vec_t → nat → nat → bool.

Definition colleagues_examine_in (box_id : nat) (center : coord_vec_t)
    (level : nat) (walk_level child_box_id : nat) : list nat * bool :=
  if a_or_o center level child_box_id then
    if (walk_level + 1 =? level) && negb (child_box_id =? box_id)
    then ([child_box_id], false)
    else ([], true)
  else ([], false).

Definition colleagues_generate_in (fuel : nat) (box_id : nat)
    : kres (list nat) :=
  let center := load_center_in box_id in
  if box_id =? 0 then Done []
  else
    let level := box_level t box_id in
    walk_loop t NLEVELS (colleagues_examine_in box_id center level) fuel
      (walk_init NLEVELS 0) [].

Definition neighbor_source_boxes_examine_in (center : coord_vec_t)
    (level : nat) (walk_level child_box_id : nat) : list nat * bool :=
  if a_or_o center level child_box_id then
    let flags := box_flag t child_box_id in
    (if flag_set flags (BOX_HAS_OWN_SOURCES fl) then [child_box_id] else [],
     flag_set flags (BOX_HAS_CHILD_SOURCES fl))
  else ([], false).

Definition neighbor_source_boxes_generate_in (fuel : nat)
    (target_boxes : list nat) (target_box_number : nat) : kres (list nat) :=
  let box_id := target_boxes !!! target_box_number in
  let center := load_center_in box_id in
  let level := box_level t box_id in
  walk_loop t NLEVELS (neighbor_source_boxes_examine_in center level) fuel
    (walk_init NLEVELS 0) [].

Definition sep_siblings_generate_in
    (colleagues_starts colleagues_list : list nat) (box_id : nat) : list nat :=
  let center := load_center_in box_id in
  let level := box_level t box_id in
  let parent := box_parent t box_id in
  if parent =? box_id then []
  else
    let parent_coll_start := colleagues_starts !!! parent in
    let parent_coll_stop := colleagues_starts !!! (parent + 1) in
    i ← index_range parent_coll_start parent_coll_stop;
    let parent_colleague := colleagues_list !!! i in
    morton_nr ← seq 0 (nchildren t);
    let sib_box_id := box_child t morton_nr parent_colleague in
    let sep := negb (a_or_o center level sib_box_id) in
    if sep then [sib_box_id] else [].

Definition sep_smaller_nonsiblings_examine_in (center : coord_vec_t)
    (level : nat) (walk_level child_box_id : nat) : list nat * bool :=
  if a_or_o center level child_box_id then
    ([], flag_set (box_flag t child_box_id) (BOX_HAS_CHILDREN fl))
  else ([child_box_id], false).

Definition sep_smaller_nonsiblings_generate_in (fuel : nat)
    (target_boxes colleagues_starts colleagues_list : list nat)
    (target_box_number : nat) : kres (list nat) :=
  let box_id := target_boxes !!! target_box_number in
  let center := load_center_in box_id in
  let level := box_level t box_id in
  let coll_start := colleagues_starts !!! box_id in
  let coll_stop := colleagues_starts !!! (box_id + 1) in
  foldl (λ acc i,
           kres_bind acc (λ out,
             let colleague := colleagues_list !!! i in
             walk_loop t NLEVELS
               (sep_smaller_nonsiblings_examine_in center level)
               fuel (walk_init NLEVELS colleague) out))
        (Done []) (index_range coll_start coll_stop).

Fixpoint found_closer_parent_in (colleague_center : coord_vec_t)
    (walk_level : nat) (check_walk_level check_parent_box_id : nat) : bool :=
  match check_walk_level with
  | O => false
  | S check_walk_level' =>
      if check_walk_level' =? walk_level then false
      else
        let check_parent_box_id' := box_parent t check_parent_box_id in
        let parent_a_or_o :=
          a_or_o colleague_center walk_level check_parent_box_id' in
        if negb parent_a_or_o then true
        else found_closer_parent_in colleague_center walk_level
               check_walk_level' check_parent_box_id'
  end.

Fixpoint sep_bigger_nonsiblings_loop_in
    (colleagues_starts colleagues_list : list nat)
    (box_id : nat) (center : coord_vec_t) (box_level : nat)
    (walk_level current_parent_box_id : nat) : list nat :=
  match walk_level with
  | O => []
  | S walk_level' =>
      if walk_level' =? 0 then []
      else
        let current_parent_box_id' := box_parent t current_parent_box_id in
        let coll_start := colleagues_starts !!! current_parent_box_id' in
        let coll_stop := colleagues_starts !!! (current_parent_box_id' + 1) in
        (i ← index_range coll_start coll_stop;
         let colleague_box_id := colleagues_list !!! i in
         let a_or_o := a_or_o center box_level colleague_box_id in
         if negb a_or_o
            && flag_set (box_flag t colleague_box_id) (BOX_HAS_OWN_SOURCES fl)
         then
           let colleague_center := load_center_in colleague_box_id in
           if negb (found_closer_parent_in colleague_center walk_level'
                      box_level box_id)
           then [colleague_box_id] else []
         else [])
        ++ sep_bigger_nonsiblings_loop_in colleagues_starts colleagues_list
             box_id center box_level walk_level' current_parent_box_id'
  end.

Definition sep_bigger_nonsiblings_generate_in
    (colleagues_starts colleagues_list : list nat) (box_id : nat) : list nat :=
  let center := load_center_in box_id in
  let box_level := box_level t box_id in
  sep_bigger_nonsiblings_loop_in colleagues_starts colleagues_list
    box_id center box_level box_level box_id.

End AnyCoordinates.

(* ================================================================= *)
(** ** The host side *)

(** What can end a build: the exceptions that [__call__] and the rendering
    of the templates raise, and the two ways a kernel can fail to deliver. *)
Inductive failure : Type :=
| ValueError (msg : string)
| KeyError (key : string)
| IndexError
| AssertionError
| KernelStackOverrun
| KernelOutOfFuel.

(** Device arrays are objects: the builder keeps references to them.  The
    memory is the list of the arrays allocated so far and a reference is an
    index into it, so two references are the same object iff they are equal. *)
Definition ref : Type := nat.
Definition cl_mem : Type := list (list nat).

Definition M (A : Type) : Type := cl_mem → failure + A * cl_mem.

Definition ret {A} (a : A) : M A := λ h, inr (a, h).
Definition raise {A} (e : failure) : M A := λ _, inl e.
Definition bind {A B} (c : M A) (k : A → M B) : M B :=
  λ h, match c h with
       | inl e => inl e
       | inr (a, h') => k a h'
       end.

Notation "'do' x <- c ; k" := (bind c (λ x, k))
  (at level 10, x pattern, c at level 100, k at level 200,
   format "'[v' 'do'  x  <-  c ; '/' k ']'").

Definition alloc (a : list nat) : M ref := λ h, inr (length h, h ++ [a]).
Definition deref (r : ref) : M (list nat) := λ h, inr (h !!! r, h).
Definition lift_kres {A} (r : kres A) : M A :=
  match r with
  | Done a => ret a
  | StackOverrun => raise KernelStackOverrun
  | OutOfFuel => raise KernelOutOfFuel
  end.

(** *** [pyopencl.algorithm.ListOfListsBuilder], by its contract

    The builder runs [generate] once per key [0 .. n-1].  For every list name
    it was built with it returns the concatenation of what the keys appended
    to that list ([lists]), the offsets of the keys in it ([starts], one more
    entry than keys) and the total ([count]). *)
Record list_of_lists := {
  lol_starts : ref;
  lol_lists : ref;
  lol_count : nat;
}.

Fixpoint run_keys {A} (generate : nat → kres (list A)) (first n : nat)
    : kres (list (list A)) :=
  match n with
  | O => Done []
  | S n' =>
      kres_bind (generate first) (λ l,
        kres_bind (run_keys generate (S first) n') (λ ls, Done (l :: ls)))
  end.

Fixpoint starts_from (offset : nat) (per_key : list (list nat)) : list nat :=
  offset ::
    match per_key with
    | [] => []
    | l :: rest => starts_from (offset + length l) rest
    end.

Definition appended_to (name : string) (l : list (string * nat)) : list nat :=
  snd <$> filter (λ p, fst p = name) l.

Fixpoint store_lists (list_names : list string)
    (per_key : list (list (string * nat))) : M (gmap string list_of_lists) :=
  match list_names with
  | [] => ret ∅
  | name :: names =>
      let mine := appended_to name <$> per_key in
      do starts <- alloc (starts_from 0 mine);
      do lists <- alloc (concat mine);
      do rest <- store_lists names per_key;
      ret (<[name := Build_list_of_lists starts lists (length (concat mine))]>
             rest)
  end.

Definition ListOfListsBuilder (list_names : list string)
    (generate : nat → kres (list (string * nat))) (n : nat)
    : M (gmap string list_of_lists) :=
  do per_key <- lift_kres (run_keys generate 0 n);
  store_lists list_names per_key.

(** A kernel with one list appends to the list of its name. *)
Definition named (name : string) (r : kres (list nat))
    : kres (list (string * nat)) :=
  kres_bind r (λ l, Done ((λ b, (name, b)) <$> l)).

(** [result[name]] on the dict a builder returns. *)
Definition getitem (result : gmap string list_of_lists) (name : string)
    : M list_of_lists :=
  match result !! name with
  | Some r => ret r
  | None => raise (KeyError name)
  end.

Definition div_ceil (a b : nat) : nat := (a + b - 1) / b.

(** The walking kernels stop after at most this many iterations when they
    do not overrun a stack of [h] slots. *)
Fixpoint walk_bound (c h : nat) : nat :=
  match h with
  | O => c
  | S h' => c * S (walk_bound c h')
  end.

(** *** The output *)

Record FMMTraversalInfo := {
  tree : Tree;
  source_boxes : ref;
  target_boxes : ref;
  source_parent_boxes : ref;
  level_start_source_parent_box_nrs : list nat;
  colleagues_starts : ref;
  colleagues_lists : ref;
  neighbor_source_boxes_starts : ref;
  neighbor_source_boxes_lists : ref;
  sep_siblings_starts : ref;
  sep_siblings_lists : ref;
  sep_smaller_nonsiblings_starts : ref;
  sep_smaller_nonsiblings_lists : ref;
  sep_bigger_nonsiblings_starts : ref;
  sep_bigger_nonsiblings_lists : ref;
}.

(** *** [FMMTraversalBuilder] *)

Section Builder.

Variable fl : box_flags_enum.

(** The two tables the templates index by the dimension.  [vec_types] is
    pyopencl's table of vector types and [AXIS_NAMES] comes from
    [boxtree.tools]; neither is among the sources, so both are parameters:
    [vec_type_counts] lists the vector lengths that [vec_types] has for the
    coordinate type. *)
Variable vec_type_counts : list nat.
Variable AXIS_NAMES : list string.

(** A bound on the iterations of one kernel loop (the model's fuel). *)
Variable fuel : nat.

(** What [get_kernel_info] fixes in the kernels it builds. *)
Record _KernelInfo := {
  render_dimensions : nat;
  render_max_levels : nat;
  render_sources_are_targets : bool;
}.

(** [get_kernel_info]: rendering the preamble looks up
    [vec_types[coord_dtype, dimensions]]; rendering [load_center] in the list
    kernels reads [AXIS_NAMES[i]] for every axis. *)
Definition get_kernel_info (dimensions max_levels : nat)
    (sources_are_targets : bool) : M _KernelInfo :=
  if bool_decide (dimensions ∈ vec_type_counts) then
    if dimensions <=? length AXIS_NAMES then
      ret (Build__KernelInfo dimensions max_levels sources_are_targets)
    else raise IndexError
  else raise (KeyError "vec_types").

(** The list names [sources_parents_and_targets_builder] is built with. *)
Definition sources_parents_and_targets_lists (sources_are_targets : bool)
    : list string :=
  ["source_parent_boxes"; "source_boxes"]%string
  ++ (if negb sources_are_targets then ["target_boxes"%string] else []).

Definition py_assert (b : bool) : M unit :=
  if b then ret tt else raise AssertionError.

(** [FMMTraversalBuilder.__call__] *)
Definition FMMTraversalBuilder_call (t : Tree) : M FMMTraversalInfo :=
  if negb (_is_pruned t) then
    raise (ValueError "tree must be pruned for traversal generation")
  else
    let max_levels := div_ceil (nlevels t) 10 * 10 in
    do knl_info <- get_kernel_info (dimensions t) max_levels
                     (sources_are_targets t);
    (* source boxes, their parents, and target boxes *)
    do result <- ListOfListsBuilder
        (sources_parents_and_targets_lists
           (render_sources_are_targets knl_info))
        (λ box_id, Done (sources_parents_and_targets_generate fl t
                           (render_sources_are_targets knl_info) box_id))
        (nboxes t);
    do r_source_boxes <- getitem result "source_boxes";
    let source_boxes := lol_lists r_source_boxes in
    do source_boxes_data <- deref source_boxes;
    do _ <- py_assert (length source_boxes_data =? lol_count r_source_boxes);
    do target_boxes <-
      (if negb (sources_are_targets t) then
         do r_target_boxes <- getitem result "target_boxes";
         let target_boxes := lol_lists r_target_boxes in
         do target_boxes_data <- deref target_boxes;
         do _ <- py_assert
                   (length target_boxes_data =? lol_count r_target_boxes);
         ret target_boxes
       else ret source_boxes);
    do r_source_parent_boxes <- getitem result "source_parent_boxes";
    let source_parent_boxes := lol_lists r_source_parent_boxes in
    do source_parent_boxes_data <- deref source_parent_boxes;
    do _ <- py_assert (length source_parent_boxes_data
                       =? lol_count r_source_parent_boxes);
    (* level starts in source_parent_boxes *)
    let level_start_source_parent_box_nrs :=
      extract_level_start_box_nrs t source_parent_boxes_data in
    (* colleagues *)
    do result <- ListOfListsBuilder ["colleagues"%string]
        (λ box_id, named "colleagues"
           (colleagues_generate t (render_max_levels knl_info) fuel box_id))
        (nboxes t);
    do colleagues <- getitem result "colleagues";
    do colleagues_starts_data <- deref (lol_starts colleagues);
    do colleagues_lists_data <- deref (lol_lists colleagues);
    (* list 1 *)
    do target_boxes_data <- deref target_boxes;
    do result <- ListOfListsBuilder ["neighbor_source_boxes"%string]
        (λ i, named "neighbor_source_boxes"
           (neighbor_source_boxes_generate fl t (render_max_levels knl_info)
              fuel target_boxes_data i))
        (length target_boxes_data);
    do neighbor_source_boxes <- getitem result "neighbor_source_boxes";
    (* list 2 *)
    do result <- ListOfListsBuilder ["sep_siblings"%string]
        (λ box_id, named "sep_siblings"
           (Done (sep_siblings_generate t colleagues_starts_data
                    colleagues_lists_data box_id)))
        (nboxes t);
    do sep_siblings <- getitem result "sep_siblings";
    (* list 3 *)
    do result <- ListOfListsBuilder ["sep_smaller_nonsiblings"%string]
        (λ i, named "sep_smaller_nonsiblings"
           (sep_smaller_nonsiblings_generate fl t
              (render_max_levels knl_info) fuel target_boxes_data
              colleagues_starts_data colleagues_lists_data i))
        (length target_boxes_data);
    do sep_smaller_nonsiblings <- getitem result "sep_smaller_nonsiblings";
    (* list 4 *)
    do result <- ListOfListsBuilder ["sep_bigger_nonsiblings"%string]
        (λ box_id, named "sep_bigger_nonsiblings"
           (Done (sep_bigger_nonsiblings_generate fl t colleagues_starts_data
                    colleagues_lists_data box_id)))
        (nboxes t);
    do sep_bigger_nonsiblings <- getitem result "sep_bigger_nonsiblings";
    ret {|
      tree := t;
      source_boxes := source_boxes;
      target_boxes := target_boxes;
      source_parent_boxes := source_parent_boxes;
      level_start_source_parent_box_nrs := level_start_source_parent_box_nrs;
      colleagues_starts := lol_starts colleagues;
      colleagues_lists := lol_lists colleagues;
      neighbor_source_boxes_starts := lol_starts neighbor_source_boxes;
      neighbor_source_boxes_lists := lol_lists neighbor_source_boxes;
      sep_siblings_starts := lol_starts sep_siblings;
      sep_siblings_lists := lol_lists sep_siblings;
      sep_smaller_nonsiblings_starts := lol_starts sep_smaller_nonsiblings;
      sep_smaller_nonsiblings_lists := lol_lists sep_smaller_nonsiblings;
      sep_bigger_nonsiblings_starts := lol_starts sep_bigger_nonsiblings;
      sep_bigger_nonsiblings_lists := lol_lists sep_bigger_nonsiblings;
    |}.

End Builder.

(* ================================================================= *)
(** ** Trees used as test inputs *)

(** The usual values of the flag bits. *)
Definition boxtree_flags : box_flags_enum :=
  {| BOX_HAS_OWN_SOURCES := 1; BOX_HAS_OWN_TARGETS := 2;
     BOX_HAS_CHILD_SOURCES := 4; BOX_HAS_CHILD_TARGETS := 8;
     BOX_HAS_CHILDREN := 16 |}.

(** pyopencl has vector types of these lengths; [boxtree.tools] names four
    axes. *)
Definition pyopencl_vec_type_counts : list nat := [2; 3; 4; 8; 16].
Definition boxtree_AXIS_NAMES : list string := ["x"; "y"; "z"; "w"]%string.

(** One box of a tree under construction. *)
Record box_desc := {
  bd_level : nat;
  bd_parent : nat;
  bd_center : list Q;
  bd_children : list nat;
  bd_flags : N;
}.

(** Lays the boxes out in the flat arrays of a [Tree], without padding. *)
Definition tree_of_boxes (dims levels : nat) (extent : Q)
    (level_starts : list nat) (sat : bool) (boxes : list box_desc) : Tree :=
  {| dimensions := dims;
     nboxes := length boxes;
     nlevels := levels;
     aligned_nboxes := length boxes;
     root_extent := extent;
     box_centers := i ← seq 0 dims; (λ b, bd_center b !!! i) <$> boxes;
     box_levels := bd_level <$> boxes;
     box_parent_ids := bd_parent <$> boxes;
     box_child_ids := m ← seq 0 (2 ^ dims); (λ b, bd_children b !!! m) <$> boxes;
     box_flags := bd_flags <$> boxes;
     level_start_box_nrs := level_starts;
     sources_are_targets := sat;
     _is_pruned := true |}.

Definition leaf_flags : N := 3.      (* own sources and own targets *)
Definition parent_flags : N := 28.   (* child sources, child targets, children *)

(** Only the root, which holds sources and targets. *)
Definition single_box_tree : Tree :=
  tree_of_boxes 2 1 1 [0; 1] false
    [ Build_box_desc 0 0 [0; 0]%Q [0; 0; 0; 0] leaf_flags ].


(** The lower left quadrant refined once more; the other three quadrants are
    leaves of level 1. *)
Definition refined_quadrant : Tree :=
  tree_of_boxes 2 3 1 [0; 1; 5; 9] false
    [ Build_box_desc 0 0 [0; 0]%Q [1; 2; 3; 4] parent_flags;
      Build_box_desc 1 0 [-(1#4); -(1#4)]%Q [5; 6; 7; 8] parent_flags;
      Build_box_desc 1 0 [1#4; -(1#4)]%Q [0; 0; 0; 0] leaf_flags;
      Build_box_desc 1 0 [-(1#4); 1#4]%Q [0; 0; 0; 0] leaf_flags;
      Build_box_desc 1 0 [1#4; 1#4]%Q [0; 0; 0; 0] leaf_flags;
      Build_box_desc 2 1 [-(3#8); -(3#8)]%Q [0; 0; 0; 0] leaf_flags;
      Build_box_desc 2 1 [-(1#8); -(3#8)]%Q [0; 0; 0; 0] leaf_flags;
      Build_box_desc 2 1 [-(3#8); -(1#8)]%Q [0; 0; 0; 0] leaf_flags;
      Build_box_desc 2 1 [-(1#8); -(1#8)]%Q [0; 0; 0; 0] leaf_flags ].

(** A tree of 32 levels in 2D, refined towards the lower left corner of the
    root: boxes [0 .. 29] form a chain of first children, box 29 has the two
    children 30 and 31 (level 30), and box 30 has the child 32 (level 31). *)
Definition corner_center (level : nat) : Q :=
  (-(1 # 2) + (1 # 2 ^ Pos.of_succ_nat level))%Q.

Definition corner_chain_box (i : nat) : box_desc :=
  Build_box_desc i (i - 1) [corner_center i; corner_center i]
    (if i =? 29 then [30; 31; 0; 0] else [i + 1; 0; 0; 0]) parent_flags.

Definition deep_corner_tree : Tree :=
  tree_of_boxes 2 32 1 (seq 0 31 ++ [32; 33]) false
    ((corner_chain_box <$> seq 0 30) ++
     [ Build_box_desc 30 29 [corner_center 30; corner_center 30]
         [32; 0; 0; 0] parent_flags;
       Build_box_desc 30 29
         [(corner_center 29 + (1 # 2 ^ 31))%Q; corner_center 30]
         [0; 0; 0; 0] leaf_flags;
       Build_box_desc 31 30 [corner_center 31; corner_center 31]
         [0; 0; 0; 0] leaf_flags ]).

(** A tree of 32 levels in 2D with boxes of level 31 that share a face with
    their neighbours: the chain of first children down to box 29 as before;
    box 29 has the children 30 (lower left), 31 (lower right, a leaf) and 32
    (upper left); box 33 is the upper right child of box 30 and box 34 the
    lower right child of box 32, so that box 34 lies on top of box 33 and
    box 31 to the right of it. *)
Definition deep_face_tree : Tree :=
  tree_of_boxes 2 32 1 (seq 0 31 ++ [33; 35]) false
    ((corner_chain_box <$> seq 0 29) ++
     [ Build_box_desc 29 28 [corner_center 29; corner_center 29]
         [30; 31; 32; 0] parent_flags;
       Build_box_desc 30 29 [corner_center 30; corner_center 30]
         [0; 0; 0; 33] parent_flags;
       Build_box_desc 30 29
         [(corner_center 29 + (1 # 2 ^ 31))%Q; corner_center 30]
         [0; 0; 0; 0] leaf_flags;
       Build_box_desc 30 29
         [corner_center 30; (corner_center 29 + (1 # 2 ^ 31))%Q]
         [0; 34; 0; 0] parent_flags;
       Build_box_desc 31 30
         [(corner_center 30 + (1 # 2 ^ 32))%Q;
          (corner_center 30 + (1 # 2 ^ 32))%Q]
         [0; 0; 0; 0] leaf_flags;
       Build_box_desc 31 32
         [(corner_center 30 + (1 # 2 ^ 32))%Q;
          (corner_center 29 + (1 # 2 ^ 31) - (1 # 2 ^ 32))%Q]
         [0; 0; 0; 0] leaf_flags ]).

(** Only the root, in four dimensions. *)
Definition four_dim_tree : Tree :=
  tree_of_boxes 4 1 1 [0; 1] false
    [ Build_box_desc 0 0 [0; 0; 0; 0]%Q (replicate 16 0) leaf_flags ].

(* ================================================================= *)
(** ** Definitions used to state the properties *)

(** The side length of a box of level [l] as the spec gives it:
    [root_extent * 2^(-l)]. *)
Definition spec_size (t : Tree) (l : nat) : Q :=
  (root_extent t / inject_Z (2 ^ Z.of_nat l))%Q.

(** The distance of two centers in the maximum norm. *)
Definition linf_dist (a b : list Q) : Q :=
  foldr Qmax 0%Q (zip_with (λ x y, Qabs (x - y)) a b).

(** "Adjacent or overlapping" as the spec defines it. *)
Definition spec_adjacent_or_overlapping (t : Tree) (A B : nat) : Prop :=
  (linf_dist (load_center t A) (load_center t B)
   <= (1 # 2) * (spec_size t (box_level t A) + spec_size t (box_level t B))
      + (1 # 2) * spec_size t (Nat.max (box_level t A) (box_level t B)))%Q.

(** The adjacency test of the kernels between two boxes of the tree. *)
Definition adjacent (t : Tree) (A B : nat) : bool :=
  is_adjacent_or_overlapping t (load_center t A) (box_level t A) B.

(** The bound the predicate compares [max_dist] with. *)
Definition slack_of (t : Tree) (level other_level : nat) : Q :=
  (0.5 * (LEVEL_TO_SIZE t level + LEVEL_TO_SIZE t other_level)
   + 0.5 * LEVEL_TO_SIZE t (Nat.max level other_level))%Q.

(** *** The walk as a recursive descent

    What a walk appends, told as a recursion over the tree instead of a loop
    with a stack: the slots of [b] in Morton order, each child followed by
    what the walk appends below it when it descends.  [h] bounds the depth. *)
Section WalkSpec.

Variable t : Tree.
Variable NLEVELS : nat.
Variable examine : nat → nat → list nat * bool.

Definition walk_slot (below : nat → list nat) (L b m : nat) : list nat :=
  let c := box_child t m b in
  if c =? 0 then []
  else (examine L c).1 ++ (if (examine L c).2 then below c else []).

Fixpoint walk_rec (h L b : nat) {struct h} : list nat :=
  m ← seq 0 (nchildren t);
  walk_slot (λ c, match h with
                  | O => []
                  | S h' => walk_rec h' (S L) c
                  end) L b m.

Definition walk_below (h L : nat) (c : nat) : list nat :=
  match h with
  | O => []
  | S h' => walk_rec h' (S L) c
  end.

(** The descent from [b], entered at stack level [L], is at most [h] deep
    and stays inside the stack. *)
Fixpoint walk_fits (h L b : nat) {struct h} : Prop :=
  ∀ m, m < nchildren t → box_child t m b ≠ 0 →
    (examine L (box_child t m b)).2 = true →
    match h with
    | O => False
    | S h' => L < NLEVELS ∧ walk_fits h' (S L) (box_child t m b)
    end.

(** Iterations spent on one slot of a box whose descent is [h] deep. *)
Definition slot_bound (h : nat) : nat :=
  match h with
  | O => 1
  | S h' => S (walk_bound (nchildren t) h')
  end.

(** The loop, started in slot [m] of [b] with [k] slots of [b] left, reaches
    the point where it advances out of the last slot of [b], having appended
    what the recursive descent appends for these slots.  The stacks are
    unchanged below [L]. *)
Definition walk_simulates (h : nat) : Prop :=
  ∀ L b m k bs ms,
    m + k = nchildren t → 0 < k → walk_fits h L b →
    length bs = NLEVELS → length ms = NLEVELS →
    ∃ n bs' ms',
      n ≤ k * slot_bound h
      ∧ length bs' = NLEVELS ∧ length ms' = NLEVELS
      ∧ (∀ i, i < L → bs' !!! i = bs !!! i)
      ∧ (∀ i, i < L → ms' !!! i = ms !!! i)
      ∧ ∀ fuel out,
          walk_loop t NLEVELS examine (n + fuel) (Walk bs ms L b m true) out
          = walk_loop t NLEVELS examine fuel
              (walk_advance_from t bs' ms' L b (nchildren t - 1))
              (out ++ (m' ← seq m k; walk_slot (walk_below h L) L b m')).

End WalkSpec.

(** *** Well-formed trees

    The invariants of the input tree (spec, section 3) that the properties
    below rest on: how levels, parents and children are linked, and where the
    centers lie.  The geometry includes the range of levels on which
    [1 << level] is the power of two. *)

Record wf_links (t : Tree) : Prop := {
  wf_nboxes : 0 < nboxes t;
  wf_root_level : box_level t 0 = 0;
  wf_root_parent : box_parent t 0 = 0;
  wf_child : ∀ b m,
    b < nboxes t → m < nchildren t → box_child t m b ≠ 0 →
    box_child t m b < nboxes t
    ∧ box_level t (box_child t m b) = S (box_level t b)
    ∧ box_level t (box_child t m b) < nlevels t
    ∧ box_parent t (box_child t m b) = b;
  wf_parent : ∀ b,
    0 < b < nboxes t →
    box_parent t b < nboxes t
    ∧ ∃ m, m < nchildren t ∧ box_child t m (box_parent t b) = b;
}.

(** A child's center is half a child's side away from the parent's. *)
Definition child_center_ok (t : Tree) (b c i : nat) : Prop :=
  let half := (LEVEL_TO_SIZE t (box_level t c) / 2)%Q in
  (load_center t c !!! i == load_center t b !!! i + half)%Q
  ∨ (load_center t c !!! i == load_center t b !!! i - half)%Q.

Record wf_geometry (t : Tree) : Prop := {
  wf_nlevels : nlevels t ≤ 31;
  wf_extent : (0 <= root_extent t)%Q;
  wf_center : ∀ b m i,
    b < nboxes t → m < nchildren t → box_child t m b ≠ 0 →
    i < dimensions t → child_center_ok t b (box_child t m b) i;
}.

Definition wf_tree (t : Tree) : Prop := wf_links t ∧ wf_geometry t.

(** The same, as tests that can be run on a tree. *)
Definition check_child (t : Tree) (b m : nat) : bool :=
  let c := box_child t m b in
  (c =? 0)
  || ((c <? nboxes t)
      && (box_level t c =? S (box_level t b))
      && (box_level t c <? nlevels t)
      && (box_parent t c =? b)).

Definition check_parent (t : Tree) (b : nat) : bool :=
  (b =? 0)
  || ((box_parent t b <? nboxes t)
      && existsb (λ m, box_child t m (box_parent t b) =? b)
                 (seq 0 (nchildren t))).

Definition check_links (t : Tree) : bool :=
  (0 <? nboxes t)
  && (box_level t 0 =? 0)
  && (box_parent t 0 =? 0)
  && forallb (λ b, forallb (check_child t b) (seq 0 (nchildren t))
                   && check_parent t b)
             (seq 0 (nboxes t)).

Definition check_child_center (t : Tree) (b c i : nat) : bool :=
  let half := (LEVEL_TO_SIZE t (box_level t c) / 2)%Q in
  Qeq_bool (load_center t c !!! i) (load_center t b !!! i + half)
  || Qeq_bool (load_center t c !!! i) (load_center t b !!! i - half).

Definition check_centers (t : Tree) : bool :=
  forallb (λ b,
    forallb (λ m,
      let c := box_child t m b in
      (c =? 0) || forallb (check_child_center t b c) (seq 0 (dimensions t)))
      (seq 0 (nchildren t)))
    (seq 0 (nboxes t)).

Definition check_geometry (t : Tree) : bool :=
  (nlevels t <=? 31) && Qle_bool 0 (root_extent t) && check_centers t.

Definition check_tree (t : Tree) : bool := check_links t && check_geometry t.

(** The [k]-th ancestor of a box ([box_parent_ids] followed [k] times). *)
Definition ancestor (t : Tree) (k b : nat) : nat := Nat.iter k (box_parent t) b.

(** The colleagues of a box as the recursive descent from the root finds
    them. *)
Definition colleagues_of (t : Tree) (box_id : nat) : list nat :=
  if box_id =? 0 then []
  else
    walk_rec t
      (colleagues_examine t box_id (load_center t box_id) (box_level t box_id))
      (nlevels t - 1) 0 0.

(** The two arrays in which the colleagues builder stores the lists of all
    boxes: [colleagues.starts] and [colleagues.lists]. *)
Definition colleagues_table (t : Tree) (NLEVELS fuel : nat)
    : kres (list nat * list nat) :=
  kres_bind (run_keys (colleagues_generate t NLEVELS fuel) 0 (nboxes t))
    (λ per_key, Done (starts_from 0 per_key, concat per_key)).

(** The same for the colleagues kernel over any coordinate arithmetic. *)
Definition colleagues_table_in {coord_vec_t : Type} (t : Tree) (NLEVELS : nat)
    (load_center_in : nat → coord_vec_t)
    (a_or_o : coord_vec_t → nat → nat → bool) (fuel : nat)
    : kres (list nat * list nat) :=
  kres_bind
    (run_keys (colleagues_generate_in t NLEVELS load_center_in a_or_o fuel)
       0 (nboxes t))
    (λ per_key, Done (starts_from 0 per_key, concat per_key)).

(** What the test returns for box [A], with its center and its level, at
    box [B]. *)
Definition passes {coord_vec_t : Type} (t : Tree)
    (load_center_in : nat → coord_vec_t)
    (a_or_o : coord_vec_t → nat → nat → bool) (A B : nat) : bool :=
  a_or_o (load_center_in A) (box_level t A) B.

(** The slice [lists[starts[key]:starts[key+1]]]. *)
Definition csr_slice (starts lists : list nat) (key : nat) : list nat :=
  (λ i, lists !!! i) <$> index_range (starts !!! key) (starts !!! (key + 1)).

(** *** Level starts *)

(** [l[a:b]] *)
Definition py_slice (l : list nat) (a b : nat) : list nat :=
  take (b - a) (drop a l).

(** [source_parent_boxes] as the builder of the first stage stores it: what
    the boxes [0 .. nboxes-1] append to that list, in this order. *)
Definition emitted_source_parent_boxes (fl : box_flags_enum) (t : Tree)
    : list nat :=
  concat ((λ box_id,
             appended_to "source_parent_boxes"
               (sources_parents_and_targets_generate fl t
                  (sources_are_targets t) box_id))
          <$> seq 0 (nboxes t)).

(** Boxes are sorted by level (spec, section 3, invariant 2): the boxes of
    level [l] are those from [level_start_box_nrs[l]] up to
    [level_start_box_nrs[l+1]]. *)
Record wf_level_starts (t : Tree) : Prop := {
  wf_ls_step : ∀ l,
    l < nlevels t →
    level_start_box_nrs t !!! l ≤ level_start_box_nrs t !!! (l + 1);
  wf_ls_box : ∀ b,
    b < nboxes t →
    box_level t b < nlevels t
    ∧ level_start_box_nrs t !!! box_level t b ≤ b
    ∧ b < level_start_box_nrs t !!! (box_level t b + 1);
}.

Definition check_level_starts (t : Tree) : bool :=
  forallb (λ l, level_start_box_nrs t !!! l
                <=? level_start_box_nrs t !!! (l + 1))
          (seq 0 (nlevels t))
  && forallb (λ b, (box_level t b <? nlevels t)
                   && (level_start_box_nrs t !!! box_level t b <=? b)
                   && (b <? level_start_box_nrs t !!! (box_level t b + 1)))
             (seq 0 (nboxes t)).

(** A box above a box with sources has [HAS_CHILD_SOURCES]; so the root has
    the flag as soon as any box has it. *)
Definition source_parents_rooted (fl : box_flags_enum) (t : Tree) : Prop :=
  ∀ b, b < nboxes t →
    flag_set (box_flag t b) (BOX_HAS_CHILD_SOURCES fl) = true →
    flag_set (box_flag t 0) (BOX_HAS_CHILD_SOURCES fl) = true.

(** *** Further invariants of the tree and further lists *)

(** The slots of a box hold different children. *)
Definition wf_slots (t : Tree) : Prop :=
  ∀ b m m',
    b < nboxes t → m < nchildren t → m' < nchildren t →
    box_child t m b ≠ 0 → box_child t m b = box_child t m' b → m = m'.

Definition check_slots (t : Tree) : bool :=
  forallb (λ b,
    forallb (λ m,
      forallb (λ m',
        (box_child t m b =? 0)
        || negb (box_child t m b =? box_child t m' b)
        || (m =? m'))
        (seq 0 (nchildren t)))
      (seq 0 (nchildren t)))
    (seq 0 (nboxes t)).

(** A box that holds sources, or has sources below it, has a parent with
    [HAS_CHILD_SOURCES]. *)
Definition sources_flags_linked (fl : box_flags_enum) (t : Tree) : Prop :=
  ∀ b, 0 < b < nboxes t →
    flag_set (box_flag t b) (BOX_HAS_OWN_SOURCES fl) = true
    ∨ flag_set (box_flag t b) (BOX_HAS_CHILD_SOURCES fl) = true →
    flag_set (box_flag t (box_parent t b)) (BOX_HAS_CHILD_SOURCES fl) = true.

Definition check_sources_flags (fl : box_flags_enum) (t : Tree) : bool :=
  forallb (λ b,
    (b =? 0)
    || negb (flag_set (box_flag t b) (BOX_HAS_OWN_SOURCES fl)
             || flag_set (box_flag t b) (BOX_HAS_CHILD_SOURCES fl))
    || flag_set (box_flag t (box_parent t b)) (BOX_HAS_CHILD_SOURCES fl))
    (seq 0 (nboxes t)).

(** A box with a child has [HAS_CHILDREN]. *)
Definition children_flags_linked (fl : box_flags_enum) (t : Tree) : Prop :=
  ∀ b m, b < nboxes t → m < nchildren t → box_child t m b ≠ 0 →
    flag_set (box_flag t b) (BOX_HAS_CHILDREN fl) = true.

Definition check_children_flags (fl : box_flags_enum) (t : Tree) : bool :=
  forallb (λ b,
    forallb (λ m,
      (box_child t m b =? 0)
      || flag_set (box_flag t b) (BOX_HAS_CHILDREN fl))
      (seq 0 (nchildren t)))
    (seq 0 (nboxes t)).

(** List 1 of the box [T] as the recursive descent from the root finds it. *)
Definition neighbor_source_boxes_of (fl : box_flags_enum) (t : Tree)
    (T : nat) : list nat :=
  walk_rec t
    (neighbor_source_boxes_examine fl t (load_center t T) (box_level t T))
    (nlevels t - 1) 0 0.

(** List 3 of the box [T]: the descents from its colleagues, one after the
    other. *)
Definition sep_smaller_nonsiblings_of (fl : box_flags_enum) (t : Tree)
    (T : nat) : list nat :=
  K ← colleagues_of t T;
  walk_rec t
    (sep_smaller_nonsiblings_examine fl t (load_center t T) (box_level t T))
    (nlevels t - 1) 0 K.

(** *** [FMMTraversalInfo.get_box_list] *)

(** The ways [get_box_list] fails: [getattr] finds no attribute of the
    name; the slice of [starts] does not hold the two values that
    [start, stop = ...] unpacks (a [ValueError]); or [start] and [stop] are
    elements of a device array, which the slice [lists[start:stop]] does not
    take as bounds (a [TypeError]). *)
Inductive get_box_list_failure :=
  | AttributeError (name : string)
  | UnpackValueError (got : nat)
  | SliceTypeError.

(** The attributes of a traversal that hold arrays.  No other attribute of
    the record has a name that ends in [_starts] or [_lists]. *)
Definition array_attributes (info : FMMTraversalInfo) : list (string * ref) :=
  [ ("source_boxes", source_boxes info);
    ("target_boxes", target_boxes info);
    ("source_parent_boxes", source_parent_boxes info);
    ("colleagues_starts", colleagues_starts info);
    ("colleagues_lists", colleagues_lists info);
    ("neighbor_source_boxes_starts", neighbor_source_boxes_starts info);
    ("neighbor_source_boxes_lists", neighbor_source_boxes_lists info);
    ("sep_siblings_starts", sep_siblings_starts info);
    ("sep_siblings_lists", sep_siblings_lists info);
    ("sep_smaller_nonsiblings_starts", sep_smaller_nonsiblings_starts info);
    ("sep_smaller_nonsiblings_lists", sep_smaller_nonsiblings_lists info);
    ("sep_bigger_nonsiblings_starts", sep_bigger_nonsiblings_starts info);
    ("sep_bigger_nonsiblings_lists", sep_bigger_nonsiblings_lists info)
  ]%string.

Definition getattr_array (info : FMMTraversalInfo) (name : string)
    : get_box_list_failure + ref :=
  match filter (λ p, fst p = name) (array_attributes info) with
  | p :: _ => inr (snd p)
  | [] => inl (AttributeError name)
  end.

(** [get_box_list(what, index)] on the record as [__call__] returns it, a
    non-negative [index].  The attributes are pyopencl arrays on the device
    (the contents are those of [h]).  The slice of [starts] is Python's and
    stops at the end of the array; unpacking two elements of a device array
    gives two device arrays, and [lists[start:stop]] refuses them as slice
    bounds. *)
Definition get_box_list (h : cl_mem) (info : FMMTraversalInfo)
    (what : string) (index : nat) : get_box_list_failure + list nat :=
  match getattr_array info (what +:+ "_starts") with
  | inl e => inl e
  | inr starts =>
      match getattr_array info (what +:+ "_lists") with
      | inl e => inl e
      | inr lists =>
          match py_slice (h !!! starts) index (index + 2) with
          | [start; stop] => inl SliceTypeError
          | l => inl (UnpackValueError (length l))
          end
      end
  end.

(** [FMMTraversalInfo] derives from [FromDeviceGettableRecord] of
    [boxtree.tools], which is not among the sources: its [get] returns the
    record with every device array replaced by its copy on the host.  The
    copy is modelled by its array attributes, each with the contents the
    device array has in [h]. *)
Definition host_arrays : Type := list (string * list nat).

Definition FMMTraversalInfo_get (h : cl_mem) (info : FMMTraversalInfo)
    : host_arrays :=
  (λ p, (fst p, h !!! snd p)) <$> array_attributes info.

Definition getattr_host (arrays : host_arrays) (name : string)
    : get_box_list_failure + list nat :=
  match filter (λ p, fst p = name) arrays with
  | p :: _ => inr (snd p)
  | [] => inl (AttributeError name)
  end.

(** [get_box_list(what, index)] on the copy on the host, where the arrays
    are numpy arrays and [start] and [stop] are integers. *)
Definition get_box_list_host (arrays : host_arrays)
    (what : string) (index : nat) : get_box_list_failure + list nat :=
  match getattr_host arrays (what +:+ "_starts") with
  | inl e => inl e
  | inr starts =>
      match getattr_host arrays (what +:+ "_lists") with
      | inl e => inl e
      | inr lists =>
          match py_slice starts index (index + 2) with
          | [start; stop] => inr (py_slice lists start stop)
          | l => inl (UnpackValueError (length l))
          end
      end
  end.

(** The names of the five lists of lists of a traversal. *)
Definition list_of_lists_names : list string :=
  ["colleagues"; "neighbor_source_boxes"; "sep_siblings";
   "sep_smaller_nonsiblings"; "sep_bigger_nonsiblings"]%string.

(* ================================================================= *)
(** ** Data vectors of the expansion wrangler
    ([boxtree/pyfmmlib_integration.py]) *)

(** The [ValueError] of [box_start, box_stop = ...] when the slice does not
    hold two values. *)
Inductive view_failure :=
  | ViewUnpackValueError (got : nat).

(** [multipole_expansions_view]: the rows of [mpole_exps] of the boxes of a
    level, with the number of the first of them. *)
Definition multipole_expansions_view {A} (t : Tree) (mpole_exps : list A)
    (level : nat) : view_failure + nat * list A :=
  match py_slice (level_start_box_nrs t) level (level + 2) with
  | [box_start; box_stop] =>
      inr (box_start, take (box_stop - box_start) (drop box_start mpole_exps))
  | l => inl (ViewUnpackValueError (length l))
  end.

(** [local_expansions_view] *)
Definition local_expansions_view {A} (t : Tree) (local_exps : list A)
    (level : nat) : view_failure + nat * list A :=
  match py_slice (level_start_box_nrs t) level (level + 2) with
  | [box_start; box_stop] =>
      inr (box_start, take (box_stop - box_start) (drop box_start local_exps))
  | l => inl (ViewUnpackValueError (length l))
  end.

(* ================================================================= *)
(** ** Roman numerals ([boxtree/visualization.py]) *)

(** The module imports [division] from [__future__], so [inp / ints[i]] is
    the true division: both integers become binary64 numbers, which are
    divided, and [int] cuts the quotient off towards zero.  [int_to_roman]
    divides integers between 0 and 3999 only. *)
Definition py_float_of_int (a : Z) : PrimFloat.float :=
  PrimFloat.of_uint63 (Uint63.of_Z a).

Definition py_int_of_float (f : PrimFloat.float) : Z :=
  match FloatOps.Prim2SF f with
  | SpecFloat.S754_finite s m e =>
      let v := if (0 <=? e)%Z then (Z.pos m * 2 ^ e)%Z
               else (Z.pos m / 2 ^ (- e))%Z in
      if s then (- v)%Z else v
  | _ => 0%Z
  end.

Definition py_truediv (a b : Z) : PrimFloat.float :=
  PrimFloat.div (py_float_of_int a) (py_float_of_int b).

(** [ValueError("Argument must be between 1 and 3999 (got %d)" % inp)] *)
Inductive roman_failure :=
  | RomanValueError (inp : Z).

Definition roman_ints : list Z :=
  [1000; 900; 500; 400; 100; 90; 50; 40; 10; 9; 5; 4; 1]%Z.

Definition roman_nums : list string :=
  ["M"; "CM"; "D"; "CD"; "C"; "XC"; "L"; "XL"; "X"; "IX"; "V"; "IV"; "I"]%string.

(** [s * count] on a string. *)
Fixpoint string_repeat (s : string) (count : nat) : string :=
  match count with
  | O => ""%string
  | S n => (s +:+ string_repeat s n)%string
  end.

(** [int_to_roman] on an [int]; the state of the loop is [(inp, result)]. *)
Definition int_to_roman (inp : Z) : roman_failure + string :=
  if (inp =? 0)%Z then inr "Z"%string
  else if negb ((0 <? inp)%Z && (inp <? 4000)%Z)
  then inl (RomanValueError inp)
  else
    inr (snd (foldl (λ (st : Z * string) i,
                       let (inp, result) := st in
                       let count :=
                         py_int_of_float (py_truediv inp (roman_ints !!! i)) in
                       let result :=
                         (result +:+ string_repeat (roman_nums !!! i)
                                       (Z.to_nat count))%string in
                       let inp := (inp - roman_ints !!! i * count)%Z in
                       (inp, result))
                    (inp, ""%string) (seq 0 (length roman_ints)))).

(** The value of a Roman numeral as it is read: a digit before a greater
    one is subtracted. *)
Definition roman_digit (c : Ascii.ascii) : Z :=
  let d := String c EmptyString in
  if String.eqb d "I" then 1
  else if String.eqb d "V" then 5
  else if String.eqb d "X" then 10
  else if String.eqb d "L" then 50
  else if String.eqb d "C" then 100
  else if String.eqb d "D" then 500
  else if String.eqb d "M" then 1000
  else 0.

Fixpoint roman_value (s : string) : Z :=
  match s with
  | EmptyString => 0
  | String c rest =>
      match rest with
      | String c' _ =>
          if (roman_digit c <? roman_digit c')%Z
          then (roman_value rest - roman_digit c)%Z
          else (roman_value rest + roman_digit c)%Z
      | EmptyString => roman_digit c
      end
  end.

(** The letters of the alphabet, which a TeX control word is made of. *)
Definition is_letter (c : Ascii.ascii) : bool :=
  let n := Ascii.nat_of_ascii c in
  ((65 <=? n) && (n <=? 90)) || ((97 <=? n) && (n <=? 122)).

Fixpoint all_letters (s : string) : bool :=
  match s with
  | EmptyString => true
  | String c rest => is_letter c && all_letters rest
  end.

(** What [int_to_roman] is to do on one number between 0 and 3999, as a
    test: the numeral reads as the number, is made of letters and is not
    empty. *)
Definition roman_ok (n : nat) : bool :=
  match int_to_roman (Z.of_nat n) with
  | inr s =>
      (roman_value s =? Z.of_nat n)%Z && all_letters s
      && negb (String.eqb s "")
  | inl _ => false
  end.

(* ================================================================= *)
(** * Properties *)


(** ** Machine arithmetic of [LEVEL_TO_SIZE] *)

Lemma shl_int32_1_small (l : nat) :
  l ≤ 30 → shl_int32 1 (Z.of_nat l) = (2 ^ Z.of_nat l)%Z.
Proof.
  intros Hl.
  do 31 (destruct l as [|l]; [vm_compute; reflexivity|]).
  lia.
Qed.

Lemma pow2_pos (l : nat) : (0 < inject_Z (2 ^ Z.of_nat l))%Q.
Proof.
  change 0%Q with (inject_Z 0). rewrite <- Zlt_Qlt.
  apply Z.pow_pos_nonneg; lia.
Qed.

Lemma LEVEL_TO_SIZE_small (t : Tree) (l : nat) :
  l ≤ 30 → (LEVEL_TO_SIZE t l == spec_size t l)%Q.
Proof.
  intros Hl. unfold LEVEL_TO_SIZE, spec_size.
  rewrite shl_int32_1_small by done.
  rewrite Qmult_1_r. reflexivity.
Qed.

Lemma spec_size_nonneg (t : Tree) (l : nat) :
  (0 <= root_extent t)%Q → (0 <= spec_size t l)%Q.
Proof.
  intros Hr. unfold spec_size, Qdiv.
  apply Qmult_le_0_compat; [done|].
  apply Qlt_le_weak, Qinv_lt_0_compat, pow2_pos.
Qed.

Lemma spec_size_halves (t : Tree) (l : nat) :
  (spec_size t l == 2 * spec_size t (S l))%Q.
Proof.
  unfold spec_size.
  assert (Hp := pow2_pos l).
  replace (2 ^ Z.of_nat (S l))%Z with (2 * 2 ^ Z.of_nat l)%Z
    by (rewrite Nat2Z.inj_succ, Z.pow_succ_r; lia).
  rewrite inject_Z_mult. change (inject_Z 2) with 2%Q.
  field. intros H. rewrite H in Hp. by apply Qlt_irrefl in Hp.
Qed.

(** ** The adjacency predicate *)

Lemma foldl_Qmax_le (f : nat → Q) (l : list nat) (acc x : Q) :
  (foldl (λ a i, Qmax a (f i)) acc l <= x)%Q
  ↔ (acc <= x)%Q ∧ ∀ i, i ∈ l → (f i <= x)%Q.
Proof.
  revert acc. induction l as [|j l IH]; intros acc; simpl.
  - split; [intros H; split; [done|] | by intros [H _]].
    intros i Hi. by apply elem_of_nil in Hi.
  - rewrite IH, Q.max_lub_iff. split.
    + intros [[Ha Hj] Hl]. split; [done|].
      intros i Hi. apply elem_of_cons in Hi as [->|Hi]; auto.
    + intros [Ha Hl]. split; [split; [done|]|].
      * apply Hl. apply elem_of_cons. by left.
      * intros i Hi. apply Hl. apply elem_of_cons. by right.
Qed.

Lemma max_dist_le (t : Tree) (c oc : list Q) (x : Q) :
  (max_dist t c oc <= x)%Q
  ↔ (0 <= x)%Q ∧ ∀ i, i < dimensions t → (Qabs (c !!! i - oc !!! i) <= x)%Q.
Proof.
  unfold max_dist.
  rewrite (foldl_Qmax_le (λ i, Qabs (c !!! i - oc !!! i))).
  split; intros [H0 H]; (split; [done|]); intros i Hi; apply H.
  - apply elem_of_seq. lia.
  - apply elem_of_seq in Hi. lia.
Qed.

Lemma is_adjacent_or_overlapping_iff (t : Tree) (c : list Q) (l b : nat) :
  is_adjacent_or_overlapping t c l b = true
  ↔ (0 <= slack_of t l (box_level t b))%Q
    ∧ ∀ i, i < dimensions t →
        (Qabs (c !!! i - load_center t b !!! i)
         <= slack_of t l (box_level t b))%Q.
Proof.
  unfold is_adjacent_or_overlapping. rewrite Qle_bool_iff.
  apply max_dist_le.
Qed.

Lemma slack_of_comm (t : Tree) (l1 l2 : nat) :
  (slack_of t l1 l2 == slack_of t l2 l1)%Q.
Proof. unfold slack_of. rewrite (Nat.max_comm l1 l2). ring. Qed.

Lemma adjacent_sym_imp (t : Tree) (A B : nat) :
  adjacent t A B = true → adjacent t B A = true.
Proof.
  unfold adjacent. rewrite !is_adjacent_or_overlapping_iff.
  intros [H0 H]. split.
  - by rewrite slack_of_comm.
  - intros i Hi. rewrite slack_of_comm, Qabs_Qminus. auto.
Qed.

(** The predicate is symmetric in its two boxes. *)
Lemma adjacent_sym (t : Tree) (A B : nat) : adjacent t A B = adjacent t B A.
Proof. apply eq_true_iff_eq. split; apply adjacent_sym_imp. Qed.

Lemma linf_dist_le (a b : list Q) (x : Q) :
  (linf_dist a b <= x)%Q
  ↔ (0 <= x)%Q
    ∧ ∀ i, i < Nat.min (length a) (length b) →
        (Qabs (a !!! i - b !!! i) <= x)%Q.
Proof.
  unfold linf_dist. revert b.
  induction a as [|u a IH]; intros [|v b]; simpl;
    try (split; [intros H; split; [done|]; intros i Hi; lia | by intros [H _]]).
  rewrite Q.max_lub_iff, IH. split.
  - intros [Hu [H0 H]]. split; [done|].
    intros [|i] Hi; simpl; [done|]. apply H. lia.
  - intros [H0 H]. split; [apply (H 0); lia|]. split; [done|].
    intros i Hi. apply (H (S i)). lia.
Qed.

Lemma length_load_center (t : Tree) (b : nat) :
  length (load_center t b) = dimensions t.
Proof. unfold load_center. by rewrite length_map, length_seq. Qed.

Lemma slack_of_small (t : Tree) (l1 l2 : nat) :
  l1 ≤ 30 → l2 ≤ 30 →
  (slack_of t l1 l2
   == (1 # 2) * (spec_size t l1 + spec_size t l2)
      + (1 # 2) * spec_size t (Nat.max l1 l2))%Q.
Proof.
  intros H1 H2. unfold slack_of.
  rewrite !LEVEL_TO_SIZE_small by lia.
  assert (0.5 == 1 # 2)%Q as -> by reflexivity. reflexivity.
Qed.

(** Below level 31 the kernel predicate is the predicate of the spec. *)
Lemma is_adjacent_or_overlapping_spec_below_31 (t : Tree) (A B : nat) :
  box_level t A ≤ 30 → box_level t B ≤ 30 →
  adjacent t A B = true ↔ spec_adjacent_or_overlapping t A B.
Proof.
  intros HA HB. unfold adjacent, spec_adjacent_or_overlapping.
  rewrite is_adjacent_or_overlapping_iff, linf_dist_le.
  rewrite !length_load_center, Nat.min_id.
  assert (Hs := slack_of_small t _ _ HA HB).
  split; intros [H0 H]; (split; [by rewrite Hs in * |]);
    intros i Hi; specialize (H i Hi); by rewrite Hs in *.
Qed.

(** C2, at a box of level 31.  [1 << 31] is [INT_MIN]: the size of the level
    comes out negative, and the kernel predicate denies that box 32 of
    [deep_corner_tree] overlaps itself, while the formula of the spec, with
    [size(31) = root_extent * 2^(-31)], holds there (the distance is 0). *)
Theorem is_adjacent_or_overlapping_wrong_at_level_31 :
  box_level deep_corner_tree 32 = 31
  ∧ (LEVEL_TO_SIZE deep_corner_tree 31 == - spec_size deep_corner_tree 31)%Q
  ∧ adjacent deep_corner_tree 32 32 = false
  ∧ spec_adjacent_or_overlapping deep_corner_tree 32 32.
Proof.
  split; [reflexivity|]. split; [reflexivity|]. split; [vm_compute; reflexivity|].
  unfold spec_adjacent_or_overlapping. apply Qle_bool_iff.
  vm_compute. reflexivity.
Qed.

(** ** The walk loop against the recursive descent *)

Section WalkTheory.
Variable t : Tree.
Variable NLEVELS : nat.
Variable examine : nat → nat → list nat * bool.

Lemma nchildren_pos : 0 < nchildren t.
Proof. unfold nchildren. apply Nat.neq_0_lt_0, Nat.pow_nonzero. lia. Qed.

Lemma walk_bound_slot (h : nat) :
  walk_bound (nchildren t) h = nchildren t * slot_bound t h.
Proof. destruct h; simpl; lia. Qed.

Lemma walk_advance_from_next bs ms L b m :
  S m < nchildren t →
  walk_advance_from t bs ms L b m = Walk bs ms L b (S m) true.
Proof.
  intros Hm. destruct L; simpl;
    (destruct (S m <? nchildren t) eqn:E; [done|]);
    apply Nat.ltb_ge in E; lia.
Qed.

Lemma walk_advance_from_pop bs ms L c :
  walk_advance_from t bs ms (S L) c (nchildren t - 1)
  = walk_advance_from t bs ms L (bs !!! L) (ms !!! L).
Proof.
  assert (Hc := nchildren_pos). simpl.
  destruct (S (nchildren t - 1) <? nchildren t) eqn:E; [|done].
  apply Nat.ltb_lt in E. lia.
Qed.

Lemma walk_advance_from_done bs ms b :
  walk_advance_from t bs ms 0 b (nchildren t - 1)
  = Walk bs ms 0 b (nchildren t) false.
Proof.
  assert (Hc := nchildren_pos). simpl.
  destruct (S (nchildren t - 1) <? nchildren t) eqn:E.
  - apply Nat.ltb_lt in E. lia.
  - do 2 f_equal. lia.
Qed.

Lemma walk_rec_eq h L b :
  walk_rec t examine h L b
  = (m ← seq 0 (nchildren t); walk_slot t examine (walk_below t examine h L) L b m).
Proof. by destruct h. Qed.

Lemma walk_loop_step fuel w out :
  continue_walk w = true →
  walk_loop t NLEVELS examine (S fuel) w out
  = match walk_step t NLEVELS examine w out with
    | Some (w', out') => walk_loop t NLEVELS examine fuel w' out'
    | None => StackOverrun
    end.
Proof. intros H. simpl. by rewrite H. Qed.

(** One slot. *)
Lemma walk_slot_sim h L b m bs ms :
  match h with O => True | S h' => walk_simulates t NLEVELS examine h' end →
  m < nchildren t → walk_fits t NLEVELS examine h L b →
  length bs = NLEVELS → length ms = NLEVELS →
  ∃ n bs' ms',
    n ≤ slot_bound t h
    ∧ length bs' = NLEVELS ∧ length ms' = NLEVELS
    ∧ (∀ i, i < L → bs' !!! i = bs !!! i)
    ∧ (∀ i, i < L → ms' !!! i = ms !!! i)
    ∧ ∀ fuel out,
        walk_loop t NLEVELS examine (n + fuel) (Walk bs ms L b m true) out
        = walk_loop t NLEVELS examine fuel
            (walk_advance_from t bs' ms' L b m)
            (out ++ walk_slot t examine (walk_below t examine h L) L b m).
Proof.
  intros Hsub Hm Hfits Hbs Hms.
  destruct (box_child t m b =? 0) eqn:Hc.
  { exists 1, bs, ms. repeat split; try done.
    - destruct h; simpl; lia.
    - intros fuel out. change (1 + fuel) with (S fuel).
      rewrite walk_loop_step by done.
      unfold walk_step, walk_slot; simpl. rewrite Hc.
      by rewrite app_nil_r. }
  destruct (examine L (box_child t m b)) as [em desc] eqn:Hex.
  destruct desc.
  2:{ exists 1, bs, ms. repeat split; try done.
      - destruct h; simpl; lia.
      - intros fuel out. change (1 + fuel) with (S fuel).
        rewrite walk_loop_step by done.
        unfold walk_step, walk_slot; simpl. rewrite Hc, Hex. simpl.
        by rewrite app_nil_r. }
  apply Nat.eqb_neq in Hc as Hc'.
  assert (Hf := Hfits). destruct h as [|h'].
  { simpl in Hf. destruct (Hf m Hm Hc'). by rewrite Hex. }
  simpl in Hf. destruct (Hf m Hm Hc') as [HL Hfits']; [by rewrite Hex|].
  destruct (Hsub (S L) (box_child t m b) 0 (nchildren t)
              (<[L:=b]> bs) (<[L:=m]> ms))
    as (n & bs' & ms' & Hn & Hbs' & Hms' & Hagb & Hagm & Hrun);
    [lia | apply nchildren_pos | done | by rewrite length_insert
    | by rewrite length_insert |].
  exists (S n), bs', ms'. split; [|split; [done|split; [done|split; [|split]]]].
  - simpl. rewrite walk_bound_slot. lia.
  - intros i Hi. rewrite Hagb by lia. apply list_lookup_total_insert_ne. lia.
  - intros i Hi. rewrite Hagm by lia. apply list_lookup_total_insert_ne. lia.
  - intros fuel out. change (S n + fuel) with (S (n + fuel)).
    rewrite walk_loop_step by done.
    unfold walk_step, walk_push; simpl. rewrite Hc, Hex.
    apply Nat.ltb_lt in HL as HL'. rewrite HL'. simpl.
    rewrite Hrun. rewrite walk_advance_from_pop.
    rewrite Hagb, Hagm by lia.
    rewrite !list_lookup_total_insert_eq by lia.
    unfold walk_slot. rewrite Hc, Hex. simpl.
    rewrite walk_rec_eq. by rewrite <- app_assoc.
Qed.

Lemma walk_slots_sim h :
  match h with O => True | S h' => walk_simulates t NLEVELS examine h' end →
  walk_simulates t NLEVELS examine h.
Proof.
  intros Hsub L b m k. revert m.
  induction k as [|k IH]; intros m bs ms Hmk Hk Hfits Hbs Hms; [lia|].
  destruct (walk_slot_sim h L b m bs ms Hsub) as
    (n & bs1 & ms1 & Hn & Hbs1 & Hms1 & Hagb & Hagm & Hrun); try done; [lia|].
  destruct k as [|k].
  { exists n, bs1, ms1. repeat split; try done; [lia|].
    intros fuel out. rewrite Hrun. simpl. rewrite app_nil_r.
    replace (nchildren t - 1) with m by lia. done. }
  destruct (IH (S m) bs1 ms1) as
    (n2 & bs2 & ms2 & Hn2 & Hbs2 & Hms2 & Hagb2 & Hagm2 & Hrun2);
    try done; try lia.
  exists (n2 + n), bs2, ms2. repeat split; try done.
  - lia.
  - intros i Hi. by rewrite Hagb2, Hagb.
  - intros i Hi. by rewrite Hagm2, Hagm.
  - intros fuel out.
    replace (n2 + n + fuel) with (n + (n2 + fuel)) by lia.
    rewrite Hrun, walk_advance_from_next by lia.
    rewrite Hrun2. rewrite <- app_assoc. done.
Qed.

Lemma walk_simulates_all h : walk_simulates t NLEVELS examine h.
Proof.
  induction h as [|h IH]; apply walk_slots_sim; done.
Qed.

(** A walk that fits delivers what the recursive descent delivers. *)
Lemma walk_loop_correct h start fuel :
  walk_fits t NLEVELS examine h 0 start →
  walk_bound (nchildren t) h ≤ fuel →
  ∀ out,
  walk_loop t NLEVELS examine fuel (walk_init NLEVELS start) out
  = Done (out ++ walk_rec t examine h 0 start).
Proof.
  intros Hfits Hfuel out.
  destruct (walk_simulates_all h 0 start 0 (nchildren t)
              (replicate NLEVELS 0) (replicate NLEVELS 0))
    as (n & bs' & ms' & Hn & _ & _ & _ & _ & Hrun);
    [lia | apply nchildren_pos | done | by rewrite length_replicate
    | by rewrite length_replicate |].
  rewrite walk_bound_slot in Hfuel.
  replace fuel with (n + (fuel - n)) by lia.
  unfold walk_init. rewrite Hrun, walk_advance_from_done.
  rewrite walk_rec_eq. by destruct (fuel - n).
Qed.

End WalkTheory.

(** ** Well-formed trees *)

Lemma check_links_sound (t : Tree) : check_links t = true → wf_links t.
Proof.
  unfold check_links. rewrite !andb_true_iff.
  intros [[[Hn Hr] Hp] Hb].
  apply Nat.ltb_lt in Hn. apply Nat.eqb_eq in Hr, Hp.
  rewrite forallb_forall in Hb.
  split; try done.
  - intros b m Hbn Hm Hc.
    assert (Hin : In b (seq 0 (nboxes t))) by (apply in_seq; lia).
    apply Hb, andb_true_iff in Hin as [Hch _].
    rewrite forallb_forall in Hch.
    assert (Hinm : In m (seq 0 (nchildren t))) by (apply in_seq; lia).
    apply Hch in Hinm. unfold check_child in Hinm.
    apply Nat.eqb_neq in Hc. rewrite Hc in Hinm. simpl in Hinm.
    rewrite !andb_true_iff in Hinm.
    destruct Hinm as [[[H1 H2] H3] H4].
    apply Nat.ltb_lt in H1, H3. apply Nat.eqb_eq in H2, H4. done.
  - intros b [Hb0 Hbn].
    assert (Hin : In b (seq 0 (nboxes t))) by (apply in_seq; lia).
    apply Hb, andb_true_iff in Hin as [_ Hpa].
    unfold check_parent in Hpa.
    destruct (b =? 0) eqn:E; [apply Nat.eqb_eq in E; lia|]. simpl in Hpa.
    apply andb_true_iff in Hpa as [H1 H2]. apply Nat.ltb_lt in H1.
    split; [done|]. apply existsb_exists in H2 as (m & Hm & Hm2).
    exists m. apply in_seq in Hm. apply Nat.eqb_eq in Hm2. split; [lia|done].
Qed.

Lemma check_geometry_sound (t : Tree) :
  check_geometry t = true → wf_geometry t.
Proof.
  unfold check_geometry, check_centers. rewrite !andb_true_iff.
  intros [[Hl Hx] Hb].
  apply Nat.leb_le in Hl. apply Qle_bool_iff in Hx.
  rewrite forallb_forall in Hb.
  split; try done.
  intros b m i Hbn Hm Hc Hi.
  assert (Hin : In b (seq 0 (nboxes t))) by (apply in_seq; lia).
  apply Hb in Hin. rewrite forallb_forall in Hin.
  assert (Hinm : In m (seq 0 (nchildren t))) by (apply in_seq; lia).
  apply Hin in Hinm. apply Nat.eqb_neq in Hc. rewrite Hc in Hinm.
  simpl in Hinm. rewrite forallb_forall in Hinm.
  assert (Hini : In i (seq 0 (dimensions t))) by (apply in_seq; lia).
  apply Hinm in Hini. unfold check_child_center in Hini.
  rewrite orb_true_iff, !Qeq_bool_iff in Hini. apply Hini.
Qed.

Lemma check_tree_sound (t : Tree) : check_tree t = true → wf_tree t.
Proof.
  unfold check_tree. intros [H1 H2]%andb_true_iff.
  split; [by apply check_links_sound | by apply check_geometry_sound].
Qed.

(** ** Levels, parents and ancestors in a linked tree *)

Section Links.
Variable t : Tree.
Hypothesis Hwf : wf_links t.

Lemma parent_of_box (b : nat) :
  0 < b < nboxes t →
  box_parent t b < nboxes t ∧ box_level t b = S (box_level t (box_parent t b)).
Proof.
  intros Hb. destruct (wf_parent t Hwf b Hb) as (Hp & m & Hm & Hc).
  split; [done|].
  destruct (wf_child t Hwf (box_parent t b) m Hp Hm) as (_ & Hl & _);
    [rewrite Hc; lia|]. by rewrite Hc in Hl.
Qed.

Lemma level_lt_nlevels (b : nat) :
  0 < b < nboxes t → box_level t b < nlevels t.
Proof.
  intros Hb. destruct (wf_parent t Hwf b Hb) as (Hp & m & Hm & Hc).
  destruct (wf_child t Hwf (box_parent t b) m Hp Hm) as (_ & _ & Hl & _);
    [rewrite Hc; lia|]. by rewrite Hc in Hl.
Qed.

Lemma level_0_root (b : nat) : b < nboxes t → box_level t b = 0 → b = 0.
Proof.
  intros Hb Hl. destruct (decide (b = 0)) as [|Hne]; [done|].
  destruct (parent_of_box b) as [_ H]; lia.
Qed.

Lemma child_is_box (b m : nat) :
  b < nboxes t → m < nchildren t → box_child t m b ≠ 0 →
  0 < box_child t m b < nboxes t.
Proof.
  intros Hb Hm Hc. destruct (wf_child t Hwf b m Hb Hm Hc) as (H & _). lia.
Qed.

Lemma ancestor_S (k b : nat) :
  ancestor t (S k) b = box_parent t (ancestor t k b).
Proof. done. Qed.

Lemma ancestor_lt (k b : nat) : b < nboxes t → ancestor t k b < nboxes t.
Proof.
  intros Hb. induction k as [|k IH]; [done|]. rewrite ancestor_S.
  destruct (decide (ancestor t k b = 0)) as [->|Hne].
  - rewrite (wf_root_parent t Hwf). apply (wf_nboxes t Hwf).
  - apply parent_of_box. lia.
Qed.

Lemma ancestor_level (k b : nat) :
  b < nboxes t → box_level t (ancestor t k b) = box_level t b - k.
Proof.
  intros Hb. induction k as [|k IH]; [simpl; lia|]. rewrite ancestor_S.
  assert (Hk := ancestor_lt k b Hb).
  destruct (decide (ancestor t k b = 0)) as [E|Hne].
  - rewrite E in *. rewrite (wf_root_parent t Hwf).
    rewrite (wf_root_level t Hwf) in *. lia.
  - destruct (parent_of_box (ancestor t k b)) as [_ H]; lia.
Qed.

Lemma ancestor_root (k b : nat) :
  b < nboxes t → box_level t b ≤ k → ancestor t k b = 0.
Proof.
  intros Hb Hk. apply level_0_root; [by apply ancestor_lt|].
  rewrite ancestor_level by done. lia.
Qed.

Lemma box_level_le (b : nat) : b < nboxes t → box_level t b ≤ nlevels t - 1 ∨ b = 0.
Proof.
  intros Hb. destruct (decide (b = 0)); [by right|left].
  assert (box_level t b < nlevels t) by (apply level_lt_nlevels; lia). lia.
Qed.

(** Every descent from a box of the tree fits into a stack of [nlevels]
    slots, whatever the kernel does with the boxes it meets. *)
Lemma walk_fits_levels NLEVELS examine (h L b : nat) :
  nlevels t ≤ NLEVELS → b < nboxes t → L ≤ box_level t b →
  nlevels t ≤ box_level t b + S h →
  walk_fits t NLEVELS examine h L b.
Proof.
  intros HN. revert L b. induction h as [|h IH]; intros L b Hb HL Hh.
  - simpl. intros m Hm Hc _.
    destruct (wf_child t Hwf b m Hb Hm Hc) as (_ & H1 & H2 & _). lia.
  - simpl. intros m Hm Hc _.
    destruct (wf_child t Hwf b m Hb Hm Hc) as (H0 & H1 & H2 & _).
    split; [lia|]. apply IH; lia.
Qed.

End Links.

(** ** Colleagues *)

Section Colleagues.
Variable t : Tree.
Hypothesis Hwf : wf_links t.
Variable A : nat.

Let ex := colleagues_examine t A (load_center t A) (box_level t A).

Lemma elem_of_walk_rec examine (h L b x : nat) :
  x ∈ walk_rec t examine h L b ↔
  ∃ m, m < nchildren t ∧ box_child t m b ≠ 0 ∧
    (x ∈ (examine L (box_child t m b)).1
     ∨ (examine L (box_child t m b)).2 = true
       ∧ ∃ h', h = S h' ∧ x ∈ walk_rec t examine h' (S L) (box_child t m b)).
Proof.
  rewrite walk_rec_eq, list_elem_of_bind. unfold walk_slot. split.
  - intros (m & Hx & Hm). apply elem_of_seq in Hm. exists m.
    destruct (box_child t m b =? 0) eqn:E; [by apply elem_of_nil in Hx|].
    apply Nat.eqb_neq in E. split; [lia|]. split; [done|].
    apply elem_of_app in Hx as [Hx|Hx]; [by left|right].
    destruct (examine L (box_child t m b)).2; [|by apply elem_of_nil in Hx].
    split; [done|]. destruct h as [|h']; [by apply elem_of_nil in Hx|].
    by exists h'.
  - intros (m & Hm & Hc & Hx). exists m. split; [|apply elem_of_seq; lia].
    apply Nat.eqb_neq in Hc. rewrite Hc. apply elem_of_app.
    destruct Hx as [Hx|(Hd & h' & -> & Hx)]; [by left|right].
    by rewrite Hd.
Qed.

(** What the descent finds below [b] are boxes of the level of [A], other
    than [A], adjacent to [A], reached from [b] through boxes adjacent to
    [A]. *)
Lemma colleagues_rec_sound (h L b x : nat) :
  b < nboxes t → box_level t b = L →
  x ∈ walk_rec t ex h L b →
  x < nboxes t ∧ x ≠ A ∧
  ∃ k, 1 ≤ k ∧ box_level t A = L + k ∧ box_level t x = L + k
       ∧ ancestor t k x = b
       ∧ ∀ j, j < k → adjacent t A (ancestor t j x) = true.
Proof.
  revert L b. induction h as [|h IH]; intros L b Hb HL;
    rewrite elem_of_walk_rec; intros (m & Hm & Hc & Hx);
    destruct (wf_child t Hwf b m Hb Hm Hc) as (Hcn & Hcl & _ & Hcp);
    unfold ex, colleagues_examine in Hx;
    fold (adjacent t A (box_child t m b)) in Hx;
    destruct (adjacent t A (box_child t m b)) eqn:Hadj;
    try (destruct Hx as [Hx|[? _]]; [by apply elem_of_nil in Hx|done]).
  - destruct ((L + 1 =? box_level t A) && negb (box_child t m b =? A)) eqn:E;
      simpl in Hx.
    + apply andb_true_iff in E as [E1 E2]. apply Nat.eqb_eq in E1.
      apply negb_true_iff, Nat.eqb_neq in E2.
      destruct Hx as [Hx|[? _]]; [|done]. apply list_elem_of_singleton in Hx as ->.
      split; [done|]. split; [done|]. exists 1.
      repeat split; try lia; [done|].
      intros j Hj. replace j with 0 by lia. done.
    + destruct Hx as [Hx|(_ & h' & ? & _)]; [by apply elem_of_nil in Hx|done].
  - destruct ((L + 1 =? box_level t A) && negb (box_child t m b =? A)) eqn:E;
      simpl in Hx.
    + apply andb_true_iff in E as [E1 E2]. apply Nat.eqb_eq in E1.
      apply negb_true_iff, Nat.eqb_neq in E2.
      destruct Hx as [Hx|[? _]]; [|done]. apply list_elem_of_singleton in Hx as ->.
      split; [done|]. split; [done|]. exists 1.
      repeat split; try lia; [done|].
      intros j Hj. replace j with 0 by lia. done.
    + destruct Hx as [Hx|(_ & h' & [= <-] & Hx)]; [by apply elem_of_nil in Hx|].
      apply IH in Hx as (Hxn & HxA & k & Hk & HlA & Hlx & Hanc & Hadjs);
        [|done|lia].
      split; [done|]. split; [done|]. exists (S k).
      repeat split; try lia.
      * by rewrite ancestor_S, Hanc.
      * intros j Hj. destruct (decide (j = k)) as [->|]; [by rewrite Hanc|].
        apply Hadjs. lia.
Qed.

Lemma colleagues_rec_complete (k h L b x : nat) :
  b < nboxes t → box_level t b = L → x < nboxes t → x ≠ A →
  1 ≤ k → k ≤ S h → box_level t A = L + k → box_level t x = L + k →
  ancestor t k x = b →
  (∀ j, j < k → adjacent t A (ancestor t j x) = true) →
  x ∈ walk_rec t ex h L b.
Proof.
  revert h L b. induction k as [|k IH]; intros h L b Hb HL Hx HxA Hk Hkh HlA Hlx Hanc Hadj;
    [lia|].
  assert (Hkadj := Hadj k ltac:(lia)).
  remember (ancestor t k x) as c eqn:Ec.
  assert (Hc : c < nboxes t) by (subst c; by apply ancestor_lt).
  assert (Hcl : box_level t c = L + 1)
    by (subst c; rewrite ancestor_level by done; lia).
  assert (Hc0 : 0 < c).
  { destruct (decide (c = 0)) as [E|]; [|lia].
    rewrite E, (wf_root_level t Hwf) in Hcl. lia. }
  destruct (wf_parent t Hwf c) as (_ & m & Hm & Hmc); [lia|].
  rewrite ancestor_S, <- Ec in Hanc. rewrite Hanc in Hmc.
  apply elem_of_walk_rec. exists m. split; [done|]. split; [lia|].
  rewrite Hmc. unfold ex, colleagues_examine.
  change (is_adjacent_or_overlapping t (load_center t A) (box_level t A) c)
    with (adjacent t A c). rewrite Hkadj.
  destruct (decide (k = 0)) as [->|Hk0].
  - left. simpl in Ec. subst c.
    assert ((L + 1 =? box_level t A) = true) as -> by (apply Nat.eqb_eq; lia).
    assert ((x =? A) = false) as -> by by apply Nat.eqb_neq.
    simpl. by apply list_elem_of_singleton.
  - right.
    assert ((L + 1 =? box_level t A) = false) as -> by (apply Nat.eqb_neq; lia).
    simpl. split; [done|]. destruct h as [|h']; [lia|]. exists h'.
    split; [done|]. apply IH; try done; try lia.
    intros j Hj. apply Hadj. lia.
Qed.

End Colleagues.

(** ** Geometry of a well-formed tree *)

Lemma Qdiv2 (x : Q) : (x / 2 == (1 # 2) * x)%Q.
Proof. unfold Qdiv. change (/ 2)%Q with (1 # 2)%Q. ring. Qed.

Lemma slack_parent_coarser (a b : Q) :
  (0.5 * (a + b) + 0.5 * a + b / 2 <= 0.5 * (a + 2 * b) + 0.5 * a)%Q.
Proof. rewrite Qdiv2. lra. Qed.

Lemma slack_parent_finer (a b : Q) :
  (0 <= b)%Q →
  (0.5 * (a + b) + 0.5 * b + b / 2 <= 0.5 * (a + 2 * b) + 0.5 * (2 * b))%Q.
Proof. intros. rewrite Qdiv2. lra. Qed.

Lemma slack_nonneg (a : Q) :
  (0 <= a)%Q → (0 <= 0.5 * (a + a) + 0.5 * a)%Q.
Proof. intros. lra. Qed.

Lemma Qabs_shift (c y p s half s' : Q) :
  (y == p + half)%Q ∨ (y == p - half)%Q →
  (0 <= half)%Q → (Qabs (c - y) <= s)%Q → (s + half <= s')%Q →
  (Qabs (c - p) <= s')%Q.
Proof.
  intros Hy Hh H Hs. apply Qabs_Qle_condition in H. apply Qabs_Qle_condition.
  destruct Hy as [Hy|Hy]; rewrite Hy in H; split; lra.
Qed.

Section Geometry.
Variable t : Tree.
Hypothesis Hwf : wf_tree t.

Let Hlinks : wf_links t := proj1 Hwf.
Let Hgeo : wf_geometry t := proj2 Hwf.

Lemma box_level_le_30 (b : nat) : b < nboxes t → box_level t b ≤ 30.
Proof.
  intros Hb. assert (Hn := wf_nlevels t Hgeo).
  destruct (box_level_le t Hlinks b Hb) as [H|H]; [lia|].
  rewrite H, (wf_root_level t Hlinks). lia.
Qed.

Lemma LEVEL_TO_SIZE_nonneg (l : nat) : l ≤ 30 → (0 <= LEVEL_TO_SIZE t l)%Q.
Proof.
  intros Hl. rewrite LEVEL_TO_SIZE_small by done.
  apply spec_size_nonneg, (wf_extent t Hgeo).
Qed.

Lemma LEVEL_TO_SIZE_halves (l : nat) :
  S l ≤ 30 → (LEVEL_TO_SIZE t l == 2 * LEVEL_TO_SIZE t (S l))%Q.
Proof.
  intros Hl. rewrite !LEVEL_TO_SIZE_small by lia. apply spec_size_halves.
Qed.

(** A box that is adjacent to [y] is adjacent to the parent of [y]. *)
Lemma is_adjacent_or_overlapping_parent (c : list Q) (l y : nat) :
  l ≤ 30 → 0 < y < nboxes t →
  is_adjacent_or_overlapping t c l y = true →
  is_adjacent_or_overlapping t c l (box_parent t y) = true.
Proof.
  intros Hl Hy. rewrite !is_adjacent_or_overlapping_iff.
  destruct (wf_parent t Hlinks y Hy) as (Hp & m & Hm & Hmy).
  destruct (parent_of_box t Hlinks y Hy) as (_ & Hlev).
  assert (Hy30 := box_level_le_30 y ltac:(lia)).
  set (P := box_parent t y) in *.
  assert (HSl := LEVEL_TO_SIZE_nonneg l Hl).
  assert (HSy := LEVEL_TO_SIZE_nonneg (box_level t y) Hy30).
  assert (HSP : (LEVEL_TO_SIZE t (box_level t P)
                 == 2 * LEVEL_TO_SIZE t (box_level t y))%Q)
    by (rewrite Hlev; apply LEVEL_TO_SIZE_halves; lia).
  assert (Hslack : (slack_of t l (box_level t y)
                    + LEVEL_TO_SIZE t (box_level t y) / 2
                    <= slack_of t l (box_level t P))%Q).
  { unfold slack_of. destruct (le_lt_dec (box_level t y) l) as [Hle|Hlt].
    - rewrite !Nat.max_l by lia. rewrite HSP. apply slack_parent_coarser.
    - rewrite !Nat.max_r by lia. rewrite HSP. by apply slack_parent_finer. }
  assert (Hhalf : (0 <= LEVEL_TO_SIZE t (box_level t y) / 2)%Q).
  { rewrite Qdiv2. apply Qmult_le_0_compat; [done|apply HSy]. }
  intros [H0 H]. split.
  - eapply Qle_trans; [|apply Hslack].
    rewrite <- (Qplus_0_r 0). by apply Qplus_le_compat.
  - intros i Hi. specialize (H i Hi).
    assert (Hc := wf_center t Hgeo P m i Hp Hm ltac:(rewrite Hmy; lia) Hi).
    rewrite Hmy in Hc. unfold child_center_ok in Hc.
    by eapply Qabs_shift.
Qed.

Lemma adjacent_ancestor (A x j : nat) :
  A < nboxes t → x < nboxes t →
  adjacent t A x = true → adjacent t A (ancestor t j x) = true.
Proof.
  intros HA Hx Hadj. induction j as [|j IH]; [done|].
  rewrite ancestor_S.
  assert (Hj := ancestor_lt t Hlinks j x Hx).
  destruct (decide (ancestor t j x = 0)) as [E|Hne].
  - rewrite E in *. by rewrite (wf_root_parent t Hlinks).
  - apply is_adjacent_or_overlapping_parent; [by apply box_level_le_30|lia|done].
Qed.

(** Every box overlaps itself. *)
Lemma adjacent_refl (A : nat) : A < nboxes t → adjacent t A A = true.
Proof.
  intros HA. unfold adjacent. apply is_adjacent_or_overlapping_iff.
  assert (H30 := box_level_le_30 A HA).
  assert (HS := LEVEL_TO_SIZE_nonneg _ H30).
  assert (H0 : (0 <= slack_of t (box_level t A) (box_level t A))%Q).
  { unfold slack_of. rewrite Nat.max_id.
    by apply (slack_nonneg (LEVEL_TO_SIZE t (box_level t A))). }
  split; [done|]. intros i Hi.
  by rewrite (Qabs_wd _ 0) by ring.
Qed.

(** The colleagues of [A]: the other boxes of its level that are adjacent
    to it. *)
Lemma colleagues_of_iff (A x : nat) :
  A < nboxes t →
  x ∈ colleagues_of t A ↔
  x < nboxes t ∧ x ≠ A ∧ box_level t x = box_level t A
  ∧ adjacent t A x = true.
Proof.
  intros HA. unfold colleagues_of. split.
  - destruct (A =? 0) eqn:E; [intros H; by apply elem_of_nil in H|].
    intros H. apply (colleagues_rec_sound t Hlinks) in H
      as (Hx & HxA & k & Hk & HlA & Hlx & _ & Hadj);
      [|apply (wf_nboxes t Hlinks)|apply (wf_root_level t Hlinks)].
    repeat split; try done; [lia|]. apply (Hadj 0). lia.
  - intros (Hx & HxA & Hlev & Hadj).
    destruct (A =? 0) eqn:E.
    { apply Nat.eqb_eq in E. subst A.
      rewrite (wf_root_level t Hlinks) in Hlev.
      apply (level_0_root t Hlinks) in Hlev; done. }
    apply Nat.eqb_neq in E.
    assert (HlA : 0 < box_level t A < nlevels t).
    { split; [|apply (level_lt_nlevels t Hlinks); lia].
      destruct (box_level t A) eqn:El; [|lia].
      apply (level_0_root t Hlinks) in El; done. }
    apply (colleagues_rec_complete t Hlinks A (box_level t A));
      try first [ done | lia | apply (wf_nboxes t Hlinks)
            | apply (wf_root_level t Hlinks)
            | intros j _; by apply adjacent_ancestor ].
    apply (ancestor_root t Hlinks); [done|lia].
Qed.

End Geometry.

(** The colleagues kernel delivers the colleagues. *)
Lemma colleagues_generate_correct (t : Tree) (NLEVELS fuel A : nat) :
  wf_links t → nlevels t ≤ NLEVELS →
  walk_bound (nchildren t) (nlevels t - 1) ≤ fuel →
  colleagues_generate t NLEVELS fuel A = Done (colleagues_of t A).
Proof.
  intros Hwf HN Hfuel. unfold colleagues_generate, colleagues_of.
  destruct (A =? 0); [done|].
  rewrite (walk_loop_correct t NLEVELS _ (nlevels t - 1)); try done.
  apply walk_fits_levels; try done.
  - apply (wf_nboxes t Hwf).
  - lia.
  - lia.
Qed.

(** ** Colleagues: the claims *)

(** C6.  In a tree whose levels, parents and children are linked, the
    colleagues kernel returns for every box [A], and every box it appends
    has the level of [A] and is not [A]; for the root it appends nothing. *)
Theorem colleagues_level_and_self (t : Tree) (NLEVELS fuel : nat) :
  wf_links t → nlevels t ≤ NLEVELS →
  walk_bound (nchildren t) (nlevels t - 1) ≤ fuel →
  (∀ A, A < nboxes t →
     ∃ l, colleagues_generate t NLEVELS fuel A = Done l
          ∧ ∀ B, B ∈ l → box_level t B = box_level t A ∧ B ≠ A)
  ∧ colleagues_generate t NLEVELS fuel 0 = Done [].
Proof.
  intros Hwf HN Hfuel. split; [|done].
  intros A HA. exists (colleagues_of t A).
  split; [by apply colleagues_generate_correct|].
  intros B HB. unfold colleagues_of in HB.
  destruct (A =? 0); [by apply elem_of_nil in HB|].
  apply (colleagues_rec_sound t Hwf) in HB
    as (_ & HBA & k & _ & HlA & HlB & _);
    [|apply (wf_nboxes t Hwf)|apply (wf_root_level t Hwf)].
  split; [lia|done].
Qed.

Lemma colleagues_level_and_self_witness :
  (∀ A, A < nboxes refined_quadrant →
     ∃ l, colleagues_generate refined_quadrant 10 84 A = Done l
          ∧ ∀ B, B ∈ l →
              box_level refined_quadrant B = box_level refined_quadrant A
              ∧ B ≠ A)
  ∧ colleagues_generate refined_quadrant 10 84 0 = Done [].
Proof.
  apply (colleagues_level_and_self refined_quadrant 10 84).
  - apply check_links_sound. vm_compute. reflexivity.
  - vm_compute. lia.
  - vm_compute. lia.
Defined.

(** With exact coordinates, on a well-formed tree of at most 31 levels whose
    child centers are exactly half a child's side from the parent's
    ([wf_tree]): [B] is among the colleagues the kernel finds for [A] iff
    [A] is among those it finds for [B], and the adjacency test gives the
    same answer for ([A], [B]) and ([B], [A]).  Nothing is said here of a
    kernel that rounds, nor of deeper trees. *)
Theorem colleagues_symmetric (t : Tree) (NLEVELS fuel A B : nat) :
  wf_tree t → nlevels t ≤ NLEVELS →
  walk_bound (nchildren t) (nlevels t - 1) ≤ fuel →
  A < nboxes t → B < nboxes t →
  adjacent t A B = adjacent t B A
  ∧ ∃ lA lB,
      colleagues_generate t NLEVELS fuel A = Done lA
      ∧ colleagues_generate t NLEVELS fuel B = Done lB
      ∧ (B ∈ lA ↔ A ∈ lB).
Proof.
  intros Hwf HN Hfuel HA HB. split; [apply adjacent_sym|].
  exists (colleagues_of t A), (colleagues_of t B).
  split; [apply colleagues_generate_correct; try done; apply Hwf|].
  split; [apply colleagues_generate_correct; try done; apply Hwf|].
  rewrite !colleagues_of_iff by done.
  rewrite (adjacent_sym t A B). intuition.
Qed.

Lemma colleagues_symmetric_witness :
  adjacent refined_quadrant 5 6 = adjacent refined_quadrant 6 5
  ∧ ∃ lA lB,
      colleagues_generate refined_quadrant 10 84 5 = Done lA
      ∧ colleagues_generate refined_quadrant 10 84 6 = Done lB
      ∧ (6 ∈ lA ↔ 5 ∈ lB).
Proof.
  apply (colleagues_symmetric refined_quadrant 10 84 5 6).
  - apply check_tree_sound. vm_compute. reflexivity.
  - vm_compute. lia.
  - vm_compute. lia.
  - vm_compute. lia.
  - vm_compute. lia.
Defined.

(** ** Lists of lists: offsets and slices *)

Lemma run_keys_Done {A} (generate : nat → kres (list A)) (f : nat → list A)
    (first n : nat) :
  (∀ k, first ≤ k < first + n → generate k = Done (f k)) →
  run_keys generate first n = Done (f <$> seq first n).
Proof.
  revert first. induction n as [|n IH]; intros first H; [done|].
  simpl. rewrite H by lia. simpl. rewrite IH; [done|].
  intros k Hk. apply H. lia.
Qed.

Lemma starts_from_head (off : nat) (pk : list (list nat)) :
  starts_from off pk !!! 0 = off.
Proof. by destruct pk. Qed.

Lemma lookup_total_middle (pre l post : list nat) :
  (λ i, (pre ++ l ++ post) !!! i) <$> seq (length pre) (length l) = l.
Proof.
  revert pre. induction l as [|x l IH]; intros pre; [done|]. simpl.
  f_equal.
  - by rewrite list_lookup_total_middle.
  - specialize (IH (pre ++ [x])). rewrite length_app in IH. simpl in IH.
    rewrite Nat.add_1_r in IH. etrans; [|apply IH].
    apply list_fmap_ext. intros _ i _. by rewrite <- app_assoc.
Qed.

Lemma csr_slice_from (pre : list nat) (pk : list (list nat)) (k : nat) :
  k < length pk →
  csr_slice (starts_from (length pre) pk) (pre ++ concat pk) k = pk !!! k.
Proof.
  unfold csr_slice, index_range. rewrite Nat.add_1_r.
  revert pre k. induction pk as [|l pk IH]; intros pre k Hk; [simpl in Hk; lia|].
  destruct k as [|k]; simpl.
  - rewrite starts_from_head.
    replace (length pre + length l - length pre) with (length l) by lia.
    apply lookup_total_middle.
  - specialize (IH (pre ++ l) k). rewrite length_app, <- app_assoc in IH.
    apply IH. simpl in Hk. lia.
Qed.

Lemma csr_slice_correct (pk : list (list nat)) (k : nat) :
  k < length pk →
  csr_slice (starts_from 0 pk) (concat pk) k = pk !!! k.
Proof. apply (csr_slice_from [] pk k). Qed.

(** In a linked tree the colleagues builder stores the colleagues of every
    box. *)
Lemma colleagues_table_correct (t : Tree) (NLEVELS fuel : nat) :
  wf_links t → nlevels t ≤ NLEVELS →
  walk_bound (nchildren t) (nlevels t - 1) ≤ fuel →
  ∃ starts lists,
    colleagues_table t NLEVELS fuel = Done (starts, lists)
    ∧ ∀ b, b < nboxes t → csr_slice starts lists b = colleagues_of t b.
Proof.
  intros Hwf HN Hfuel. unfold colleagues_table.
  rewrite (run_keys_Done _ (colleagues_of t)).
  2:{ intros k _. by apply colleagues_generate_correct. }
  simpl. eexists _, _. split; [done|].
  intros b Hb. rewrite csr_slice_correct by (by rewrite length_fmap, length_seq).
  rewrite (list_lookup_total_fmap (colleagues_of t)) by (by rewrite length_seq).
  by rewrite lookup_total_seq_lt.
Qed.

(** ** Well-separated siblings ("list 2") *)

Lemma elem_of_sep_siblings (t : Tree) (starts lists : list nat) (B x : nat) :
  x ∈ sep_siblings_generate t starts lists B ↔
  box_parent t B ≠ B
  ∧ ∃ P m, P ∈ csr_slice starts lists (box_parent t B)
           ∧ m < nchildren t ∧ box_child t m P = x
           ∧ adjacent t B x = false.
Proof.
  unfold sep_siblings_generate, csr_slice, adjacent.
  destruct (box_parent t B =? B) eqn:E.
  { apply Nat.eqb_eq in E. split; [intros H; by apply elem_of_nil in H|].
    by intros [H _]. }
  apply Nat.eqb_neq in E. rewrite list_elem_of_bind. split.
  - intros (i & Hx & Hi). split; [done|].
    apply list_elem_of_bind in Hx as (m & Hx & Hm).
    apply elem_of_seq in Hm.
    destruct (is_adjacent_or_overlapping t (load_center t B) (box_level t B)
                (box_child t m (lists !!! i))) eqn:Ha; simpl in Hx;
      [by apply elem_of_nil in Hx|].
    apply list_elem_of_singleton in Hx. subst x.
    exists (lists !!! i), m. repeat split; try done; [|lia].
    apply list_elem_of_fmap. by exists i.
  - intros (_ & P & m & HP & Hm & Hc & Ha).
    apply list_elem_of_fmap in HP as (i & -> & Hi).
    exists i. split; [|done]. apply list_elem_of_bind. exists m.
    split; [|apply elem_of_seq; lia].
    rewrite Hc, Ha. simpl. by apply list_elem_of_singleton.
Qed.

Lemma Qabs_siblings (b x p s : Q) :
  (b == p + s / 2)%Q ∨ (b == p - s / 2)%Q →
  (x == p + s / 2)%Q ∨ (x == p - s / 2)%Q →
  (0 <= s)%Q →
  (Qabs (b - x) <= 0.5 * (s + s) + 0.5 * s)%Q.
Proof.
  intros Hb Hx Hs. apply Qabs_Qle_condition.
  rewrite Qdiv2 in Hb, Hx.
  destruct Hb as [Hb|Hb], Hx as [Hx|Hx]; rewrite Hb, Hx; split; lra.
Qed.

Section ListTwo.
Variable t : Tree.
Hypothesis Hwf : wf_tree t.

Let Hlinks : wf_links t := proj1 Hwf.
Let Hgeo : wf_geometry t := proj2 Hwf.

(** The children of one box are adjacent to each other. *)
Lemma siblings_adjacent (P m m' : nat) :
  P < nboxes t → m < nchildren t → m' < nchildren t →
  box_child t m P ≠ 0 → box_child t m' P ≠ 0 →
  adjacent t (box_child t m P) (box_child t m' P) = true.
Proof.
  intros HP Hm Hm' Hc Hc'.
  destruct (wf_child t Hlinks P m HP Hm Hc) as (Hcn & Hcl & _).
  destruct (wf_child t Hlinks P m' HP Hm' Hc') as (Hcn' & Hcl' & _).
  unfold adjacent. apply is_adjacent_or_overlapping_iff.
  rewrite Hcl' , Hcl. unfold slack_of. rewrite Nat.max_id.
  assert (H30 := box_level_le_30 t Hwf _ Hcn). rewrite Hcl in H30.
  assert (HS := LEVEL_TO_SIZE_nonneg t Hwf _ H30).
  split; [by apply slack_nonneg|].
  intros i Hi.
  assert (H1 := wf_center t Hgeo P m i HP Hm Hc Hi).
  assert (H2 := wf_center t Hgeo P m' i HP Hm' Hc' Hi).
  unfold child_center_ok in H1, H2. rewrite Hcl in H1. rewrite Hcl' in H2.
  by eapply Qabs_siblings.
Qed.

(** Every box is adjacent to the root. *)
Lemma root_adjacent (B : nat) : B < nboxes t → adjacent t B 0 = true.
Proof.
  intros HB.
  rewrite <- (ancestor_root t Hlinks (box_level t B) B) by done.
  apply adjacent_ancestor; try done. by apply adjacent_refl.
Qed.

End ListTwo.

(** With exact coordinates, on a well-formed tree of at most 31 levels
    ([wf_tree]): for a box [B] other than the root, list 2 of [B], computed
    from the arrays the colleagues builder stores, consists of the children
    that are not adjacent to [B] of the colleagues of the parent of [B]; the
    children of that parent itself are all adjacent to [B].  At level 31
    this fails, see below. *)
Theorem sep_siblings_characterised (t : Tree) (NLEVELS fuel B : nat) :
  wf_tree t → nlevels t ≤ NLEVELS →
  walk_bound (nchildren t) (nlevels t - 1) ≤ fuel →
  0 < B < nboxes t →
  ∃ starts lists parent_colleagues,
    colleagues_table t NLEVELS fuel = Done (starts, lists)
    ∧ colleagues_generate t NLEVELS fuel (box_parent t B)
      = Done parent_colleagues
    ∧ ∀ x, x ∈ sep_siblings_generate t starts lists B ↔
        ∃ P m, (P = box_parent t B ∨ P ∈ parent_colleagues)
               ∧ m < nchildren t ∧ box_child t m P = x ∧ x ≠ 0
               ∧ adjacent t B x = false.
Proof.
  intros Hwf HN Hfuel HB. assert (Hlinks := proj1 Hwf).
  destruct (colleagues_table_correct t NLEVELS fuel Hlinks HN Hfuel)
    as (starts & lists & Htab & Hslice).
  destruct (parent_of_box t Hlinks B HB) as (Hp & Hlev).
  exists starts, lists, (colleagues_of t (box_parent t B)).
  split; [done|]. split; [by apply colleagues_generate_correct|].
  intros x. rewrite elem_of_sep_siblings, Hslice by done. split.
  - intros (_ & P & m & HP & Hm & Hc & Ha). exists P, m.
    repeat split; try done; [by right|].
    intros ->. rewrite root_adjacent in Ha; [done|done|lia].
  - intros (P & m & [->|HP] & Hm & Hc & Hx & Ha).
    + destruct (wf_parent t Hlinks B HB) as (_ & m' & Hm' & Hc').
      rewrite <- Hc, <- Hc' in Ha at 1.
      rewrite siblings_adjacent in Ha; try done; rewrite ?Hc, ?Hc'; lia.
    + split; [intros E; rewrite E in Hlev; lia|]. by exists P, m.
Qed.

Lemma sep_siblings_characterised_witness :
  ∃ starts lists parent_colleagues,
    colleagues_table refined_quadrant 10 84 = Done (starts, lists)
    ∧ colleagues_generate refined_quadrant 10 84
        (box_parent refined_quadrant 5) = Done parent_colleagues
    ∧ ∀ x, x ∈ sep_siblings_generate refined_quadrant starts lists 5 ↔
        ∃ P m, (P = box_parent refined_quadrant 5 ∨ P ∈ parent_colleagues)
               ∧ m < nchildren refined_quadrant
               ∧ box_child refined_quadrant m P = x ∧ x ≠ 0
               ∧ adjacent refined_quadrant 5 x = false.
Proof.
  apply (sep_siblings_characterised refined_quadrant 10 84 5).
  - apply check_tree_sound. vm_compute. reflexivity.
  - vm_compute. lia.
  - vm_compute. lia.
  - vm_compute. lia.
Defined.

Lemma slack_root (r s : Q) (x : Q) :
  (0 <= s)%Q → (Qabs x <= (1 # 2) * r)%Q →
  (Qabs x <= 0.5 * (s + r * 1 / 1) + 0.5 * s)%Q.
Proof.
  intros Hs Hx. apply Qabs_Qle_condition in Hx. apply Qabs_Qle_condition.
  assert (r * 1 / 1 == r)%Q as -> by (unfold Qdiv; change (/ 1)%Q with 1%Q; ring).
  split; lra.
Qed.

(** Below level 31, a box whose center lies inside the root box passes the
    adjacency test against box 0, so list 2 skips the empty child slots. *)
Lemma adjacent_root_below_31 (t : Tree) (B : nat) :
  box_level t 0 = 0 → box_level t B ≤ 30 → (0 <= root_extent t)%Q →
  0 < dimensions t →
  (∀ i, i < dimensions t →
     (Qabs (load_center t B !!! i - load_center t 0 !!! i)
      <= (1 # 2) * root_extent t)%Q) →
  adjacent t B 0 = true.
Proof.
  intros H0 HB Hr Hd Hin. unfold adjacent.
  apply is_adjacent_or_overlapping_iff. rewrite H0.
  assert (HS : (0 <= LEVEL_TO_SIZE t (box_level t B))%Q).
  { rewrite LEVEL_TO_SIZE_small by done. by apply spec_size_nonneg. }
  assert (Hall : ∀ i, i < dimensions t →
            (Qabs (load_center t B !!! i - load_center t 0 !!! i)
             <= slack_of t (box_level t B) 0)%Q).
  { intros i Hi. unfold slack_of. rewrite Nat.max_l by lia.
    unfold LEVEL_TO_SIZE at 2. change (inject_Z (shl_int32 1 (Z.of_nat 0))) with 1%Q.
    apply slack_root; [done|by apply Hin]. }
  split; [|done].
  eapply Qle_trans; [apply Qabs_nonneg|apply (Hall 0 Hd)].
Qed.

(** C10, at a box of level 31.  In [deep_corner_tree] box 32 lies in the
    lower left corner of the root.  The only colleague of its parent, box 31,
    is a leaf; for each of its four empty child slots the kernel tests box 32
    against box 0.  With the negative size of level 31 the test fails, and
    list 2 of box 32 consists of four times box 0. *)
Theorem sep_siblings_emits_box_0_at_level_31 :
  check_links deep_corner_tree = true
  ∧ check_centers deep_corner_tree = true
  ∧ (∀ i, i < 2 →
       (Qabs (load_center deep_corner_tree 32 !!! i
              - load_center deep_corner_tree 0 !!! i)
        <= (1 # 2) * root_extent deep_corner_tree)%Q)
  ∧ adjacent deep_corner_tree 32 0 = false
  ∧ ∃ starts lists,
      colleagues_table deep_corner_tree 40 300 = Done (starts, lists)
      ∧ csr_slice starts lists (box_parent deep_corner_tree 32) = [31]
      ∧ sep_siblings_generate deep_corner_tree starts lists 32 = [0; 0; 0; 0].
Proof.
  split; [vm_compute; reflexivity|]. split; [vm_compute; reflexivity|].
  split.
  { intros i Hi. apply Qle_bool_iff.
    destruct i as [|[|i]]; [vm_compute; reflexivity..|lia]. }
  split; [vm_compute; reflexivity|].
  eexists _, _. split; [vm_compute; reflexivity|].
  split; vm_compute; reflexivity.
Qed.

(* ================================================================= *)
(** ** Lists 2 and 4 at level 31 *)

(** C1, at a box of level 31.  In [deep_face_tree] boxes 33 and 34 are of
    level 31, and box 34 lies on top of box 33: the centers agree in [x] and
    are one side of level 31 apart in [y], so the boxes share a face and
    the formula of the spec holds of them.  The parent of box 33 has the
    colleagues 31 and 32, and box 34 is a child of box 32.  With the negative
    size of level 31 the kernel's test of box 33 at box 34 fails, and list 2
    of box 33 holds box 34, a box adjacent to box 33. *)
Theorem sep_siblings_lists_adjacent_box_at_level_31 :
  check_links deep_face_tree = true
  ∧ check_centers deep_face_tree = true
  ∧ box_level deep_face_tree 33 = 31
  ∧ box_level deep_face_tree 34 = 31
  ∧ (load_center deep_face_tree 34 !!! 0%nat
     == load_center deep_face_tree 33 !!! 0%nat)%Q
  ∧ (load_center deep_face_tree 34 !!! 1%nat
     == load_center deep_face_tree 33 !!! 1%nat
        + spec_size deep_face_tree 31)%Q
  ∧ spec_adjacent_or_overlapping deep_face_tree 33 34
  ∧ adjacent deep_face_tree 33 34 = false
  ∧ ∃ starts lists,
      colleagues_table deep_face_tree 40 400 = Done (starts, lists)
      ∧ csr_slice starts lists (box_parent deep_face_tree 33) = [31; 32]
      ∧ box_child deep_face_tree 1 32 = 34
      ∧ sep_siblings_generate deep_face_tree starts lists 33 = [34].
Proof.
  split; [vm_compute; reflexivity|]. split; [vm_compute; reflexivity|].
  split; [reflexivity|]. split; [reflexivity|].
  split; [vm_compute; reflexivity|]. split; [vm_compute; reflexivity|].
  split.
  { unfold spec_adjacent_or_overlapping. apply Qle_bool_iff.
    vm_compute. reflexivity. }
  split; [vm_compute; reflexivity|].
  eexists _, _. split; [vm_compute; reflexivity|].
  split; [vm_compute; reflexivity|]. split; vm_compute; reflexivity.
Qed.

(** C4, at a box of level 31.  In [deep_face_tree] box 31, a leaf of level 30
    with sources of its own, lies to the right of box 33 of level 31: the
    centers are one and a half sides of level 31 apart in [x] and half a
    side in [y], so the boxes share a face and the formula of the spec holds
    of them.  Box 31 is a colleague of the parent of box 33.  With the
    negative size of level 31 the kernel's slack for the levels 31 and 30 is
    0, its test of box 33 at box 31 fails, and list 4 of box 33 holds box 31,
    a box adjacent to box 33. *)
Theorem sep_bigger_nonsiblings_lists_adjacent_box_at_level_31 :
  check_links deep_face_tree = true
  ∧ check_centers deep_face_tree = true
  ∧ box_level deep_face_tree 33 = 31
  ∧ box_level deep_face_tree 31 = 30
  ∧ flag_set (box_flag deep_face_tree 31) (BOX_HAS_OWN_SOURCES boxtree_flags)
    = true
  ∧ (load_center deep_face_tree 31 !!! 0%nat
     - load_center deep_face_tree 33 !!! 0%nat
     == (3 # 2) * spec_size deep_face_tree 31)%Q
  ∧ (load_center deep_face_tree 33 !!! 1%nat
     - load_center deep_face_tree 31 !!! 1%nat
     == (1 # 2) * spec_size deep_face_tree 31)%Q
  ∧ spec_adjacent_or_overlapping deep_face_tree 33 31
  ∧ (slack_of deep_face_tree 31 30 == 0)%Q
  ∧ adjacent deep_face_tree 33 31 = false
  ∧ ∃ starts lists,
      colleagues_table deep_face_tree 40 400 = Done (starts, lists)
      ∧ csr_slice starts lists (box_parent deep_face_tree 33) = [31; 32]
      ∧ sep_bigger_nonsiblings_generate boxtree_flags deep_face_tree
          starts lists 33 = [31].
Proof.
  split; [vm_compute; reflexivity|]. split; [vm_compute; reflexivity|].
  split; [reflexivity|]. split; [reflexivity|].
  split; [vm_compute; reflexivity|].
  split; [vm_compute; reflexivity|]. split; [vm_compute; reflexivity|].
  split.
  { unfold spec_adjacent_or_overlapping. apply Qle_bool_iff.
    vm_compute. reflexivity. }
  split; [vm_compute; reflexivity|].
  split; [vm_compute; reflexivity|].
  eexists _, _. split; [vm_compute; reflexivity|].
  split; vm_compute; reflexivity.
Qed.


(** ** Separated bigger non-siblings ("list 4") *)

Lemma ancestor_parent (t : Tree) (k b : nat) :
  ancestor t (S k) b = ancestor t k (box_parent t b).
Proof. unfold ancestor. apply Nat.iter_succ_r. Qed.

Lemma ancestor_add (t : Tree) (a b x : nat) :
  ancestor t (a + b) x = ancestor t a (ancestor t b x).
Proof. unfold ancestor. apply Nat.iter_add. Qed.

(** When the inner loop finds no closer parent, every ancestor of the box
    between the box and the level of the walk passed the test. *)
Lemma found_closer_parent_false (t : Tree) (cc : list Q)
    (walk_level check_walk_level cp : nat) :
  walk_level < check_walk_level →
  found_closer_parent t cc walk_level check_walk_level cp = false →
  ∀ j, 1 ≤ j < check_walk_level - walk_level →
    is_adjacent_or_overlapping t cc walk_level (ancestor t j cp) = true.
Proof.
  revert cp. induction check_walk_level as [|c IH]; intros cp Hlt Hf j Hj;
    [lia|].
  simpl in Hf. destruct (c =? walk_level) eqn:E.
  { apply Nat.eqb_eq in E. lia. }
  apply Nat.eqb_neq in E.
  destruct (is_adjacent_or_overlapping t cc walk_level (box_parent t cp))
    eqn:Ha; simpl in Hf; [|done].
  destruct j as [|[|j]]; [lia|done|].
  rewrite ancestor_parent. apply IH; [lia|done|lia].
Qed.

Lemma elem_of_sep_bigger_loop (fl : box_flags_enum) (t : Tree)
    (starts lists : list nat) (A : nat) (cA : list Q) (lA wl cp B : nat) :
  B ∈ sep_bigger_nonsiblings_loop fl t starts lists A cA lA wl cp →
  ∃ k, 1 ≤ k < wl
    ∧ B ∈ csr_slice starts lists (ancestor t k cp)
    ∧ is_adjacent_or_overlapping t cA lA B = false
    ∧ flag_set (box_flag t B) (BOX_HAS_OWN_SOURCES fl) = true
    ∧ found_closer_parent t (load_center t B) (wl - k) lA A = false.
Proof.
  revert cp. induction wl as [|wl IH]; intros cp HB; simpl in HB;
    [by apply elem_of_nil in HB|].
  destruct (wl =? 0) eqn:E; [by apply elem_of_nil in HB|].
  apply Nat.eqb_neq in E.
  apply elem_of_app in HB as [HB|HB].
  - exists 1. split; [lia|]. simpl.
    apply list_elem_of_bind in HB as (i & HB & Hi).
    destruct (is_adjacent_or_overlapping t cA lA (lists !!! i)) eqn:Ha;
      simpl in HB; [by apply elem_of_nil in HB|].
    destruct (flag_set (box_flag t (lists !!! i)) (BOX_HAS_OWN_SOURCES fl))
      eqn:Hfl; [|by apply elem_of_nil in HB].
    destruct (found_closer_parent t (load_center t (lists !!! i)) wl lA A)
      eqn:Hfc; simpl in HB; [by apply elem_of_nil in HB|].
    apply list_elem_of_singleton in HB. subst B.
    rewrite Nat.sub_0_r. repeat split; try done.
    unfold csr_slice. apply list_elem_of_fmap. by exists i.
  - apply IH in HB as (k & Hk & HB & Ha & Hfl & Hfc).
    exists (S k). split; [lia|]. rewrite ancestor_parent.
    by replace (S wl - S k) with (wl - k) by lia.
Qed.

(** With exact coordinates, on a well-formed tree of at most 31 levels
    ([wf_tree]): every box [B] of list 4 of [A], computed from the arrays
    the colleagues builder stores, is of a lower level than [A], fails the
    kernel's test of [A], has sources of its own, and is a colleague of a
    proper ancestor [P] of [A] such that the ancestors of [A] below [P] are
    adjacent to [B]; and then every proper ancestor of [A] is adjacent to
    [B].  At level 31 the kernel's test is not the adjacency of the spec, see
    above. *)
Theorem sep_bigger_nonsiblings_sound (fl : box_flags_enum) (t : Tree)
    (NLEVELS fuel A : nat) :
  wf_tree t → nlevels t ≤ NLEVELS →
  walk_bound (nchildren t) (nlevels t - 1) ≤ fuel →
  A < nboxes t →
  ∃ starts lists,
    colleagues_table t NLEVELS fuel = Done (starts, lists)
    ∧ ∀ B, B ∈ sep_bigger_nonsiblings_generate fl t starts lists A →
        box_level t B < box_level t A
        ∧ adjacent t A B = false
        ∧ flag_set (box_flag t B) (BOX_HAS_OWN_SOURCES fl) = true
        ∧ (∃ k, 1 ≤ k
             ∧ colleagues_generate t NLEVELS fuel (ancestor t k A)
               = Done (colleagues_of t (ancestor t k A))
             ∧ B ∈ colleagues_of t (ancestor t k A)
             ∧ ∀ j, 1 ≤ j < k → adjacent t (ancestor t j A) B = true)
        ∧ ∀ j, 1 ≤ j → adjacent t (ancestor t j A) B = true.
Proof.
  intros Hwf HN Hfuel HA. assert (Hlinks := proj1 Hwf).
  destruct (colleagues_table_correct t NLEVELS fuel Hlinks HN Hfuel)
    as (starts & lists & Htab & Hslice).
  exists starts, lists. split; [done|]. intros B HB.
  unfold sep_bigger_nonsiblings_generate in HB.
  apply elem_of_sep_bigger_loop in HB as (k & Hk & HB & Ha & Hfl & Hfc).
  assert (HP := ancestor_lt t Hlinks k A HA).
  rewrite Hslice in HB by done.
  apply (colleagues_of_iff t Hwf) in HB as HB'; [|done].
  destruct HB' as (HBn & HBP & HlB & HaP).
  rewrite (ancestor_level t Hlinks) in HlB by done.
  assert (Hbelow : ∀ j, 1 ≤ j < k → adjacent t (ancestor t j A) B = true).
  { intros j Hj. rewrite adjacent_sym. unfold adjacent. rewrite HlB.
    eapply found_closer_parent_false; [|apply Hfc|]; lia. }
  split; [lia|]. split; [done|]. split; [done|]. split.
  - exists k. split; [lia|].
    split; [by apply colleagues_generate_correct|]. done.
  - intros j Hj. destruct (le_lt_dec k j) as [Hkj|Hjk]; [|apply Hbelow; lia].
    replace j with ((j - k) + k) by lia. rewrite ancestor_add.
    rewrite adjacent_sym. apply adjacent_ancestor; try done.
    by rewrite adjacent_sym.
Qed.

Lemma sep_bigger_nonsiblings_sound_witness :
  ∃ starts lists,
    colleagues_table refined_quadrant 10 84 = Done (starts, lists)
    ∧ ∀ B, B ∈ sep_bigger_nonsiblings_generate boxtree_flags
               refined_quadrant starts lists 5 →
        box_level refined_quadrant B < box_level refined_quadrant 5
        ∧ adjacent refined_quadrant 5 B = false
        ∧ flag_set (box_flag refined_quadrant B)
            (BOX_HAS_OWN_SOURCES boxtree_flags) = true
        ∧ (∃ k, 1 ≤ k
             ∧ colleagues_generate refined_quadrant 10 84
                 (ancestor refined_quadrant k 5)
               = Done (colleagues_of refined_quadrant
                         (ancestor refined_quadrant k 5))
             ∧ B ∈ colleagues_of refined_quadrant
                     (ancestor refined_quadrant k 5)
             ∧ ∀ j, 1 ≤ j < k →
                 adjacent refined_quadrant (ancestor refined_quadrant j 5) B
                 = true)
        ∧ ∀ j, 1 ≤ j →
            adjacent refined_quadrant (ancestor refined_quadrant j 5) B = true.
Proof.
  apply (sep_bigger_nonsiblings_sound boxtree_flags refined_quadrant 10 84 5).
  - apply check_tree_sound. vm_compute. reflexivity.
  - vm_compute. lia.
  - vm_compute. lia.
  - vm_compute. lia.
Defined.

(** On [refined_quadrant], list 4 of box 5 is not empty. *)
Example sep_bigger_nonsiblings_refined_quadrant :
  ∃ starts lists,
    colleagues_table refined_quadrant 10 84 = Done (starts, lists)
    ∧ sep_bigger_nonsiblings_generate boxtree_flags refined_quadrant
        starts lists 5 = [2; 3; 4].
Proof.
  eexists _, _. split; [vm_compute; reflexivity|]. vm_compute. reflexivity.
Qed.

(** ** Level starts of a box list *)

Lemma check_level_starts_sound (t : Tree) :
  check_level_starts t = true → wf_level_starts t.
Proof.
  unfold check_level_starts. rewrite andb_true_iff, !forallb_forall.
  intros [H1 H2]. split.
  - intros l Hl. apply Nat.leb_le, H1, in_seq. lia.
  - intros b Hb. assert (Hin : In b (seq 0 (nboxes t))) by (apply in_seq; lia).
    apply H2 in Hin. rewrite !andb_true_iff in Hin.
    destruct Hin as [[Ha Hb'] Hc].
    apply Nat.ltb_lt in Ha, Hc. apply Nat.leb_le in Hb'. done.
Qed.

Lemma postprocess_unoccupied_spec (n p : nat) (r : list nat) :
  n ≤ length r →
  length (postprocess_unoccupied n p r) = length r
  ∧ (∀ l, n ≤ l → postprocess_unoccupied n p r !!! l = r !!! l)
  ∧ ∀ l, l < n →
      postprocess_unoccupied n p r !!! l ≤ p
      ∧ (∀ j, l ≤ j < n → postprocess_unoccupied n p r !!! l ≤ r !!! j)
      ∧ (postprocess_unoccupied n p r !!! l = p
         ∨ ∃ j, l ≤ j < n ∧ postprocess_unoccupied n p r !!! l = r !!! j)
      ∧ (∀ l', l ≤ l' < n →
           postprocess_unoccupied n p r !!! l
           ≤ postprocess_unoccupied n p r !!! l').
Proof.
  revert p r. induction n as [|m IH]; intros p r Hn; simpl.
  { split; [done|]. split; [done|]. intros l Hl. lia. }
  set (v := r !!! m `min` p).
  destruct (IH v (<[m:=v]> r)) as (Hlen & Hge & Hlt);
    [rewrite length_insert; lia|].
  rewrite length_insert in Hlen.
  assert (Hm : postprocess_unoccupied m v (<[m:=v]> r) !!! m = v).
  { rewrite Hge by lia. apply list_lookup_total_insert_eq. lia. }
  split; [done|]. split.
  { intros l Hl. rewrite Hge by lia. apply list_lookup_total_insert_ne. lia. }
  intros l Hl. destruct (decide (l = m)) as [->|Hne].
  - rewrite Hm. split; [lia|]. split.
    { intros j Hj. replace j with m by lia. lia. }
    split.
    { destruct (Nat.min_spec (r !!! m) p) as [[_ E]|[_ E]]; fold v in E.
      - right. exists m. split; [lia|done].
      - by left. }
    intros l' Hl'. replace l' with m by lia. by rewrite Hm.
  - destruct (Hlt l) as (H1 & H2 & H3 & H4); [lia|].
    split; [lia|]. split.
    { intros j Hj. destruct (decide (j = m)) as [->|Hjm]; [lia|].
      specialize (H2 j). rewrite list_lookup_total_insert_ne in H2 by lia.
      apply H2. lia. }
    split.
    { destruct H3 as [E|(j & Hj & E)].
      - rewrite E.
        destruct (Nat.min_spec (r !!! m) p) as [[_ E']|[_ E']]; fold v in E'.
        + right. exists m. split; [lia|done].
        + by left.
      - right. exists j. split; [lia|].
        rewrite E. apply list_lookup_total_insert_ne. lia. }
    intros l' Hl'. destruct (decide (l' = m)) as [->|Hlm].
    + rewrite Hm. lia.
    + apply H4. lia.
Qed.

Lemma concat_slices (L r : list nat) (n : nat) :
  r !!! 0 = 0 →
  (∀ l, l < n → r !!! l ≤ r !!! (l + 1)) →
  concat ((λ l, py_slice L (r !!! l) (r !!! (l + 1))) <$> seq 0 n)
  = take (r !!! n) L.
Proof.
  intros H0 Hmono. induction n as [|n IH]; [by rewrite H0|].
  rewrite seq_S, fmap_app, concat_app, IH by (intros; apply Hmono; lia).
  simpl. rewrite app_nil_r. unfold py_slice.
  rewrite take_take_drop. f_equal.
  specialize (Hmono n). rewrite Nat.add_1_r in *. lia.
Qed.

Section LevelStarts.
Variable t : Tree.
Variable L : list nat.
Hypothesis Hls : wf_level_starts t.
Hypothesis Hinc : ∀ i j, i < j → j < length L → L !!! i < L !!! j.
Hypothesis Hbox : ∀ i, i < length L → L !!! i < nboxes t.
Hypothesis Hroot : 0 < length L → L !!! 0 = 0.
Hypothesis Hroot_level : box_level t 0 = 0.

Local Abbreviation ls l := (level_start_box_nrs t !!! l).
Local Abbreviation lev i := (box_level t (L !!! i)).

Lemma level_starts_mono (l l' : nat) : l ≤ l' → l' ≤ nlevels t → ls l ≤ ls l'.
Proof.
  intros Hl Hl'. induction l' as [|l' IH].
  - by replace l with 0 by lia.
  - destruct (decide (l = S l')) as [->|]; [done|].
    assert (H := wf_ls_step t Hls l' ltac:(lia)).
    rewrite Nat.add_1_r in H. etrans; [apply IH; lia|done].
Qed.

Lemma box_level_mono (b b' : nat) :
  b ≤ b' → b' < nboxes t → box_level t b ≤ box_level t b'.
Proof.
  intros Hb Hb'.
  destruct (wf_ls_box t Hls b ltac:(lia)) as (H1 & H2 & H3).
  destruct (wf_ls_box t Hls b' Hb') as (H1' & H2' & H3').
  destruct (le_lt_dec (box_level t b) (box_level t b')) as [|Hlt]; [done|].
  assert (ls (box_level t b' + 1) ≤ ls (box_level t b))
    by (apply level_starts_mono; lia).
  lia.
Qed.

Lemma lev_mono (i j : nat) : i ≤ j → j < length L → lev i ≤ lev j.
Proof.
  intros Hij Hj. apply box_level_mono; [|by apply Hbox].
  destruct (decide (i = j)) as [->|]; [done|].
  assert (L !!! i < L !!! j) by (apply Hinc; lia). lia.
Qed.

(** The kernel writes at [i] iff [i] is the first index of its level. *)
Lemma extract_operation_spec (r : list nat) (i : nat) :
  1 ≤ i < length L →
  extract_level_start_box_nrs_operation t L r i
  = if decide (lev (i - 1) < lev i) then <[lev i := i]> r else r.
Proof.
  intros Hi. unfold extract_level_start_box_nrs_operation.
  destruct (wf_ls_box t Hls (L !!! i) ltac:(apply Hbox; lia)) as (H1 & H2 & H3).
  destruct (wf_ls_box t Hls (L !!! (i - 1)) ltac:(apply Hbox; lia))
    as (H1' & H2' & H3').
  assert ((ls (lev i) <=? L !!! i) = true) as -> by by apply Nat.leb_le.
  rewrite andb_true_r.
  destruct (decide (lev (i - 1) < lev i)) as [Hlt|Hge].
  - assert (ls (lev (i - 1) + 1) ≤ ls (lev i))
      by (apply level_starts_mono; lia).
    assert ((L !!! (i - 1) <? ls (lev i)) = true) as ->
      by (apply Nat.ltb_lt; lia). done.
  - assert (ls (lev i) ≤ ls (lev (i - 1)))
      by (apply level_starts_mono; lia).
    assert ((L !!! (i - 1) <? ls (lev i)) = false) as ->
      by (apply Nat.ltb_ge; lia). done.
Qed.

(** After the kernel has run over the indices [1 .. k]: an entry is either
    still the length of the list, and then no index up to [k] starts its
    level, or it is an index that starts its level. *)
Lemma extract_kernel_inv (k : nat) :
  k ≤ length L - 1 →
  let r := foldl (extract_level_start_box_nrs_operation t L)
             (replicate (nlevels t + 1) (length L)) (seq 1 k) in
  length r = nlevels t + 1
  ∧ ∀ l, l ≤ nlevels t →
      (r !!! l = length L
       ∧ ∀ i, 1 ≤ i ≤ k → lev (i - 1) < lev i → lev i ≠ l)
      ∨ (1 ≤ r !!! l ≤ k ∧ lev (r !!! l - 1) < lev (r !!! l)
         ∧ lev (r !!! l) = l).
Proof.
  induction k as [|k IH]; intros Hk.
  { simpl. split; [by rewrite length_replicate|]. intros l Hl. left.
    split; [apply lookup_total_replicate_2; lia|]. intros i Hi. lia. }
  destruct IH as (Hlen & IH); [lia|]. cbv zeta.
  rewrite seq_S, foldl_app. simpl.
  set (r := foldl (extract_level_start_box_nrs_operation t L)
              (replicate (nlevels t + 1) (length L)) (seq 1 k)) in *.
  rewrite extract_operation_spec by lia.
  destruct (wf_ls_box t Hls (L !!! S k) ltac:(apply Hbox; lia)) as (HlS & _).
  replace (S k - 1) with k by lia.
  destruct (decide (lev k < lev (S k))) as [Hfirst|Hnot].
  - split; [by rewrite length_insert|]. intros l Hl.
    destruct (decide (l = lev (S k))) as [->|Hne].
    + right. rewrite list_lookup_total_insert_eq by lia.
      replace (S k - 1) with k by lia. split; [lia|done].
    + rewrite list_lookup_total_insert_ne by done.
      destruct (IH l Hl) as [[E Hno]|(H1 & H2 & H3)].
      * left. split; [done|]. intros i Hi Hf.
        destruct (decide (i = S k)) as [->|]; [done|]. apply Hno; [lia|done].
      * right. split; [lia|done].
  - split; [done|]. intros l Hl.
    destruct (IH l Hl) as [[E Hno]|(H1 & H2 & H3)].
    + left. split; [done|]. intros i Hi Hf.
      destruct (decide (i = S k)) as [->|].
      * replace (S k - 1) with k in Hf by lia. done.
      * apply Hno; [lia|done].
    + right. split; [lia|done].
Qed.

(** If no index in [1 .. j] starts the level of [j], that level is the
    level of the first box. *)
Lemma no_start_first (j : nat) :
  j < length L →
  (∀ i, 1 ≤ i ≤ j → lev (i - 1) < lev i → lev i ≠ lev j) →
  lev 0 = lev j.
Proof.
  induction j as [|j IH]; intros Hj Hno; [done|].
  assert (Hle := lev_mono j (S j) ltac:(lia) Hj).
  destruct (decide (lev j < lev (S j))) as [Hlt|Hge].
  { exfalso. apply (Hno (S j)); [lia| |done].
    by replace (S j - 1) with j by lia. }
  assert (E : lev j = lev (S j)) by lia. rewrite <- E. apply IH; [lia|].
  intros i Hi Hf. rewrite E. apply Hno; [lia|done].
Qed.

Lemma extract_level_start_box_nrs_spec :
  let r := extract_level_start_box_nrs t L in
  length r = nlevels t + 1
  ∧ r !!! 0 = 0
  ∧ r !!! nlevels t = length L
  ∧ (∀ l, l < nlevels t → r !!! l ≤ r !!! (l + 1))
  ∧ (∀ l j, l ≤ nlevels t → j < length L → j < r !!! l → lev j < l)
  ∧ (∀ l j, l ≤ nlevels t → j < length L → r !!! l ≤ j → l ≤ lev j).
Proof.
  unfold extract_level_start_box_nrs.
  destruct (extract_kernel_inv (length L - 1)) as (Hlen0 & Hinv); [lia|].
  set (r0 := foldl (extract_level_start_box_nrs_operation t L)
               (replicate (nlevels t + 1) (length L))
               (seq 1 (length L - 1))) in *.
  set (r1 := <[0:=0]> r0).
  assert (Hlen1 : length r1 = nlevels t + 1)
    by (unfold r1; by rewrite length_insert).
  assert (Hr10 : r1 !!! 0 = 0)
    by (unfold r1; apply list_lookup_total_insert_eq; lia).
  assert (Hr1 : ∀ l, l ≠ 0 → r1 !!! l = r0 !!! l)
    by (intros l Hl; unfold r1; apply list_lookup_total_insert_ne; lia).
  destruct (postprocess_unoccupied_spec (nlevels t) (length L) r1)
    as (Hlen & Hge & Hlt); [lia|].
  set (r := postprocess_unoccupied (nlevels t) (length L) r1) in *.
  (* No box has level [nlevels]: that entry is never written. *)
  assert (Hlevlt : ∀ j, j < length L → lev j < nlevels t).
  { intros j Hj. by destruct (wf_ls_box t Hls (L !!! j) (Hbox j Hj)). }
  assert (Hlast : r0 !!! nlevels t = length L).
  { destruct (Hinv (nlevels t)) as [[E _]|(H1 & _ & H3)]; [lia|done|].
    specialize (Hlevlt (r0 !!! nlevels t)). lia. }
  (* An entry of [r1] at the level of a box is at most its index. *)
  assert (Hupper : ∀ j, j < length L → r1 !!! lev j ≤ j).
  { intros j Hj. destruct (decide (lev j = 0)) as [E|Hne]; [rewrite E; lia|].
    rewrite Hr1 by done. specialize (Hlevlt j Hj).
    destruct (Hinv (lev j)) as [[_ Hno]|(H1 & H2 & H3)]; [lia| |].
    - exfalso. apply Hne. rewrite <- no_start_first; [|done|].
      + rewrite Hroot by lia. done.
      + intros i Hi. apply Hno. lia.
    - destruct (le_lt_dec (r0 !!! lev j) j) as [|Hgt]; [done|].
      assert (lev j ≤ lev (r0 !!! lev j - 1)) by (apply lev_mono; lia).
      lia. }
  (* An entry of [r1] that was written is an index of its level. *)
  assert (Hlower : ∀ l j, l ≤ nlevels t → j < length L → r1 !!! l ≤ j →
            l ≤ lev j).
  { intros l j Hl Hj Hle. destruct (decide (l = 0)) as [->|Hne]; [lia|].
    rewrite Hr1 in Hle by done.
    destruct (Hinv l Hl) as [[E _]|(H1 & H2 & H3)]; [lia|].
    rewrite <- H3. apply lev_mono; lia. }
  split; [lia|]. split.
  { destruct (nlevels t) as [|n] eqn:En.
    - rewrite Hge by lia. done.
    - destruct (Hlt 0) as (_ & H & _); [lia|].
      specialize (H 0). lia. }
  assert (Hrn : r !!! nlevels t = length L).
  { rewrite Hge by lia. destruct (decide (nlevels t = 0)) as [E|Hne].
    - rewrite E, Hr10. destruct (length L) eqn:El; [done|].
      specialize (Hlevlt 0). lia.
    - by rewrite Hr1. }
  split; [done|]. split.
  { intros l Hl. rewrite Nat.add_1_r.
    destruct (decide (S l = nlevels t)) as [E|Hne].
    - rewrite E, Hrn. by destruct (Hlt l Hl).
    - destruct (Hlt l Hl) as (_ & _ & _ & H). apply H. lia. }
  split.
  - intros l j Hl Hj Hjr.
    destruct (decide (l = nlevels t)) as [->|Hne]; [by apply Hlevlt|].
    destruct (le_lt_dec l (lev j)) as [Hle|]; [|done]. exfalso.
    destruct (Hlt l) as (_ & H & _); [lia|].
    specialize (H (lev j)). specialize (Hlevlt j Hj).
    specialize (Hupper j Hj). lia.
  - intros l j Hl Hj Hrj.
    destruct (decide (l = nlevels t)) as [->|Hne]; [lia|].
    destruct (Hlt l) as (_ & _ & [E|(l' & Hl' & E)] & _); [lia|lia|].
    etrans; [|apply (Hlower l' j)]; lia.
Qed.

End LevelStarts.

Lemma emitted_source_parent_boxes_eq (fl : box_flags_enum) (t : Tree) :
  emitted_source_parent_boxes fl t
  = filter (λ b, flag_set (box_flag t b) (BOX_HAS_CHILD_SOURCES fl) = true)
           (seq 0 (nboxes t)).
Proof.
  unfold emitted_source_parent_boxes. generalize 0.
  induction (nboxes t) as [|n IH]; intros a; [done|]. simpl.
  rewrite IH, filter_cons.
  unfold sources_parents_and_targets_generate, appended_to.
  destruct (flag_set (box_flag t a) (BOX_HAS_OWN_SOURCES fl));
    destruct (flag_set (box_flag t a) (BOX_HAS_CHILD_SOURCES fl));
    destruct (sources_are_targets t);
    destruct (flag_set (box_flag t a) (BOX_HAS_OWN_TARGETS fl));
    reflexivity.
Qed.

Lemma filter_seq_bounds (P : nat → Prop) `{∀ x, Decision (P x)}
    (a n i : nat) :
  i < length (filter P (seq a n)) →
  a ≤ filter P (seq a n) !!! i < a + n ∧ P (filter P (seq a n) !!! i).
Proof.
  revert a i. induction n as [|n IH]; intros a i Hi; [simpl in Hi; lia|].
  simpl in *. rewrite filter_cons in *. destruct (decide (P a)).
  - destruct i as [|i]; simpl in *; [split; [lia|done]|].
    destruct (IH (S a) i) as [H1 H2]; [lia|]. split; [lia|done].
  - destruct (IH (S a) i Hi) as [H1 H2]. split; [lia|done].
Qed.

Lemma filter_seq_increasing (P : nat → Prop) `{∀ x, Decision (P x)}
    (a n i j : nat) :
  i < j → j < length (filter P (seq a n)) →
  filter P (seq a n) !!! i < filter P (seq a n) !!! j.
Proof.
  revert a i j. induction n as [|n IH]; intros a i j Hij Hj;
    [simpl in Hj; lia|].
  simpl in *. rewrite filter_cons in *. destruct (decide (P a)).
  - destruct j as [|j]; [lia|]. simpl in *.
    destruct i as [|i]; simpl.
    + destruct (filter_seq_bounds P (S a) n j) as [H1 _]; lia.
    + apply IH; lia.
  - by apply IH.
Qed.

Lemma filter_seq_head (P : nat → Prop) `{∀ x, Decision (P x)} (n : nat) :
  P 0 → 0 < n → filter P (seq 0 n) !!! 0 = 0.
Proof.
  intros HP Hn. destruct n as [|n]; [lia|]. simpl.
  rewrite filter_cons. by destruct (decide (P 0)).
Qed.

Lemma elem_of_py_slice (L : list nat) (a b x : nat) :
  x ∈ py_slice L a b → ∃ j, a ≤ j < b ∧ j < length L ∧ x = L !!! j.
Proof.
  unfold py_slice. intros (i & Hi & Hlt)%elem_of_take.
  rewrite lookup_drop in Hi. exists (a + i).
  split; [lia|]. split; [by eapply lookup_lt_Some|].
  symmetry. by apply list_lookup_total_correct.
Qed.

(** C7.  For the list [source_parent_boxes] as the first stage emits it,
    in a tree whose boxes are sorted by level and in which the root has
    [HAS_CHILD_SOURCES] whenever a box has it: the level starts have
    [nlevels+1] entries, begin with 0, end with the length of the list and
    do not decrease; the slice of a level holds only boxes of that level;
    and the slices of all levels, concatenated, are the list. *)
Theorem level_start_round_trip (fl : box_flags_enum) (t : Tree) :
  wf_level_starts t → box_level t 0 = 0 → source_parents_rooted fl t →
  let box_list := emitted_source_parent_boxes fl t in
  let level_start := extract_level_start_box_nrs t box_list in
  length level_start = nlevels t + 1
  ∧ level_start !!! 0 = 0
  ∧ level_start !!! nlevels t = length box_list
  ∧ (∀ l, l < nlevels t → level_start !!! l ≤ level_start !!! (l + 1))
  ∧ (∀ l b, l < nlevels t →
       b ∈ py_slice box_list (level_start !!! l) (level_start !!! (l + 1)) →
       box_level t b = l)
  ∧ concat ((λ l, py_slice box_list (level_start !!! l)
                    (level_start !!! (l + 1)))
            <$> seq 0 (nlevels t))
    = box_list.
Proof.
  intros Hls H0 Hrooted box_list level_start.
  set (P := λ b, flag_set (box_flag t b) (BOX_HAS_CHILD_SOURCES fl) = true).
  assert (HL : box_list = filter P (seq 0 (nboxes t)))
    by apply emitted_source_parent_boxes_eq.
  destruct (extract_level_start_box_nrs_spec t box_list Hls)
    as (Hlen & Hr0 & Hrn & Hmono & Hbelow & Habove); try done.
  - intros i j Hij Hj. rewrite HL in *. by apply filter_seq_increasing.
  - intros i Hi. rewrite HL in *.
    destruct (filter_seq_bounds P 0 (nboxes t) i Hi) as [H _]. lia.
  - intros Hne. rewrite HL in *.
    destruct (filter_seq_bounds P 0 (nboxes t) 0 Hne) as [Hb HP].
    apply filter_seq_head; [|lia]. apply (Hrooted _ (proj2 Hb) HP).
  - fold level_start in Hlen, Hr0, Hrn, Hmono, Hbelow, Habove.
    split; [done|]. split; [done|]. split; [done|]. split; [done|]. split.
    + intros l b Hl (j & Hj & HjL & ->)%elem_of_py_slice.
      assert (box_level t (box_list !!! j) < l + 1)
        by (apply Hbelow; [lia|done|lia]).
      assert (l ≤ box_level t (box_list !!! j))
        by (apply Habove; [lia|done|lia]).
      lia.
    + rewrite concat_slices by done. rewrite Hrn. apply take_ge. lia.
Qed.

Lemma refined_quadrant_level_starts :
  extract_level_start_box_nrs refined_quadrant
    (emitted_source_parent_boxes boxtree_flags refined_quadrant)
  = [0; 1; 2; 2].
Proof. vm_compute. reflexivity. Qed.

Lemma level_start_round_trip_witness :
  let t := refined_quadrant in
  let box_list := emitted_source_parent_boxes boxtree_flags t in
  let level_start := extract_level_start_box_nrs t box_list in
  length level_start = nlevels t + 1
  ∧ level_start !!! 0 = 0
  ∧ level_start !!! nlevels t = length box_list
  ∧ (∀ l, l < nlevels t → level_start !!! l ≤ level_start !!! (l + 1))
  ∧ (∀ l b, l < nlevels t →
       b ∈ py_slice box_list (level_start !!! l) (level_start !!! (l + 1)) →
       box_level t b = l)
  ∧ concat ((λ l, py_slice box_list (level_start !!! l)
                    (level_start !!! (l + 1)))
            <$> seq 0 (nlevels t))
    = box_list.
Proof.
  apply (level_start_round_trip boxtree_flags refined_quadrant).
  - apply check_level_starts_sound. vm_compute. reflexivity.
  - vm_compute. reflexivity.
  - intros b Hb Hf. vm_compute. reflexivity.
Defined.

(** ** Neighbor source boxes ("list 1") *)

(** A walk appends only children it found in a slot, and an empty slot holds
    0: when the kernel appends nothing but the child it examines, box 0 is
    never appended. *)
Lemma walk_loop_never_root (t : Tree) (NLEVELS : nat)
    (examine : nat → nat → list nat * bool) (fuel : nat) (w : walk)
    (out l : list nat) :
  (∀ L c x, x ∈ (examine L c).1 → x = c) →
  walk_loop t NLEVELS examine fuel w out = Done l →
  0 ∉ out → 0 ∉ l.
Proof.
  intros Hex. revert w out. induction fuel as [|fuel IH]; intros w out; simpl.
  { destruct (continue_walk w); [done|]. by intros [= <-]. }
  destruct (continue_walk w); [|by intros [= <-]].
  unfold walk_step.
  destruct (box_child t (walk_morton_nr w) (walk_box_id w) =? 0) eqn:Hc;
    [apply IH|].
  apply Nat.eqb_neq in Hc.
  destruct (examine (walk_level w)
              (box_child t (walk_morton_nr w) (walk_box_id w)))
    as [em desc] eqn:E.
  assert (Hem : 0 ∉ em).
  { intros H0. apply Hc. symmetry. apply (Hex (walk_level w)). by rewrite E. }
  destruct desc.
  - destruct (walk_push NLEVELS w); [|done].
    intros H Hout. eapply IH; [apply H|]. rewrite elem_of_app. tauto.
  - intros H Hout. eapply IH; [apply H|]. rewrite elem_of_app. tauto.
Qed.

(** List 1 never holds the root, whatever the tree. *)
Lemma neighbor_source_boxes_never_root (fl : box_flags_enum) (t : Tree)
    (NLEVELS fuel : nat) (target_boxes : list nat) (i : nat) (l : list nat) :
  neighbor_source_boxes_generate fl t NLEVELS fuel target_boxes i = Done l →
  0 ∉ l.
Proof.
  unfold neighbor_source_boxes_generate. intros H.
  eapply walk_loop_never_root; [|apply H|apply not_elem_of_nil].
  intros L c x. unfold neighbor_source_boxes_examine.
  destruct (is_adjacent_or_overlapping _ _ _ _); simpl;
    [|by intros ?%elem_of_nil].
  destruct (flag_set _ _); [|by intros ?%elem_of_nil].
  by intros ->%list_elem_of_singleton.
Qed.

(** C3, on the tree that is only a root.  The root holds targets and
    sources and overlaps itself, so it belongs to its own list 1; the build
    succeeds and list 1 of the only target box is empty. *)
Theorem neighbor_source_boxes_misses_root :
  check_tree single_box_tree = true
  ∧ flag_set (box_flag single_box_tree 0) (BOX_HAS_OWN_TARGETS boxtree_flags)
    = true
  ∧ flag_set (box_flag single_box_tree 0) (BOX_HAS_OWN_SOURCES boxtree_flags)
    = true
  ∧ adjacent single_box_tree 0 0 = true
  ∧ neighbor_source_boxes_generate boxtree_flags single_box_tree 10 4 [0] 0
    = Done []
  ∧ ∃ info h,
      FMMTraversalBuilder_call boxtree_flags pyopencl_vec_type_counts
        boxtree_AXIS_NAMES 4 single_box_tree [] = inr (info, h)
      ∧ h !!! target_boxes info = [0]
      ∧ h !!! neighbor_source_boxes_starts info = [0; 0]
      ∧ h !!! neighbor_source_boxes_lists info = [].
Proof.
  repeat (split; [vm_compute; reflexivity|]).
  eexists _, _. split; [vm_compute; reflexivity|].
  repeat split; vm_compute; reflexivity.
Qed.

(** ** The builder *)

Lemma bind_inr {A B} (c : M A) (k : A → M B) (h h' : cl_mem) (a : A) :
  c h = inr (a, h') → bind c k h = k a h'.
Proof. unfold bind. by intros ->. Qed.

Lemma bind_inl {A B} (c : M A) (k : A → M B) (h : cl_mem) (e : failure) :
  c h = inl e → bind c k h = inl e.
Proof. unfold bind. by intros ->. Qed.

Lemma div_ceil_10_ge (n : nat) : n ≤ div_ceil n 10 * 10.
Proof.
  unfold div_ceil.
  assert (H := Nat.div_mod (n + 10 - 1) 10 ltac:(lia)).
  assert (H' := Nat.mod_upper_bound (n + 10 - 1) 10 ltac:(lia)).
  lia.
Qed.

Lemma appended_to_named (name : string) (l : list nat) :
  appended_to name ((λ b, (name, b)) <$> l) = l.
Proof.
  unfold appended_to. induction l as [|x l IH]; [done|].
  rewrite fmap_cons, filter_cons. simpl.
  destruct (decide (name = name)); [|done]. rewrite fmap_cons. simpl.
  by f_equal.
Qed.

(** A builder with one list stores the offsets and the concatenation of
    what its kernel appends for the keys. *)
Lemma ListOfListsBuilder_single (name : string) (gen : nat → kres (list nat))
    (f : nat → list nat) (n : nat) (h : cl_mem) :
  (∀ k, k < n → gen k = Done (f k)) →
  ∃ r,
    ListOfListsBuilder [name] (λ k, named name (gen k)) n h
    = inr ({[name := r]},
           h ++ [starts_from 0 (f <$> seq 0 n); concat (f <$> seq 0 n)])
    ∧ lol_starts r = length h ∧ lol_lists r = S (length h).
Proof.
  intros Hgen. unfold ListOfListsBuilder.
  rewrite (run_keys_Done _ (λ k, (λ b, (name, b)) <$> f k)).
  2:{ intros k Hk. rewrite Hgen by lia. done. }
  simpl. unfold bind, alloc, ret. simpl.
  rewrite <- list_fmap_compose.
  rewrite (list_fmap_ext _ f (seq 0 n)).
  2:{ intros i x _. simpl. apply appended_to_named. }
  eexists. split.
  - rewrite <- app_assoc. simpl. rewrite insert_empty. reflexivity.
  - simpl. split; [done|]. rewrite length_app. simpl. lia.
Qed.

Lemma run_keys_total {A} (generate : nat → kres (list A)) (first n : nat) :
  (∀ k, first ≤ k < first + n → ∃ l, generate k = Done l) →
  ∃ pk, run_keys generate first n = Done pk.
Proof.
  revert first. induction n as [|n IH]; intros first H; [by exists []|].
  destruct (H first) as [l Hl]; [lia|].
  destruct (IH (S first)) as [pk Hpk]; [intros k Hk; apply H; lia|].
  exists (l :: pk). simpl. by rewrite Hl, Hpk.
Qed.

(** A builder with one list returns as soon as its kernel returns for every
    key; it stores two arrays and returns references to them. *)
Lemma ListOfListsBuilder_single_total (name : string)
    (gen : nat → kres (list nat)) (n : nat) (h : cl_mem) :
  (∀ k, k < n → ∃ l, gen k = Done l) →
  ∃ r pk,
    run_keys gen 0 n = Done pk
    ∧ ListOfListsBuilder [name] (λ k, named name (gen k)) n h
      = inr ({[name := r]}, h ++ [starts_from 0 pk; concat pk])
    ∧ lol_starts r = length h ∧ lol_lists r = S (length h).
Proof.
  intros Hgen.
  destruct (run_keys_total gen 0 n) as [pk Hpk];
    [intros k Hk; apply Hgen; lia|].
  exists (Build_list_of_lists (length h) (S (length h)) (length (concat pk))),
    pk.
  split; [done|]. split; [|done].
  unfold ListOfListsBuilder.
  assert (Hnamed : run_keys (λ k, named name (gen k)) 0 n
                   = Done ((λ l : list nat, (λ b : nat, (name, b)) <$> l)
                           <$> pk)).
  { clear Hgen. revert Hpk. generalize 0. revert pk.
    induction n as [|n IH]; intros pk first; simpl.
    - by intros [= <-].
    - destruct (gen first) as [l| |]; simpl; try done.
      destruct (run_keys gen (S first) n) as [ls| |] eqn:E; simpl; try done.
      intros [= <-]. by rewrite (IH ls (S first) E). }
  rewrite Hnamed. simpl. unfold bind, alloc, ret. simpl.
  rewrite <- list_fmap_compose.
  rewrite (list_fmap_ext _ id pk).
  2:{ intros i x _. simpl. apply appended_to_named. }
  rewrite list_fmap_id, <- app_assoc. simpl. rewrite insert_empty.
  rewrite length_app. simpl. by rewrite Nat.add_1_r.
Qed.

Lemma heap_lookup_new (h l2 : cl_mem) (k : nat) :
  (h ++ l2) !!! (length h + k) = l2 !!! k.
Proof.
  rewrite lookup_total_app_r by lia. f_equal. lia.
Qed.

Lemma heap_lookup_old (h l2 : cl_mem) (r : nat) :
  r < length h → (h ++ l2) !!! r = h !!! r.
Proof. apply lookup_total_app_l. Qed.

Lemma sources_parents_and_targets_generate_box (fl : box_flags_enum)
    (t : Tree) (sat : bool) (b : nat) (p : string * nat) :
  p ∈ sources_parents_and_targets_generate fl t sat b → p.2 = b.
Proof.
  unfold sources_parents_and_targets_generate.
  rewrite !elem_of_app.
  intros [H|[H|H]];
    repeat match type of H with
           | _ ∈ (if ?c then _ else _) => destruct c
           end;
    try (by apply elem_of_nil in H);
    by apply list_elem_of_singleton in H as ->.
Qed.

Lemma elem_of_concat (x : nat) (ls : list (list nat)) :
  x ∈ concat ls → ∃ l, l ∈ ls ∧ x ∈ l.
Proof.
  induction ls as [|l ls IH]; simpl; [by intros ?%elem_of_nil|].
  rewrite elem_of_app. intros [H|H].
  - exists l. split; [apply elem_of_cons; by left|done].
  - destruct (IH H) as (l' & Hl' & Hx). exists l'.
    split; [apply elem_of_cons; by right|done].
Qed.

Lemma emitted_lt_nboxes (fl : box_flags_enum) (t : Tree) (sat : bool)
    (name : string) (n x : nat) :
  x ∈ concat (appended_to name
              <$> (sources_parents_and_targets_generate fl t sat <$> seq 0 n)) →
  x < n.
Proof.
  intros (l & Hl & Hx)%elem_of_concat.
  apply list_elem_of_fmap in Hl as (g & -> & Hg).
  apply list_elem_of_fmap in Hg as (b & -> & Hb).
  apply elem_of_seq in Hb. unfold appended_to in Hx.
  apply list_elem_of_fmap in Hx as (p & -> & Hp).
  apply list_elem_of_filter in Hp as [_ Hp].
  apply sources_parents_and_targets_generate_box in Hp. lia.
Qed.

(** What the first builder returns: the lists in the order of their names,
    two arrays each; no list [target_boxes] when sources are targets. *)
Lemma sources_parents_and_targets_builder (fl : box_flags_enum) (t : Tree)
    (sat : bool) (h : cl_mem) :
  let pk := sources_parents_and_targets_generate fl t sat
            <$> seq 0 (nboxes t) in
  let spb := concat (appended_to "source_parent_boxes" <$> pk) in
  let sb := concat (appended_to "source_boxes" <$> pk) in
  let tb := concat (appended_to "target_boxes" <$> pk) in
  ∃ m h2,
    ListOfListsBuilder (sources_parents_and_targets_lists sat)
      (λ box_id, Done (sources_parents_and_targets_generate fl t sat box_id))
      (nboxes t) h = inr (m, h ++ h2)
    ∧ m !! "source_parent_boxes"%string
      = Some (Build_list_of_lists (length h) (length h + 1) (length spb))
    ∧ m !! "source_boxes"%string
      = Some (Build_list_of_lists (length h + 2) (length h + 3) (length sb))
    ∧ h2 !!! 1 = spb ∧ h2 !!! 3 = sb ∧ 4 ≤ length h2
    ∧ if sat then m !! "target_boxes"%string = None
      else m !! "target_boxes"%string
           = Some (Build_list_of_lists (length h + 4) (length h + 5)
                     (length tb))
           ∧ h2 !!! 5 = tb ∧ 6 ≤ length h2.
Proof.
  intros pk spb sb tb. unfold ListOfListsBuilder.
  rewrite (run_keys_Done _ (sources_parents_and_targets_generate fl t sat))
    by done.
  fold pk. destruct sat; simpl; unfold bind, alloc, ret; simpl;
    fold spb sb tb; rewrite <- !app_assoc; simpl;
    rewrite ?length_app; simpl; eexists _, _;
    (split; [reflexivity|]).
  - split; [rewrite lookup_insert_eq; do 2 f_equal; lia|].
    split; [rewrite lookup_insert_ne, lookup_insert_eq by done;
            do 2 f_equal; lia|].
    repeat split; try done; simpl; try lia.
  - split; [rewrite lookup_insert_eq; do 2 f_equal; lia|].
    split; [rewrite lookup_insert_ne, lookup_insert_eq by done;
            do 2 f_equal; lia|].
    repeat split; try done; simpl; try lia.
Qed.

Section KernelsReturn.
Variable fl : box_flags_enum.
Variable t : Tree.
Variables NLEVELS fuel : nat.
Hypothesis Hwf : wf_links t.
Hypothesis HN : nlevels t ≤ NLEVELS.
Hypothesis Hfuel : walk_bound (nchildren t) (nlevels t - 1) ≤ fuel.

(** A walk that starts at a box of the tree returns. *)
Lemma walk_loop_total examine (start : nat) (out : list nat) :
  start < nboxes t →
  ∃ l, walk_loop t NLEVELS examine fuel (walk_init NLEVELS start) out = Done l.
Proof.
  intros Hs. eexists.
  apply (walk_loop_correct t NLEVELS examine (nlevels t - 1)); [|done].
  apply walk_fits_levels; try done; lia.
Qed.

Lemma neighbor_source_boxes_generate_total (target_boxes : list nat)
    (i : nat) :
  ∃ l, neighbor_source_boxes_generate fl t NLEVELS fuel target_boxes i
       = Done l.
Proof.
  unfold neighbor_source_boxes_generate. apply walk_loop_total.
  apply (wf_nboxes t Hwf).
Qed.

Lemma colleagues_of_lt (A x : nat) : x ∈ colleagues_of t A → x < nboxes t.
Proof.
  unfold colleagues_of. destruct (A =? 0); [by intros ?%elem_of_nil|].
  intros H. apply (colleagues_rec_sound t Hwf) in H as (H & _); [done| |].
  - apply (wf_nboxes t Hwf).
  - apply (wf_root_level t Hwf).
Qed.

Lemma sep_smaller_nonsiblings_generate_total
    (target_boxes starts lists : list nat) (i : nat) :
  (∀ b, b < nboxes t → csr_slice starts lists b = colleagues_of t b) →
  target_boxes !!! i < nboxes t →
  ∃ l, sep_smaller_nonsiblings_generate fl t NLEVELS fuel target_boxes
         starts lists i = Done l.
Proof.
  intros Hslice Hbox. unfold sep_smaller_nonsiblings_generate.
  set (box_id := target_boxes !!! i) in *.
  assert (Hall : ∀ j, j ∈ index_range (starts !!! box_id)
                            (starts !!! (box_id + 1)) →
                      lists !!! j < nboxes t).
  { intros j Hj. apply (colleagues_of_lt box_id).
    rewrite <- Hslice by done. unfold csr_slice.
    apply list_elem_of_fmap. by exists j. }
  revert Hall. generalize (index_range (starts !!! box_id)
                             (starts !!! (box_id + 1))).
  generalize (@nil nat).
  intros out idxs. revert out.
  induction idxs as [|j idxs IH]; intros out Hall; [by eexists|].
  simpl.
  destruct (walk_loop_total
              (sep_smaller_nonsiblings_examine fl t (load_center t box_id)
                 (box_level t box_id)) (lists !!! j) out) as [l Hl].
  { apply Hall. apply elem_of_cons. by left. }
  rewrite Hl. apply IH. intros j' Hj'. apply Hall, elem_of_cons. by right.
Qed.

End KernelsReturn.

Lemma bind_ret {A B} (a : A) (k : A → M B) (h : cl_mem) :
  bind (ret a) k h = k a h.
Proof. done. Qed.

Lemma bind_deref {B} (r : ref) (k : list nat → M B) (h : cl_mem) :
  bind (deref r) k h = k (h !!! r) h.
Proof. done. Qed.

Lemma bind_getitem {B} (m : gmap string list_of_lists) (name : string)
    (r : list_of_lists) (k : list_of_lists → M B) (h : cl_mem) :
  m !! name = Some r → bind (getitem m name) k h = k r h.
Proof. intros H. unfold bind, getitem. by rewrite H. Qed.

Lemma bind_assert {B} (a b : nat) (k : unit → M B) (h : cl_mem) :
  a = b → bind (py_assert (a =? b)) k h = k tt h.
Proof. intros ->. by rewrite Nat.eqb_refl. Qed.

(** The first builder, as the driver uses its result. *)
Lemma sources_parents_and_targets_builder_refs (fl : box_flags_enum)
    (t : Tree) (sat : bool) (h : cl_mem) :
  ∃ m h1 rs rp,
    ListOfListsBuilder (sources_parents_and_targets_lists sat)
      (λ box_id, Done (sources_parents_and_targets_generate fl t sat box_id))
      (nboxes t) h = inr (m, h1)
    ∧ m !! "source_boxes"%string = Some rs
    ∧ m !! "source_parent_boxes"%string = Some rp
    ∧ length (h1 !!! lol_lists rs) = lol_count rs
    ∧ length (h1 !!! lol_lists rp) = lol_count rp
    ∧ lol_lists rs < length h1
    ∧ (∀ x, x ∈ h1 !!! lol_lists rs → x < nboxes t)
    ∧ if sat then m !! "target_boxes"%string = None
      else ∃ rt, m !! "target_boxes"%string = Some rt
                 ∧ length (h1 !!! lol_lists rt) = lol_count rt
                 ∧ lol_lists rt < length h1
                 ∧ lol_lists rt ≠ lol_lists rs
                 ∧ ∀ x, x ∈ h1 !!! lol_lists rt → x < nboxes t.
Proof.
  destruct (sources_parents_and_targets_builder fl t sat h)
    as (m & h2 & E & Hspb & Hsb & Hd1 & Hd3 & Hlen & Htb).
  eexists m, (h ++ h2), (Build_list_of_lists (length h + 2) (length h + 3) _),
    (Build_list_of_lists (length h) (length h + 1) _).
  split; [done|]. split; [done|]. split; [done|].
  cbn [lol_lists lol_count]. rewrite !heap_lookup_new.
  unfold cl_mem in *. rewrite Hd1, Hd3.
  split; [done|]. split; [done|]. split; [rewrite length_app; lia|].
  split; [apply emitted_lt_nboxes|].
  destruct sat; [done|]. destruct Htb as (Htb & Hd5 & Hlen').
  eexists (Build_list_of_lists (length h + 4) (length h + 5) _).
  split; [done|]. cbn [lol_lists lol_count].
  rewrite heap_lookup_new. unfold cl_mem in *. rewrite Hd5.
  split; [done|]. split; [rewrite length_app; lia|]. split; [lia|].
  apply emitted_lt_nboxes.
Qed.

(** A builder with one list, as the driver uses its result: the arrays
    allocated before are untouched. *)
Lemma ListOfListsBuilder_single_refs (name : string)
    (gen : nat → kres (list nat)) (n : nat) (h : cl_mem) :
  (∀ k, k < n → ∃ l, gen k = Done l) →
  ∃ r h' pk,
    run_keys gen 0 n = Done pk
    ∧ ListOfListsBuilder [name] (λ k, named name (gen k)) n h
      = inr ({[name := r]}, h')
    ∧ (∀ a, a < length h → h' !!! a = h !!! a)
    ∧ length h ≤ length h'
    ∧ lol_starts r = length h ∧ lol_lists r = S (length h)
    ∧ h' !!! lol_starts r = starts_from 0 pk
    ∧ h' !!! lol_lists r = concat pk.
Proof.
  intros Hgen.
  destruct (ListOfListsBuilder_single_total name gen n h Hgen)
    as (r & pk & Hrun & E & Hs & Hl).
  exists r, (h ++ [starts_from 0 pk; concat pk]), pk.
  split; [done|]. split; [done|].
  split; [intros a Ha; by apply heap_lookup_old|].
  split; [rewrite length_app; lia|]. split; [done|]. split; [done|].
  rewrite Hs, Hl. split.
  - by rewrite <- (Nat.add_0_r (length h)), heap_lookup_new.
  - by rewrite <- (Nat.add_1_r (length h)), heap_lookup_new.
Qed.

Ltac single_stage Er Hside :=
  match type of Er with
  | _ = bind (ListOfListsBuilder [?name] (λ k, named _ (@?gen k)) ?n) _ ?hh =>
      let r := fresh "r" in let h' := fresh "h" in let pk := fresh "pk" in
      let Hrun := fresh "Hrun" in let E := fresh "E" in
      let Hold := fresh "Hold" in let Hlen := fresh "Hlen" in
      let Hs := fresh "Hs" in let Hl := fresh "Hl" in
      let Hds := fresh "Hds" in let Hdl := fresh "Hdl" in
      destruct (ListOfListsBuilder_single_refs name gen n hh Hside)
        as (r & h' & pk & Hrun & E & Hold & Hlen & Hs & Hl & Hds & Hdl);
      erewrite bind_inr in Er by exact E;
      erewrite bind_getitem in Er by apply lookup_singleton_eq
  end.

(** On a pruned tree with linked levels, of a dimension for which the
    kernels can be rendered, and with enough fuel, the build returns; the
    traversal refers to one array for sources and targets iff
    [sources_are_targets] is set. *)
Lemma builder_returns (fl : box_flags_enum) (vec : list nat)
    (axis : list string) (fuel : nat) (t : Tree) (h : cl_mem) :
  _is_pruned t = true → dimensions t ∈ vec → dimensions t ≤ length axis →
  wf_links t → walk_bound (nchildren t) (nlevels t - 1) ≤ fuel →
  ∃ info h',
    FMMTraversalBuilder_call fl vec axis fuel t h = inr (info, h')
    ∧ tree info = t
    ∧ if sources_are_targets t
      then target_boxes info = source_boxes info
      else target_boxes info ≠ source_boxes info.
Proof.
  intros Hp Hv Ha Hwf Hfuel.
  assert (HN := div_ceil_10_ge (nlevels t)).
  remember (FMMTraversalBuilder_call fl vec axis fuel t h) as res eqn:Er.
  unfold FMMTraversalBuilder_call in Er. rewrite Hp in Er. cbn [negb] in Er.
  unfold get_kernel_info in Er. rewrite bool_decide_eq_true_2 in Er by done.
  rewrite (proj2 (Nat.leb_le _ _) Ha), bind_ret in Er.
  cbn [render_sources_are_targets render_max_levels] in Er.
  destruct (sources_parents_and_targets_builder_refs fl t
              (sources_are_targets t) h)
    as (m0 & h1 & rs & rp & E0 & Hsb & Hspb & Hcs & Hcp & Hrs & Hsbox & Htb).
  erewrite bind_inr in Er by exact E0.
  erewrite bind_getitem in Er by exact Hsb.
  rewrite bind_deref in Er. erewrite bind_assert in Er by exact Hcs.
  (* the target boxes: a reference [rt] to boxes of the tree *)
  assert (∃ rt, rt < length h1 ∧ (∀ x, x ∈ h1 !!! rt → x < nboxes t)
            ∧ (if sources_are_targets t then rt = lol_lists rs
               else rt ≠ lol_lists rs)
            ∧ ∀ B (k : ref → M B),
                bind (if negb (sources_are_targets t)
                      then bind (getitem m0 "target_boxes")
                             (λ r_target_boxes,
                                bind (deref (lol_lists r_target_boxes))
                                  (λ target_boxes_data,
                                     bind (py_assert
                                             (length target_boxes_data
                                              =? lol_count r_target_boxes))
                                       (λ _, ret (lol_lists r_target_boxes))))
                      else ret (lol_lists rs)) k h1
                = k rt h1) as (rt & Hrt & Htbox & Halias & Etb).
  { destruct (sources_are_targets t); cbn [negb].
    - exists (lol_lists rs). repeat split; try done.
    - destruct Htb as (rt' & Ht & Hct & Hrt' & Hne & Htbox).
      exists (lol_lists rt'). repeat split; try done.
      intros B k. unfold bind, getitem, deref, py_assert, ret.
      rewrite Ht. cbn [lol_lists lol_count].
      by rewrite (proj2 (Nat.eqb_eq _ _) Hct). }
  rewrite Etb in Er. clear Etb.
  erewrite bind_getitem in Er by exact Hspb.
  rewrite bind_deref in Er. erewrite bind_assert in Er by exact Hcp.
  (* colleagues *)
  assert (Hside1 : ∀ k, k < nboxes t →
            ∃ l, colleagues_generate t (div_ceil (nlevels t) 10 * 10) fuel k
                 = Done l).
  { intros k _. eexists. by apply colleagues_generate_correct. }
  single_stage Er Hside1.
  rewrite !bind_deref in Er.
  assert (Hslice : ∀ b, b < nboxes t →
            csr_slice (h0 !!! lol_starts r) (h0 !!! lol_lists r) b
            = colleagues_of t b).
  { intros b Hb. rewrite Hds, Hdl.
    rewrite (run_keys_Done _ (colleagues_of t)) in Hrun.
    2:{ intros k _. by apply colleagues_generate_correct. }
    injection Hrun as <-.
    rewrite csr_slice_correct by (by rewrite length_fmap, length_seq).
    rewrite (list_lookup_total_fmap (colleagues_of t))
      by (by rewrite length_seq).
    by rewrite lookup_total_seq_lt. }
  assert (Htd : h0 !!! rt = h1 !!! rt) by (by apply Hold).
  (* list 1 *)
  assert (Hside2 : ∀ k, k < length (h0 !!! rt) →
            ∃ l, neighbor_source_boxes_generate fl t
                   (div_ceil (nlevels t) 10 * 10) fuel (h0 !!! rt) k = Done l).
  { intros k _. by apply neighbor_source_boxes_generate_total. }
  single_stage Er Hside2.
  (* list 2 *)
  assert (Hside3 : ∀ k, k < nboxes t →
            ∃ l, Done (sep_siblings_generate t (h0 !!! lol_starts r)
                         (h0 !!! lol_lists r) k) = Done l)
    by (intros; by eexists).
  single_stage Er Hside3.
  (* list 3 *)
  assert (Hside4 : ∀ k, k < length (h0 !!! rt) →
            ∃ l, sep_smaller_nonsiblings_generate fl t
                   (div_ceil (nlevels t) 10 * 10) fuel (h0 !!! rt)
                   (h0 !!! lol_starts r) (h0 !!! lol_lists r) k = Done l).
  { intros k Hk. apply sep_smaller_nonsiblings_generate_total; try done.
    rewrite Htd. apply Htbox. rewrite <- Htd.
    by apply list_elem_of_lookup_total_2. }
  single_stage Er Hside4.
  (* list 4 *)
  assert (Hside5 : ∀ k, k < nboxes t →
            ∃ l, Done (sep_bigger_nonsiblings_generate fl t
                         (h0 !!! lol_starts r) (h0 !!! lol_lists r) k)
                 = Done l)
    by (intros; by eexists).
  single_stage Er Hside5.
  unfold ret in Er. subst res. eexists _, _. split; [reflexivity|].
  simpl. split; [done|].
  destruct (sources_are_targets t); [by subst rt|done].
Qed.

Lemma builder_not_pruned (fl : box_flags_enum) (vec : list nat)
    (axis : list string) (fuel : nat) (t : Tree) (h : cl_mem) :
  _is_pruned t = false →
  FMMTraversalBuilder_call fl vec axis fuel t h
  = inl (ValueError "tree must be pruned for traversal generation").
Proof. intros Hp. unfold FMMTraversalBuilder_call. by rewrite Hp. Qed.

(** C8, counterexample.  A pruned tree of dimension 4, with the vector
    types of pyopencl and the axis names of boxtree: the build returns a
    traversal. *)
Lemma unsupported_dimension_not_raised :
  dimensions four_dim_tree ≠ 2 ∧ dimensions four_dim_tree ≠ 3
  ∧ ∃ info h,
      FMMTraversalBuilder_call boxtree_flags pyopencl_vec_type_counts
        boxtree_AXIS_NAMES 16 four_dim_tree [] = inr (info, h).
Proof.
  split; [vm_compute; lia|]. split; [vm_compute; lia|].
  eexists _, _. vm_compute. reflexivity.
Qed.

(** C8, amended.  The builder does not look at the dimension.  On a pruned
    tree the build fails for a dimension when the templates cannot be
    rendered for it: with [KeyError] when there is no vector type of that
    length, with [IndexError] when there are fewer axis names; in both cases
    before any kernel runs.  For every other dimension a tree with linked
    levels yields a traversal. *)
Theorem builder_failures_by_dimension (fl : box_flags_enum) (vec : list nat)
    (axis : list string) (fuel : nat) (t : Tree) (h : cl_mem) :
  _is_pruned t = true →
  (dimensions t ∉ vec →
     FMMTraversalBuilder_call fl vec axis fuel t h = inl (KeyError "vec_types"))
  ∧ (dimensions t ∈ vec → length axis < dimensions t →
     FMMTraversalBuilder_call fl vec axis fuel t h = inl IndexError)
  ∧ (dimensions t ∈ vec → dimensions t ≤ length axis →
     wf_links t → walk_bound (nchildren t) (nlevels t - 1) ≤ fuel →
     ∃ info h',
       FMMTraversalBuilder_call fl vec axis fuel t h = inr (info, h')).
Proof.
  intros Hp. split; [|split].
  - intros Hv. unfold FMMTraversalBuilder_call, get_kernel_info.
    rewrite Hp. cbn [negb]. by rewrite bool_decide_eq_false_2.
  - intros Hv Ha. unfold FMMTraversalBuilder_call, get_kernel_info.
    rewrite Hp. cbn [negb]. rewrite bool_decide_eq_true_2 by done.
    by rewrite (proj2 (Nat.leb_gt _ _) Ha).
  - intros Hv Ha Hwf Hfuel.
    destruct (builder_returns fl vec axis fuel t h Hp Hv Ha Hwf Hfuel)
      as (info & h' & E & _). by exists info, h'.
Qed.

Lemma builder_failures_by_dimension_witness :
  ∃ info h',
    FMMTraversalBuilder_call boxtree_flags pyopencl_vec_type_counts
      boxtree_AXIS_NAMES 16 four_dim_tree [] = inr (info, h').
Proof.
  apply (builder_failures_by_dimension boxtree_flags pyopencl_vec_type_counts
           boxtree_AXIS_NAMES 16 four_dim_tree []).
  - reflexivity.
  - vm_compute. do 2 right. left.
  - vm_compute. lia.
  - apply check_links_sound. vm_compute. reflexivity.
  - vm_compute. lia.
Defined.



(** Without [sources_are_targets] the two are different arrays. *)
Lemma target_boxes_separate (fl : box_flags_enum) (vec : list nat)
    (axis : list string) (fuel : nat) (t : Tree) (h : cl_mem) :
  sources_are_targets t = false →
  _is_pruned t = true → dimensions t ∈ vec → dimensions t ≤ length axis →
  wf_links t → walk_bound (nchildren t) (nlevels t - 1) ≤ fuel →
  ∃ info h',
    FMMTraversalBuilder_call fl vec axis fuel t h = inr (info, h')
    ∧ target_boxes info ≠ source_boxes info.
Proof.
  intros Hsat Hp Hv Ha Hwf Hfuel.
  destruct (builder_returns fl vec axis fuel t h Hp Hv Ha Hwf Hfuel)
    as (info & h' & E & _ & Halias).
  rewrite Hsat in Halias. by exists info, h'.
Qed.


Section Descent.

Variable t : Tree.
Hypothesis Hwf : wf_links t.
Variable ex : nat → nat → list nat * bool.

(** A box found by the descent lies strictly below the box the descent
    started from. *)
Lemma walk_rec_descendant (h L b x : nat) :
  (∀ L c x, x ∈ (ex L c).1 → x = c) →
  b < nboxes t →
  x ∈ walk_rec t ex h L b →
  x < nboxes t
  ∧ ∃ k, 1 ≤ k ∧ box_level t x = box_level t b + k ∧ ancestor t k x = b.
Proof.
  intros Hemit. revert L b.
  induction h as [|h IH]; intros L b Hb Hx;
    apply elem_of_walk_rec in Hx as (m & Hm & Hc & Hx);
    destruct (wf_child t Hwf b m Hb Hm Hc) as (Hcb & Hcl & _ & Hcp);
    destruct Hx as [Hx | (Hd & h' & Hh & Hx)].
  - apply Hemit in Hx as ->. split; [done|]. exists 1. split_and!; [lia|lia|done].
  - done.
  - apply Hemit in Hx as ->. split; [done|]. exists 1. split_and!; [lia|lia|done].
  - injection Hh as <-. apply IH in Hx as (Hxb & k & Hk & Hl & Ha); [|done].
    split; [done|]. exists (S k). split_and!; [lia|lia|].
    by rewrite (ancestor_S t), Ha.
Qed.

Lemma walk_slot_descendant (h L b m y : nat) :
  (∀ L c x, x ∈ (ex L c).1 → x = c) →
  b < nboxes t → m < nchildren t →
  y ∈ walk_slot t ex (walk_below t ex h L) L b m →
  box_child t m b ≠ 0
  ∧ ∃ k, box_level t y = S (box_level t b) + k
         ∧ ancestor t k y = box_child t m b.
Proof.
  intros Hemit Hb Hm Hy. unfold walk_slot in Hy.
  destruct (box_child t m b =? 0) eqn:Hc; [by apply elem_of_nil in Hy|].
  apply Nat.eqb_neq in Hc. split; [done|].
  destruct (wf_child t Hwf b m Hb Hm Hc) as (Hcb & Hcl & _ & Hcp).
  apply elem_of_app in Hy as [Hy|Hy].
  { apply Hemit in Hy as ->. exists 0. split; [lia|done]. }
  destruct ((ex L (box_child t m b)).2); [|by apply elem_of_nil in Hy].
  destruct h as [|h]; [by apply elem_of_nil in Hy|]. simpl in Hy.
  apply walk_rec_descendant in Hy as (_ & k & Hk & Hl & Ha); [|done|done].
  exists k. split; [lia|done].
Qed.

(** With different children in the slots of every box, the descent finds no
    box twice. *)
Lemma walk_rec_NoDup (h L b : nat) :
  wf_slots t →
  (∀ L c x, x ∈ (ex L c).1 → x = c) →
  (∀ L c, NoDup (ex L c).1) →
  b < nboxes t → NoDup (walk_rec t ex h L b).
Proof.
  intros Hslots Hemit Hnd. revert L b.
  induction h as [|h IH]; intros L b Hb; rewrite walk_rec_eq.
  all: apply NoDup_bind; [| |apply NoDup_seq].
  1,3: intros m1 m2 y Hm1 Hm2 Hy1 Hy2;
    apply elem_of_seq in Hm1, Hm2;
    apply walk_slot_descendant in Hy1 as (Hc1 & k1 & Hl1 & Ha1); [|done|done|lia];
    apply walk_slot_descendant in Hy2 as (Hc2 & k2 & Hl2 & Ha2); [|done|done|lia];
    apply (Hslots b m1 m2); [done|lia|lia|done|];
    assert (k1 = k2) as -> by lia; congruence.
  all: intros m Hm; apply elem_of_seq in Hm; unfold walk_slot;
    destruct (box_child t m b =? 0) eqn:Hc; [constructor|];
    apply Nat.eqb_neq in Hc;
    destruct (wf_child t Hwf b m Hb ltac:(lia) Hc) as (Hcb & Hcl & _ & Hcp);
    apply NoDup_app; split_and!; [apply Hnd| |].
  - intros y Hy1 Hy2.
    destruct ((ex L (box_child t m b)).2); by apply elem_of_nil in Hy2.
  - destruct ((ex L (box_child t m b)).2); constructor.
  - intros y Hy1 Hy2.
    destruct ((ex L (box_child t m b)).2); [|by apply elem_of_nil in Hy2].
    simpl in Hy2. apply Hemit in Hy1 as ->.
    apply walk_rec_descendant in Hy2 as (_ & k & Hk & Hl & Ha); [|done|done].
    lia.
  - destruct ((ex L (box_child t m b)).2); [|constructor]. simpl. by apply IH.
Qed.

End Descent.

Section Paths.

Variable t : Tree.
Hypothesis Hwf : wf_links t.
Variable ex : nat → nat → list nat * bool.
Variables emit desc : nat → bool.
Hypothesis Hex : ∀ L c, ex L c = (if emit c then [c] else [], desc c).

(** When the test of a box does not depend on the stack level, the descent
    from [b] finds the boxes below [b] that pass [emit] and whose ancestors
    strictly between them and [b] all pass [desc]. *)
Lemma walk_rec_path (h L b x : nat) :
  b < nboxes t →
  x ∈ walk_rec t ex h L b ↔
  x < nboxes t ∧ emit x = true
  ∧ ∃ k, 1 ≤ k ≤ S h ∧ box_level t x = box_level t b + k
         ∧ ancestor t k x = b
         ∧ ∀ j, 1 ≤ j < k → desc (ancestor t j x) = true.
Proof.
  revert L b x. induction h as [|h IH]; intros L b x Hb; split.
  - intros Hx. apply elem_of_walk_rec in Hx as (m & Hm & Hc & Hx).
    destruct (wf_child t Hwf b m Hb Hm Hc) as (Hcb & Hcl & _ & Hcp).
    destruct Hx as [Hx | (Hd & h' & Hh & Hx)]; [|done].
    rewrite Hex in Hx. simpl in Hx.
    destruct (emit (box_child t m b)) eqn:He; [|by apply elem_of_nil in Hx].
    apply list_elem_of_singleton in Hx as ->. split_and!; [done|done|].
    exists 1. split_and!; [lia|lia|lia|done|lia].
  - intros (Hxb & He & k & Hk & Hl & Ha & Hd).
    assert (k = 1) as -> by lia. simpl in Ha.
    assert (Hx0 : 0 < x < nboxes t).
    { split; [|done]. destruct (decide (x = 0)) as [->|]; [|lia].
      rewrite (wf_root_level t Hwf) in Hl. lia. }
    destruct (wf_parent t Hwf x Hx0) as (_ & m & Hm & Hc).
    apply elem_of_walk_rec. exists m. rewrite Ha in Hc. rewrite Hc.
    split_and!; [done|lia|]. left. rewrite Hex, He. simpl. by left.
  - intros Hx. apply elem_of_walk_rec in Hx as (m & Hm & Hc & Hx).
    destruct (wf_child t Hwf b m Hb Hm Hc) as (Hcb & Hcl & _ & Hcp).
    destruct Hx as [Hx | (Hd & h' & Hh & Hx)].
    + rewrite Hex in Hx. simpl in Hx.
      destruct (emit (box_child t m b)) eqn:He; [|by apply elem_of_nil in Hx].
      apply list_elem_of_singleton in Hx as ->. split_and!; [done|done|].
      exists 1. split_and!; [lia|lia|lia|done|lia].
    + injection Hh as <-.
      apply IH in Hx as (Hxb & He & k & Hk & Hl & Ha & Hdd); [|done].
      split_and!; [done|done|]. exists (S k).
      split_and!; [lia|lia|lia|by rewrite (ancestor_S t), Ha|].
      intros j Hj. destruct (decide (j = k)) as [->|]; [|apply Hdd; lia].
      rewrite Ha. rewrite Hex in Hd. done.
  - intros (Hxb & He & k & Hk & Hl & Ha & Hd).
    destruct k as [|k]; [lia|].
    set (c := ancestor t k x).
    assert (Hcb : c < nboxes t) by by apply ancestor_lt.
    assert (Hcl : box_level t c = S (box_level t b)).
    { unfold c. rewrite ancestor_level by done. lia. }
    assert (Hc0 : 0 < c < nboxes t).
    { split; [|done]. destruct (decide (c = 0)) as [Hz|]; [|lia].
      rewrite Hz, (wf_root_level t Hwf) in Hcl. lia. }
    destruct (wf_parent t Hwf c Hc0) as (_ & m & Hm & Hc).
    rewrite (ancestor_S t) in Ha. fold c in Ha. rewrite Ha in Hc.
    apply elem_of_walk_rec. exists m. rewrite Hc.
    split_and!; [done|lia|].
    destruct k as [|k].
    + left. simpl in c. subst c. rewrite Hex, He. simpl. by left.
    + right. split.
      { rewrite Hex. simpl. apply Hd. lia. }
      exists h. split; [done|]. apply IH; [done|].
      split_and!; [done|done|]. exists (S k).
      split_and!; [lia|lia|lia|done|]. intros j Hj. apply Hd. lia.
Qed.

End Paths.

(* ================================================================= *)
(** ** The flag and slot tests *)

Lemma check_slots_sound (t : Tree) : check_slots t = true → wf_slots t.
Proof.
  intros H b m m' Hb Hm Hm' Hc Heq. unfold check_slots in H.
  rewrite forallb_forall in H.
  assert (Hin : In b (seq 0 (nboxes t))) by (apply in_seq; lia).
  apply H in Hin. rewrite forallb_forall in Hin.
  assert (Hin2 : In m (seq 0 (nchildren t))) by (apply in_seq; lia).
  apply Hin in Hin2. rewrite forallb_forall in Hin2.
  assert (Hin3 : In m' (seq 0 (nchildren t))) by (apply in_seq; lia).
  apply Hin2 in Hin3.
  apply orb_true_iff in Hin3 as [Hin3|Hin3]; [|by apply Nat.eqb_eq].
  apply orb_true_iff in Hin3 as [Hin3|Hin3].
  - apply Nat.eqb_eq in Hin3. done.
  - apply negb_true_iff, Nat.eqb_neq in Hin3. done.
Qed.

Lemma check_sources_flags_sound (fl : box_flags_enum) (t : Tree) :
  check_sources_flags fl t = true → sources_flags_linked fl t.
Proof.
  intros H b Hb Hs. unfold check_sources_flags in H.
  rewrite forallb_forall in H.
  assert (Hin : In b (seq 0 (nboxes t))) by (apply in_seq; lia).
  apply H in Hin.
  apply orb_true_iff in Hin as [Hin|Hin]; [|done].
  apply orb_true_iff in Hin as [Hin|Hin].
  - apply Nat.eqb_eq in Hin. lia.
  - apply negb_true_iff, orb_false_iff in Hin as [H1 H2].
    destruct Hs; congruence.
Qed.

Lemma check_children_flags_sound (fl : box_flags_enum) (t : Tree) :
  check_children_flags fl t = true → children_flags_linked fl t.
Proof.
  intros H b m Hb Hm Hc. unfold check_children_flags in H.
  rewrite forallb_forall in H.
  assert (Hin : In b (seq 0 (nboxes t))) by (apply in_seq; lia).
  apply H in Hin. rewrite forallb_forall in Hin.
  assert (Hin2 : In m (seq 0 (nchildren t))) by (apply in_seq; lia).
  apply Hin in Hin2.
  apply orb_true_iff in Hin2 as [Hin2|Hin2]; [|done].
  apply Nat.eqb_eq in Hin2. done.
Qed.

(* ================================================================= *)
(** ** List 1: which boxes it holds *)

Lemma neighbor_source_boxes_generate_correct (fl : box_flags_enum) (t : Tree)
    (NLEVELS fuel : nat) (target_boxes : list nat) (i : nat) :
  wf_links t → nlevels t ≤ NLEVELS →
  walk_bound (nchildren t) (nlevels t - 1) ≤ fuel →
  neighbor_source_boxes_generate fl t NLEVELS fuel target_boxes i
  = Done (neighbor_source_boxes_of fl t (target_boxes !!! i)).
Proof.
  intros Hwf HN Hfuel.
  unfold neighbor_source_boxes_generate, neighbor_source_boxes_of.
  rewrite (walk_loop_correct t NLEVELS _ (nlevels t - 1)); try done.
  apply walk_fits_levels; try done.
  - apply (wf_nboxes t Hwf).
  - lia.
  - lia.
Qed.

Lemma neighbor_source_boxes_examine_eq (fl : box_flags_enum) (t : Tree)
    (c : list Q) (l L b : nat) :
  neighbor_source_boxes_examine fl t c l L b
  = (if is_adjacent_or_overlapping t c l b
        && flag_set (box_flag t b) (BOX_HAS_OWN_SOURCES fl)
     then [b] else [],
     is_adjacent_or_overlapping t c l b
     && flag_set (box_flag t b) (BOX_HAS_CHILD_SOURCES fl)).
Proof.
  unfold neighbor_source_boxes_examine.
  by destruct (is_adjacent_or_overlapping t c l b).
Qed.

(* ================================================================= *)
(** ** List 3: which boxes it holds *)

Lemma sep_smaller_nonsiblings_generate_correct (fl : box_flags_enum)
    (t : Tree) (NLEVELS fuel : nat) (target_boxes starts lists : list nat)
    (i : nat) :
  wf_links t → nlevels t ≤ NLEVELS →
  walk_bound (nchildren t) (nlevels t - 1) ≤ fuel →
  (∀ b, b < nboxes t → csr_slice starts lists b = colleagues_of t b) →
  target_boxes !!! i < nboxes t →
  sep_smaller_nonsiblings_generate fl t NLEVELS fuel target_boxes
    starts lists i
  = Done (sep_smaller_nonsiblings_of fl t (target_boxes !!! i)).
Proof.
  intros Hwf HN Hfuel Hslice Hbox.
  unfold sep_smaller_nonsiblings_generate, sep_smaller_nonsiblings_of.
  set (box_id := target_boxes !!! i) in *.
  rewrite <- (Hslice box_id Hbox). unfold csr_slice.
  assert (Hall : ∀ j, j ∈ index_range (starts !!! box_id)
                            (starts !!! (box_id + 1)) →
                      lists !!! j < nboxes t).
  { intros j Hj. apply (colleagues_of_lt t Hwf box_id).
    rewrite <- Hslice by done. unfold csr_slice.
    apply list_elem_of_fmap. by exists j. }
  revert Hall. generalize (index_range (starts !!! box_id)
                             (starts !!! (box_id + 1))).
  intros idxs.
  rewrite <- (app_nil_l (_ ≫= _)). generalize (@nil nat).
  induction idxs as [|j idxs IH]; intros out Hall.
  { simpl. by rewrite app_nil_r. }
  simpl.
  rewrite (walk_loop_correct t NLEVELS _ (nlevels t - 1)); try done.
  - rewrite IH.
    + by rewrite <- app_assoc.
    + intros j' Hj'. apply Hall, elem_of_cons. by right.
  - apply walk_fits_levels; try done.
    + apply Hall, elem_of_cons. by left.
    + lia.
    + lia.
Qed.

Lemma sep_smaller_nonsiblings_examine_eq (fl : box_flags_enum) (t : Tree)
    (c : list Q) (l L b : nat) :
  sep_smaller_nonsiblings_examine fl t c l L b
  = (if negb (is_adjacent_or_overlapping t c l b) then [b] else [],
     is_adjacent_or_overlapping t c l b
     && flag_set (box_flag t b) (BOX_HAS_CHILDREN fl)).
Proof.
  unfold sep_smaller_nonsiblings_examine.
  by destruct (is_adjacent_or_overlapping t c l b).
Qed.

(* ================================================================= *)
(** ** No box twice *)

Lemma colleagues_examine_emits (t : Tree) (A : nat) (c : list Q) (l L b : nat) :
  (colleagues_examine t A c l L b).1 = [b]
  ∨ (colleagues_examine t A c l L b).1 = [].
Proof.
  unfold colleagues_examine.
  destruct (is_adjacent_or_overlapping t c l b); [|by right].
  destruct ((L + 1 =? l) && negb (b =? A)); [by left|by right].
Qed.

Lemma neighbor_source_boxes_examine_emits (fl : box_flags_enum) (t : Tree)
    (c : list Q) (l L b : nat) :
  (neighbor_source_boxes_examine fl t c l L b).1 = [b]
  ∨ (neighbor_source_boxes_examine fl t c l L b).1 = [].
Proof.
  rewrite neighbor_source_boxes_examine_eq. simpl.
  destruct (_ && _); [by left|by right].
Qed.

Lemma sep_smaller_nonsiblings_examine_emits (fl : box_flags_enum) (t : Tree)
    (c : list Q) (l L b : nat) :
  (sep_smaller_nonsiblings_examine fl t c l L b).1 = [b]
  ∨ (sep_smaller_nonsiblings_examine fl t c l L b).1 = [].
Proof.
  rewrite sep_smaller_nonsiblings_examine_eq. simpl.
  destruct (negb _); [by left|by right].
Qed.

Lemma emits_self (ex : nat → nat → list nat * bool) :
  (∀ L c, (ex L c).1 = [c] ∨ (ex L c).1 = []) →
  (∀ L c x, x ∈ (ex L c).1 → x = c) ∧ (∀ L c, NoDup (ex L c).1).
Proof.
  intros H. split.
  - intros L c x Hx. destruct (H L c) as [Heq|Heq]; rewrite Heq in Hx.
    + by apply list_elem_of_singleton in Hx.
    + by apply elem_of_nil in Hx.
  - intros L c. destruct (H L c) as [-> | ->].
    + apply NoDup_singleton.
    + constructor.
Qed.

Lemma colleagues_of_NoDup (t : Tree) (A : nat) :
  wf_links t → wf_slots t → NoDup (colleagues_of t A).
Proof.
  intros Hwf Hslots. unfold colleagues_of.
  destruct (A =? 0); [constructor|].
  destruct (emits_self _ (colleagues_examine_emits t A (load_center t A)
                            (box_level t A))) as [He Hn].
  apply walk_rec_NoDup; try done. apply (wf_nboxes t Hwf).
Qed.

Lemma neighbor_source_boxes_of_NoDup (fl : box_flags_enum) (t : Tree)
    (T : nat) :
  wf_links t → wf_slots t → NoDup (neighbor_source_boxes_of fl t T).
Proof.
  intros Hwf Hslots. unfold neighbor_source_boxes_of.
  destruct (emits_self _ (neighbor_source_boxes_examine_emits fl t
                            (load_center t T) (box_level t T))) as [He Hn].
  apply walk_rec_NoDup; try done. apply (wf_nboxes t Hwf).
Qed.

Lemma sep_smaller_nonsiblings_of_NoDup (fl : box_flags_enum) (t : Tree)
    (T : nat) :
  wf_links t → wf_slots t → NoDup (sep_smaller_nonsiblings_of fl t T).
Proof.
  intros Hwf Hslots. unfold sep_smaller_nonsiblings_of.
  destruct (emits_self _ (sep_smaller_nonsiblings_examine_emits fl t
                            (load_center t T) (box_level t T))) as [He Hn].
  apply NoDup_bind; [| |by apply colleagues_of_NoDup].
  - intros K1 K2 x HK1 HK2 Hx1 Hx2.
    assert (Hlev : ∀ K, K ∈ colleagues_of t T →
              K < nboxes t ∧ box_level t K = box_level t T).
    { intros K HK. unfold colleagues_of in HK.
      destruct (T =? 0); [by apply elem_of_nil in HK|].
      apply (colleagues_rec_sound t Hwf) in HK
        as (HKb & _ & k & _ & HlA & HlB & _);
        [|apply (wf_nboxes t Hwf)|apply (wf_root_level t Hwf)].
      split; [done|lia]. }
    destruct (Hlev K1 HK1) as [Hb1 Hl1]. destruct (Hlev K2 HK2) as [Hb2 Hl2].
    apply (walk_rec_descendant t Hwf) in Hx1 as (_ & k1 & _ & Hk1 & Ha1);
      [|done|done].
    apply (walk_rec_descendant t Hwf) in Hx2 as (_ & k2 & _ & Hk2 & Ha2);
      [|done|done].
    assert (k1 = k2) as -> by lia. congruence.
  - intros K HK. apply walk_rec_NoDup; try done.
    by apply (colleagues_of_lt t Hwf T).
Qed.


(* ================================================================= *)
(** ** The walking kernels: no box twice *)

(** X4 (colleagues, list 1, list 3): when the slots of every box hold
    different children, none of the three walking kernels lists a box
    twice. *)
Theorem walking_kernels_no_duplicates (fl : box_flags_enum) (t : Tree)
    (NLEVELS fuel : nat) (target_boxes : list nat) (i : nat) :
  wf_links t → wf_slots t → nlevels t ≤ NLEVELS →
  walk_bound (nchildren t) (nlevels t - 1) ≤ fuel →
  target_boxes !!! i < nboxes t →
  ∃ starts lists colleagues list1 list3,
    colleagues_table t NLEVELS fuel = Done (starts, lists)
    ∧ colleagues_generate t NLEVELS fuel (target_boxes !!! i)
      = Done colleagues
    ∧ neighbor_source_boxes_generate fl t NLEVELS fuel target_boxes i
      = Done list1
    ∧ sep_smaller_nonsiblings_generate fl t NLEVELS fuel target_boxes
        starts lists i = Done list3
    ∧ NoDup colleagues ∧ NoDup list1 ∧ NoDup list3.
Proof.
  intros Hl Hslots HN Hfuel HT.
  destruct (colleagues_table_correct t NLEVELS fuel Hl HN Hfuel)
    as (starts & lists & Htab & Hslice).
  exists starts, lists, (colleagues_of t (target_boxes !!! i)),
    (neighbor_source_boxes_of fl t (target_boxes !!! i)),
    (sep_smaller_nonsiblings_of fl t (target_boxes !!! i)).
  split_and!; [done| | | | | |].
  - by apply colleagues_generate_correct.
  - by apply neighbor_source_boxes_generate_correct.
  - by apply sep_smaller_nonsiblings_generate_correct.
  - by apply colleagues_of_NoDup.
  - by apply neighbor_source_boxes_of_NoDup.
  - by apply sep_smaller_nonsiblings_of_NoDup.
Qed.

Lemma walking_kernels_no_duplicates_witness :
  ∃ starts lists colleagues list1 list3,
    colleagues_table refined_quadrant 10 84 = Done (starts, lists)
    ∧ colleagues_generate refined_quadrant 10 84
        ([2; 3; 4; 5; 6; 7; 8] !!! 0) = Done colleagues
    ∧ neighbor_source_boxes_generate boxtree_flags refined_quadrant 10 84
        [2; 3; 4; 5; 6; 7; 8] 0 = Done list1
    ∧ sep_smaller_nonsiblings_generate boxtree_flags refined_quadrant 10 84
        [2; 3; 4; 5; 6; 7; 8] starts lists 0 = Done list3
    ∧ NoDup colleagues ∧ NoDup list1 ∧ NoDup list3.
Proof.
  apply (walking_kernels_no_duplicates boxtree_flags refined_quadrant 10 84
           [2; 3; 4; 5; 6; 7; 8] 0).
  - apply check_links_sound. vm_compute. reflexivity.
  - apply check_slots_sound. vm_compute. reflexivity.
  - vm_compute. lia.
  - vm_compute. lia.
  - vm_compute. lia.
Defined.


(* ================================================================= *)
(** ** Level starts of an arbitrary box list *)

Lemma extract_kernel_keeps_last (t : Tree) (L idxs r : list nat) :
  (∀ i, i ∈ idxs → box_level t (L !!! i) < nlevels t) →
  length r = nlevels t + 1 →
  let r' := foldl (extract_level_start_box_nrs_operation t L) r idxs in
  length r' = nlevels t + 1 ∧ r' !!! nlevels t = r !!! nlevels t.
Proof.
  revert r. induction idxs as [|i idxs IH]; intros r Hlev Hlen; [done|].
  simpl.
  assert (Hi : box_level t (L !!! i) < nlevels t)
    by (apply Hlev, elem_of_cons; by left).
  assert (Hrest : ∀ j, j ∈ idxs → box_level t (L !!! j) < nlevels t)
    by (intros j Hj; apply Hlev, elem_of_cons; by right).
  unfold extract_level_start_box_nrs_operation at 2 4.
  destruct (_ && _).
  - destruct (IH (<[box_level t (L !!! i) := i]> r) Hrest) as [H1 H2].
    { by rewrite length_insert. }
    split; [done|]. rewrite H2.
    apply list_lookup_total_insert_ne. lia.
  - by apply IH.
Qed.

(** X5 ([extract_level_start_box_nrs] of [__call__]): for any list of boxes
    whose levels are levels of the tree, in whatever order, the result has
    [nlevels + 1] entries, starts at [0], ends at the length of the list,
    does not decrease, and the slices between consecutive entries, put
    together, are the list. *)
Theorem extract_level_start_box_nrs_partitions (t : Tree)
    (box_list : list nat) :
  Forall (λ b, box_level t b < nlevels t) box_list →
  let level_start := extract_level_start_box_nrs t box_list in
  length level_start = nlevels t + 1
  ∧ level_start !!! 0 = 0
  ∧ level_start !!! nlevels t = length box_list
  ∧ (∀ l, l < nlevels t → level_start !!! l ≤ level_start !!! (l + 1))
  ∧ concat ((λ l, py_slice box_list (level_start !!! l)
                    (level_start !!! (l + 1)))
            <$> seq 0 (nlevels t))
    = box_list.
Proof.
  intros Hall. rewrite Forall_forall in Hall.
  unfold extract_level_start_box_nrs. cbv zeta.
  set (r0 := replicate (nlevels t + 1) (length box_list)).
  destruct (extract_kernel_keeps_last t box_list
              (seq 1 (length box_list - 1)) r0) as [Hlen Hlast].
  { intros i Hi. apply elem_of_seq in Hi. apply Hall.
    apply list_elem_of_lookup_total_2. lia. }
  { unfold r0. by rewrite length_replicate. }
  set (r1 := foldl _ r0 _) in *.
  assert (Hr0 : r0 !!! nlevels t = length box_list).
  { unfold r0. apply lookup_total_replicate_2. lia. }
  set (r2 := <[0 := 0]> r1).
  assert (Hlen2 : length r2 = nlevels t + 1)
    by (unfold r2; by rewrite length_insert).
  destruct (postprocess_unoccupied_spec (nlevels t) (length box_list) r2
              ltac:(lia)) as (Hplen & Hsame & Hlow).
  set (r := postprocess_unoccupied _ _ r2) in *.
  assert (Hend : r !!! nlevels t = length box_list).
  { rewrite Hsame by lia. unfold r2.
    destruct (decide (nlevels t = 0)) as [Hz|Hnz].
    - rewrite Hz. rewrite list_lookup_total_insert_eq by lia.
      destruct box_list as [|b bl]; [done|].
      specialize (Hall b ltac:(by left)). lia.
    - rewrite list_lookup_total_insert_ne by lia. by rewrite Hlast. }
  assert (Hzero : r !!! 0 = 0).
  { destruct (decide (nlevels t = 0)) as [Hz|Hnz].
    - rewrite Hsame by lia. unfold r2.
      apply list_lookup_total_insert_eq. lia.
    - destruct (Hlow 0 ltac:(lia)) as (_ & Hle & _).
      specialize (Hle 0 ltac:(lia)). unfold r2 in Hle.
      rewrite list_lookup_total_insert_eq in Hle by lia. lia. }
  assert (Hmono : ∀ l, l < nlevels t → r !!! l ≤ r !!! (l + 1)).
  { intros l Hl. destruct (Hlow l Hl) as (Hp & _ & _ & Hm).
    destruct (decide (l + 1 = nlevels t)) as [He|Hne].
    - rewrite He, Hend. done.
    - apply Hm. lia. }
  split_and!; [lia|done|done|done|].
  rewrite concat_slices by done. rewrite Hend. by rewrite take_ge.
Qed.

Lemma extract_level_start_box_nrs_partitions_witness :
  let level_start := extract_level_start_box_nrs refined_quadrant [7; 1; 0; 1] in
  length level_start = nlevels refined_quadrant + 1
  ∧ level_start !!! 0 = 0
  ∧ level_start !!! nlevels refined_quadrant = length [7; 1; 0; 1]
  ∧ (∀ l, l < nlevels refined_quadrant →
       level_start !!! l ≤ level_start !!! (l + 1))
  ∧ concat ((λ l, py_slice [7; 1; 0; 1] (level_start !!! l)
                    (level_start !!! (l + 1)))
            <$> seq 0 (nlevels refined_quadrant))
    = [7; 1; 0; 1].
Proof.
  apply (extract_level_start_box_nrs_partitions refined_quadrant [7; 1; 0; 1]).
  repeat constructor; vm_compute; lia.
Defined.


(* ================================================================= *)
(** ** The lists for any adjacency test *)

(** The kernels with exact coordinates are the kernels over any coordinate
    arithmetic at [load_center] and [is_adjacent_or_overlapping]. *)
Lemma kernels_at_the_rationals (fl : box_flags_enum) (t : Tree)
    (NLEVELS fuel : nat) (target_boxes starts lists : list nat) (b : nat) :
  colleagues_generate t NLEVELS fuel b
  = colleagues_generate_in t NLEVELS (load_center t)
      (is_adjacent_or_overlapping t) fuel b
  ∧ neighbor_source_boxes_generate fl t NLEVELS fuel target_boxes b
    = neighbor_source_boxes_generate_in fl t NLEVELS (load_center t)
        (is_adjacent_or_overlapping t) fuel target_boxes b
  ∧ sep_siblings_generate t starts lists b
    = sep_siblings_generate_in t (load_center t)
        (is_adjacent_or_overlapping t) starts lists b
  ∧ sep_smaller_nonsiblings_generate fl t NLEVELS fuel target_boxes
      starts lists b
    = sep_smaller_nonsiblings_generate_in fl t NLEVELS (load_center t)
        (is_adjacent_or_overlapping t) fuel target_boxes starts lists b
  ∧ sep_bigger_nonsiblings_generate fl t starts lists b
    = sep_bigger_nonsiblings_generate_in fl t (load_center t)
        (is_adjacent_or_overlapping t) starts lists b
  ∧ colleagues_table t NLEVELS fuel
    = colleagues_table_in t NLEVELS (load_center t)
        (is_adjacent_or_overlapping t) fuel.
Proof. repeat split. Qed.

Lemma NoDup_bind_fmap {A B C} (f : A → B) (g : B → list C) (l : list A) :
  NoDup ((f <$> l) ≫= g) → NoDup (l ≫= (λ i, g (f i))).
Proof. by rewrite list_fmap_bind. Qed.

(** What follows holds for the kernels over any coordinate type and any
    adjacency test: it rests on the links of the tree alone. *)
Section AnyTest.

Context {coord_vec_t : Type}.
Variable fl : box_flags_enum.
Variable t : Tree.
Variable load_center_in : nat → coord_vec_t.
Variable a_or_o : coord_vec_t → nat → nat → bool.
Hypothesis Hwf : wf_links t.

Let test (A B : nat) : bool := passes t load_center_in a_or_o A B.

Lemma colleagues_in_sound (A h L b x : nat) :
  b < nboxes t → box_level t b = L →
  x ∈ walk_rec t (colleagues_examine_in a_or_o A (load_center_in A)
                    (box_level t A)) h L b →
  x < nboxes t ∧ x ≠ A ∧
  ∃ k, 1 ≤ k ∧ box_level t A = L + k ∧ box_level t x = L + k
       ∧ ancestor t k x = b
       ∧ ∀ j, j < k → test A (ancestor t j x) = true.
Proof.
  revert L b. induction h as [|h IH]; intros L b Hb HL;
    rewrite elem_of_walk_rec; intros (m & Hm & Hc & Hx);
    destruct (wf_child t Hwf b m Hb Hm Hc) as (Hcn & Hcl & _ & Hcp);
    unfold colleagues_examine_in in Hx;
    destruct (a_or_o (load_center_in A) (box_level t A) (box_child t m b))
      eqn:Hadj;
    try (destruct Hx as [Hx|[? _]]; [by apply elem_of_nil in Hx|done]).
  - destruct ((L + 1 =? box_level t A) && negb (box_child t m b =? A)) eqn:E;
      simpl in Hx.
    + apply andb_true_iff in E as [E1 E2]. apply Nat.eqb_eq in E1.
      apply negb_true_iff, Nat.eqb_neq in E2.
      destruct Hx as [Hx|[? _]]; [|done]. apply list_elem_of_singleton in Hx as ->.
      split; [done|]. split; [done|]. exists 1.
      repeat split; try lia; [done|].
      intros j Hj. replace j with 0 by lia. done.
    + destruct Hx as [Hx|(_ & h' & ? & _)]; [by apply elem_of_nil in Hx|done].
  - destruct ((L + 1 =? box_level t A) && negb (box_child t m b =? A)) eqn:E;
      simpl in Hx.
    + apply andb_true_iff in E as [E1 E2]. apply Nat.eqb_eq in E1.
      apply negb_true_iff, Nat.eqb_neq in E2.
      destruct Hx as [Hx|[? _]]; [|done]. apply list_elem_of_singleton in Hx as ->.
      split; [done|]. split; [done|]. exists 1.
      repeat split; try lia; [done|].
      intros j Hj. replace j with 0 by lia. done.
    + destruct Hx as [Hx|(_ & h' & [= <-] & Hx)]; [by apply elem_of_nil in Hx|].
      apply IH in Hx as (Hxn & HxA & k & Hk & HlA & Hlx & Hanc & Hadjs);
        [|done|lia].
      split; [done|]. split; [done|]. exists (S k).
      repeat split; try lia.
      * by rewrite ancestor_S, Hanc.
      * intros j Hj. destruct (decide (j = k)) as [->|]; [by rewrite Hanc|].
        apply Hadjs. lia.
Qed.

Lemma colleagues_in_complete (A k h L b x : nat) :
  b < nboxes t → box_level t b = L → x < nboxes t → x ≠ A →
  1 ≤ k → k ≤ S h → box_level t A = L + k → box_level t x = L + k →
  ancestor t k x = b →
  (∀ j, j < k → test A (ancestor t j x) = true) →
  x ∈ walk_rec t (colleagues_examine_in a_or_o A (load_center_in A)
                    (box_level t A)) h L b.
Proof.
  revert h L b. induction k as [|k IH]; intros h L b Hb HL Hx HxA Hk Hkh HlA Hlx Hanc Hadj;
    [lia|].
  assert (Hkadj := Hadj k ltac:(lia)).
  remember (ancestor t k x) as c eqn:Ec.
  assert (Hc : c < nboxes t) by (subst c; by apply ancestor_lt).
  assert (Hcl : box_level t c = L + 1)
    by (subst c; rewrite ancestor_level by done; lia).
  assert (Hc0 : 0 < c).
  { destruct (decide (c = 0)) as [E|]; [|lia].
    rewrite E, (wf_root_level t Hwf) in Hcl. lia. }
  destruct (wf_parent t Hwf c) as (_ & m & Hm & Hmc); [lia|].
  rewrite ancestor_S, <- Ec in Hanc. rewrite Hanc in Hmc.
  apply elem_of_walk_rec. exists m. split; [done|]. split; [lia|].
  rewrite Hmc. unfold colleagues_examine_in.
  unfold test, passes in Hkadj. rewrite Hkadj.
  destruct (decide (k = 0)) as [->|Hk0].
  - left. simpl in Ec. subst c.
    assert ((L + 1 =? box_level t A) = true) as -> by (apply Nat.eqb_eq; lia).
    assert ((x =? A) = false) as -> by by apply Nat.eqb_neq.
    simpl. by apply list_elem_of_singleton.
  - right.
    assert ((L + 1 =? box_level t A) = false) as -> by (apply Nat.eqb_neq; lia).
    simpl. split; [done|]. destruct h as [|h']; [lia|]. exists h'.
    split; [done|]. apply IH; try done; try lia.
    intros j Hj. apply Hadj. lia.
Qed.

(** The colleagues of [A] for the test: the descent from the root. *)
Let colleagues_in (A : nat) : list nat :=
  if A =? 0 then []
  else walk_rec t (colleagues_examine_in a_or_o A (load_center_in A)
                     (box_level t A)) (nlevels t - 1) 0 0.

Lemma elem_of_colleagues_in (A x : nat) :
  A < nboxes t →
  x ∈ colleagues_in A ↔
  x < nboxes t ∧ x ≠ A ∧ box_level t x = box_level t A
  ∧ ∀ j, j < box_level t A → test A (ancestor t j x) = true.
Proof.
  intros HA. unfold colleagues_in. split.
  - destruct (A =? 0); [intros H; by apply elem_of_nil in H|].
    intros Hx. apply colleagues_in_sound in Hx
      as (Hxb & Hne & k & Hk & HlA & Hlx & Hanc & Hall);
      [|apply (wf_nboxes t Hwf)|apply (wf_root_level t Hwf)].
    split_and!; [done|done|lia|]. intros j Hj. apply Hall. lia.
  - intros (Hxb & Hne & Hl & Hall).
    assert (HA0 : 0 < box_level t A).
    { destruct (decide (box_level t A = 0)) as [Hz|]; [|lia].
      pose proof (level_0_root t Hwf A HA Hz).
      assert (x = 0) by (apply (level_0_root t Hwf); [done|lia]). lia. }
    assert (HAn : A ≠ 0).
    { intros ->. rewrite (wf_root_level t Hwf) in HA0. lia. }
    apply Nat.eqb_neq in HAn as HAe. rewrite HAe.
    pose proof (level_lt_nlevels t Hwf A ltac:(lia)) as Hlt.
    apply (colleagues_in_complete A (box_level t A)); try done; try lia.
    all: first [ apply (wf_nboxes t Hwf) | apply (wf_root_level t Hwf)
               | rewrite (wf_root_level t Hwf); lia
               | apply (ancestor_root t Hwf); [done|lia] ].
Qed.

Lemma colleagues_generate_in_correct (NLEVELS fuel A : nat) :
  nlevels t ≤ NLEVELS →
  walk_bound (nchildren t) (nlevels t - 1) ≤ fuel →
  colleagues_generate_in t NLEVELS load_center_in a_or_o fuel A
  = Done (colleagues_in A).
Proof.
  intros HN Hfuel. unfold colleagues_generate_in, colleagues_in.
  destruct (A =? 0); [done|].
  rewrite (walk_loop_correct t NLEVELS _ (nlevels t - 1)); try done.
  apply walk_fits_levels; try done.
  - apply (wf_nboxes t Hwf).
  - lia.
  - lia.
Qed.

Lemma colleagues_table_in_correct (NLEVELS fuel : nat) :
  nlevels t ≤ NLEVELS →
  walk_bound (nchildren t) (nlevels t - 1) ≤ fuel →
  ∃ starts lists,
    colleagues_table_in t NLEVELS load_center_in a_or_o fuel
    = Done (starts, lists)
    ∧ ∀ b, b < nboxes t → csr_slice starts lists b = colleagues_in b.
Proof.
  intros HN Hfuel. unfold colleagues_table_in.
  rewrite (run_keys_Done _ colleagues_in).
  2:{ intros k _. by apply colleagues_generate_in_correct. }
  simpl. eexists _, _. split; [done|].
  intros b Hb. rewrite csr_slice_correct by (by rewrite length_fmap, length_seq).
  rewrite (list_lookup_total_fmap colleagues_in) by (by rewrite length_seq).
  by rewrite lookup_total_seq_lt.
Qed.

Lemma colleagues_in_lt (A x : nat) : x ∈ colleagues_in A → x < nboxes t.
Proof.
  unfold colleagues_in. destruct (A =? 0); [intros H; by apply elem_of_nil in H|].
  intros Hx. apply colleagues_in_sound in Hx as [Hx _]; [done| |].
  - apply (wf_nboxes t Hwf).
  - apply (wf_root_level t Hwf).
Qed.

Lemma colleagues_in_level (A x : nat) :
  x ∈ colleagues_in A → box_level t x = box_level t A ∧ 1 ≤ box_level t x.
Proof.
  unfold colleagues_in. destruct (A =? 0); [intros H; by apply elem_of_nil in H|].
  intros Hx. apply colleagues_in_sound in Hx as (_ & _ & k & ? & ? & ? & _);
    [lia| |].
  - apply (wf_nboxes t Hwf).
  - apply (wf_root_level t Hwf).
Qed.

(** *** List 1 *)

Lemma neighbor_source_boxes_examine_in_eq (c : coord_vec_t) (l L b : nat) :
  neighbor_source_boxes_examine_in fl t a_or_o c l L b
  = (if a_or_o c l b && flag_set (box_flag t b) (BOX_HAS_OWN_SOURCES fl)
     then [b] else [],
     a_or_o c l b && flag_set (box_flag t b) (BOX_HAS_CHILD_SOURCES fl)).
Proof.
  unfold neighbor_source_boxes_examine_in. by destruct (a_or_o c l b).
Qed.

Let neighbors_in (T : nat) : list nat :=
  walk_rec t (neighbor_source_boxes_examine_in fl t a_or_o
                (load_center_in T) (box_level t T)) (nlevels t - 1) 0 0.

Lemma neighbor_source_boxes_generate_in_correct (NLEVELS fuel : nat)
    (target_boxes : list nat) (i : nat) :
  nlevels t ≤ NLEVELS →
  walk_bound (nchildren t) (nlevels t - 1) ≤ fuel →
  neighbor_source_boxes_generate_in fl t NLEVELS load_center_in a_or_o fuel
    target_boxes i
  = Done (neighbors_in (target_boxes !!! i)).
Proof.
  intros HN Hfuel.
  unfold neighbor_source_boxes_generate_in, neighbors_in.
  rewrite (walk_loop_correct t NLEVELS _ (nlevels t - 1)); try done.
  apply walk_fits_levels; try done.
  - apply (wf_nboxes t Hwf).
  - lia.
  - lia.
Qed.

Lemma elem_of_neighbors_in (T x : nat) :
  x ∈ neighbors_in T ↔
  0 < x < nboxes t
  ∧ test T x = true
  ∧ flag_set (box_flag t x) (BOX_HAS_OWN_SOURCES fl) = true
  ∧ ∀ j, 1 ≤ j < box_level t x →
      test T (ancestor t j x) = true
      ∧ flag_set (box_flag t (ancestor t j x)) (BOX_HAS_CHILD_SOURCES fl)
        = true.
Proof.
  unfold neighbors_in.
  rewrite (walk_rec_path t Hwf _ _ _
             (neighbor_source_boxes_examine_in_eq _ _));
    [|apply (wf_nboxes t Hwf)].
  rewrite (wf_root_level t Hwf). split.
  - intros (Hx & He & k & Hk & Hlx & _ & Hd).
    apply andb_true_iff in He as [Ha Ho].
    assert (x ≠ 0).
    { intros ->. rewrite (wf_root_level t Hwf) in Hlx. lia. }
    split_and!; [lia|done|done|done|].
    intros j Hj. apply andb_true_iff. apply Hd. lia.
  - intros (Hx & Ha & Ho & Hd). unfold test, passes in Ha.
    split_and!; [lia|by rewrite Ha, Ho|].
    exists (box_level t x).
    pose proof (level_lt_nlevels t Hwf x Hx) as Hlt.
    assert (1 ≤ box_level t x).
    { destruct (decide (box_level t x = 0)) as [Hz|]; [|lia].
      apply (level_0_root t Hwf) in Hz; lia. }
    split_and!; [lia|lia|done|apply (ancestor_root t Hwf); lia|].
    intros j Hj. apply andb_true_iff. apply Hd. lia.
Qed.

(** *** List 3 *)

Lemma sep_smaller_nonsiblings_examine_in_eq (c : coord_vec_t) (l L b : nat) :
  sep_smaller_nonsiblings_examine_in fl t a_or_o c l L b
  = (if negb (a_or_o c l b) then [b] else [],
     a_or_o c l b && flag_set (box_flag t b) (BOX_HAS_CHILDREN fl)).
Proof.
  unfold sep_smaller_nonsiblings_examine_in. by destruct (a_or_o c l b).
Qed.

Let smaller_in (T : nat) : list nat :=
  K ← colleagues_in T;
  walk_rec t (sep_smaller_nonsiblings_examine_in fl t a_or_o
                (load_center_in T) (box_level t T)) (nlevels t - 1) 0 K.

Lemma sep_smaller_nonsiblings_generate_in_correct (NLEVELS fuel : nat)
    (target_boxes starts lists : list nat) (i : nat) :
  nlevels t ≤ NLEVELS →
  walk_bound (nchildren t) (nlevels t - 1) ≤ fuel →
  (∀ b, b < nboxes t → csr_slice starts lists b = colleagues_in b) →
  target_boxes !!! i < nboxes t →
  sep_smaller_nonsiblings_generate_in fl t NLEVELS load_center_in a_or_o
    fuel target_boxes starts lists i
  = Done (smaller_in (target_boxes !!! i)).
Proof.
  intros HN Hfuel Hslice Hbox.
  unfold sep_smaller_nonsiblings_generate_in, smaller_in.
  set (box_id := target_boxes !!! i) in *.
  rewrite <- (Hslice box_id Hbox). unfold csr_slice.
  assert (Hall : ∀ j, j ∈ index_range (starts !!! box_id)
                            (starts !!! (box_id + 1)) →
                      lists !!! j < nboxes t).
  { intros j Hj. apply (colleagues_in_lt box_id).
    rewrite <- Hslice by done. unfold csr_slice.
    apply list_elem_of_fmap. by exists j. }
  revert Hall. generalize (index_range (starts !!! box_id)
                             (starts !!! (box_id + 1))).
  intros idxs.
  rewrite <- (app_nil_l (_ ≫= _)). generalize (@nil nat).
  induction idxs as [|j idxs IH]; intros out Hall.
  { simpl. by rewrite app_nil_r. }
  simpl.
  rewrite (walk_loop_correct t NLEVELS _ (nlevels t - 1)); try done.
  - rewrite IH.
    + by rewrite <- app_assoc.
    + intros j' Hj'. apply Hall, elem_of_cons. by right.
  - apply walk_fits_levels; try done.
    + apply Hall, elem_of_cons. by left.
    + lia.
    + lia.
Qed.

Lemma elem_of_smaller_in (T x : nat) :
  T < nboxes t →
  x ∈ smaller_in T ↔
  x < nboxes t
  ∧ test T x = false
  ∧ ∃ k, 1 ≤ k ∧ ancestor t k x ∈ colleagues_in T
       ∧ ∀ j, 1 ≤ j < k →
           test T (ancestor t j x) = true
           ∧ flag_set (box_flag t (ancestor t j x)) (BOX_HAS_CHILDREN fl)
             = true.
Proof.
  intros HT. unfold smaller_in. rewrite list_elem_of_bind. split.
  - intros (K & Hx & HK).
    pose proof (colleagues_in_lt T K HK) as HKb.
    apply (walk_rec_path t Hwf _ _ _
             (sep_smaller_nonsiblings_examine_in_eq _ _)) in Hx
      as (Hx & He & k & Hk & Hlx & Hax & Hd); [|done].
    apply negb_true_iff in He.
    split_and!; [done|done|]. exists k. split_and!; [lia|by rewrite Hax|].
    intros j Hj. apply andb_true_iff. apply Hd. lia.
  - intros (Hx & Hna & k & Hk & HK & Hd).
    pose proof (colleagues_in_lt T _ HK) as HKb.
    pose proof (colleagues_in_level T _ HK) as [HKl HK1].
    rewrite (ancestor_level t Hwf) in HKl, HK1 by done.
    exists (ancestor t k x). split; [|done].
    apply (walk_rec_path t Hwf _ _ _
             (sep_smaller_nonsiblings_examine_in_eq _ _)); [done|].
    unfold test, passes in Hna.
    split_and!; [done|by rewrite Hna|].
    assert (Hx0 : 0 < x < nboxes t).
    { split; [|done]. destruct (decide (x = 0)) as [->|]; [|lia].
      rewrite (wf_root_level t Hwf) in HK1. lia. }
    pose proof (level_lt_nlevels t Hwf x Hx0).
    exists k. split_and!; [lia|lia| |done|].
    + rewrite (ancestor_level t Hwf) by done. lia.
    + intros j Hj. apply andb_true_iff. apply Hd. lia.
Qed.

Lemma smaller_in_level (T x : nat) :
  T < nboxes t → x ∈ smaller_in T → box_level t T < box_level t x.
Proof.
  intros HT Hx. apply elem_of_smaller_in in Hx as (Hx & _ & k & Hk & HK & _);
    [|done].
  apply colleagues_in_level in HK as [HK HK1].
  rewrite (ancestor_level t Hwf) in HK, HK1 by done. lia.
Qed.

(** *** List 2 *)

Lemma elem_of_sep_siblings_in (starts lists : list nat) (B x : nat) :
  x ∈ sep_siblings_generate_in t load_center_in a_or_o starts lists B ↔
  box_parent t B ≠ B
  ∧ ∃ P m, P ∈ csr_slice starts lists (box_parent t B)
           ∧ m < nchildren t ∧ box_child t m P = x
           ∧ test B x = false.
Proof.
  unfold sep_siblings_generate_in, csr_slice, test, passes.
  destruct (box_parent t B =? B) eqn:E.
  { apply Nat.eqb_eq in E. split; [intros H; by apply elem_of_nil in H|].
    by intros [H _]. }
  apply Nat.eqb_neq in E. rewrite list_elem_of_bind. split.
  - intros (i & Hx & Hi). split; [done|].
    apply list_elem_of_bind in Hx as (m & Hx & Hm).
    apply elem_of_seq in Hm.
    destruct (a_or_o (load_center_in B) (box_level t B)
                (box_child t m (lists !!! i))) eqn:Ha; simpl in Hx;
      [by apply elem_of_nil in Hx|].
    apply list_elem_of_singleton in Hx. subst x.
    exists (lists !!! i), m. repeat split; try done; [|lia].
    apply list_elem_of_fmap. by exists i.
  - intros (_ & P & m & HP & Hm & Hc & Ha).
    apply list_elem_of_fmap in HP as (i & -> & Hi).
    exists i. split; [|done]. apply list_elem_of_bind. exists m.
    split; [|apply elem_of_seq; lia].
    rewrite Hc, Ha. simpl. by apply list_elem_of_singleton.
Qed.

Lemma sep_siblings_in_level (starts lists : list nat) (B x : nat) :
  B < nboxes t →
  (∀ b, b < nboxes t → csr_slice starts lists b = colleagues_in b) →
  x ∈ sep_siblings_generate_in t load_center_in a_or_o starts lists B →
  test B x = false ∧ (x = 0 ∨ box_level t x = box_level t B).
Proof.
  intros HB Hslice Hx.
  apply elem_of_sep_siblings_in in Hx as (Hp & P & m & HP & Hm & Hc & Hna).
  split; [done|].
  destruct (decide (x = 0)) as [|Hx0]; [by left|right].
  assert (HB0 : 0 < B < nboxes t).
  { split; [|done]. destruct (decide (B = 0)) as [->|]; [|lia].
    by rewrite (wf_root_parent t Hwf) in Hp. }
  destruct (parent_of_box t Hwf B HB0) as [Hpb Hpl].
  rewrite Hslice in HP by done.
  pose proof (colleagues_in_lt _ _ HP) as HPb.
  apply colleagues_in_level in HP as [HPl _].
  rewrite <- Hc in Hx0.
  destruct (wf_child t Hwf P m HPb Hm Hx0) as (_ & Hcl & _).
  rewrite Hc in Hcl. lia.
Qed.

(** *** List 4 *)

Lemma found_closer_parent_in_false (cc : coord_vec_t)
    (walk_level check_walk_level cp : nat) :
  walk_level < check_walk_level →
  found_closer_parent_in t a_or_o cc walk_level check_walk_level cp = false ↔
  ∀ j, 1 ≤ j < check_walk_level - walk_level →
    a_or_o cc walk_level (ancestor t j cp) = true.
Proof.
  revert cp. induction check_walk_level as [|c IH]; intros cp Hlt; [lia|].
  simpl. destruct (c =? walk_level) eqn:E.
  { apply Nat.eqb_eq in E. split; [|done]. intros _ j Hj. lia. }
  apply Nat.eqb_neq in E. split.
  - intros Hf j Hj.
    destruct (a_or_o cc walk_level (box_parent t cp)) eqn:Ha; simpl in Hf;
      [|done].
    destruct j as [|[|j]]; [lia|done|].
    rewrite ancestor_parent. apply IH; [lia|done|lia].
  - intros Hadj.
    pose proof (Hadj 1 ltac:(lia)) as H1. simpl in H1. rewrite H1. simpl.
    apply IH; [lia|].
    intros j Hj. rewrite <- ancestor_parent. apply Hadj. lia.
Qed.

Lemma elem_of_sep_bigger_loop_in (starts lists : list nat) (A : nat)
    (cA : coord_vec_t) (lA wl cp B : nat) :
  B ∈ sep_bigger_nonsiblings_loop_in fl t load_center_in a_or_o starts lists
        A cA lA wl cp ↔
  ∃ k, 1 ≤ k < wl
    ∧ B ∈ csr_slice starts lists (ancestor t k cp)
    ∧ a_or_o cA lA B = false
    ∧ flag_set (box_flag t B) (BOX_HAS_OWN_SOURCES fl) = true
    ∧ found_closer_parent_in t a_or_o (load_center_in B) (wl - k) lA A
      = false.
Proof.
  split.
  - revert cp. induction wl as [|wl IH]; intros cp HB; simpl in HB;
      [by apply elem_of_nil in HB|].
    destruct (wl =? 0) eqn:E; [by apply elem_of_nil in HB|].
    apply Nat.eqb_neq in E.
    apply elem_of_app in HB as [HB|HB].
    + exists 1. split; [lia|]. simpl.
      apply list_elem_of_bind in HB as (i & HB & Hi).
      destruct (a_or_o cA lA (lists !!! i)) eqn:Ha;
        simpl in HB; [by apply elem_of_nil in HB|].
      destruct (flag_set (box_flag t (lists !!! i)) (BOX_HAS_OWN_SOURCES fl))
        eqn:Hfl; [|by apply elem_of_nil in HB].
      destruct (found_closer_parent_in t a_or_o (load_center_in (lists !!! i))
                  wl lA A)
        eqn:Hfc; simpl in HB; [by apply elem_of_nil in HB|].
      apply list_elem_of_singleton in HB. subst B.
      rewrite Nat.sub_0_r. repeat split; try done.
      unfold csr_slice. apply list_elem_of_fmap. by exists i.
    + apply IH in HB as (k & Hk & HB & Ha & Hfl & Hfc).
      exists (S k). split; [lia|]. rewrite ancestor_parent.
      by replace (S wl - S k) with (wl - k) by lia.
  - intros (k & Hk & HB & Ha & Hfl & Hfc).
    revert cp k Hk HB Hfc.
    induction wl as [|wl IH]; intros cp k Hk HB Hfc; [lia|].
    simpl. destruct (wl =? 0) eqn:E; [apply Nat.eqb_eq in E; lia|].
    apply elem_of_app. destruct (decide (k = 1)) as [->|Hk1].
    + left. simpl in HB. unfold csr_slice in HB.
      apply list_elem_of_fmap in HB as (i & -> & Hi).
      apply list_elem_of_bind. exists i. split; [|done].
      rewrite Ha, Hfl. simpl.
      replace (S wl - 1) with wl in Hfc by lia. rewrite Hfc. simpl. by left.
    + right. destruct k as [|k]; [lia|]. apply (IH _ k); try done; [lia|].
      by rewrite <- ancestor_parent.
Qed.

Lemma elem_of_sep_bigger_in (starts lists : list nat) (A B : nat) :
  A < nboxes t →
  (∀ b, b < nboxes t → csr_slice starts lists b = colleagues_in b) →
  B ∈ sep_bigger_nonsiblings_generate_in fl t load_center_in a_or_o
        starts lists A ↔
  ∃ k, 1 ≤ k < box_level t A
    ∧ B ∈ colleagues_in (ancestor t k A)
    ∧ test A B = false
    ∧ flag_set (box_flag t B) (BOX_HAS_OWN_SOURCES fl) = true
    ∧ ∀ j, 1 ≤ j < k → test B (ancestor t j A) = true.
Proof.
  intros HA Hslice. unfold sep_bigger_nonsiblings_generate_in.
  rewrite elem_of_sep_bigger_loop_in.
  split; intros (k & Hk & HB & Ha & Hfl & Hfc); exists k.
  - rewrite Hslice in HB by (by apply ancestor_lt).
    pose proof (colleagues_in_level _ _ HB) as [HBl _].
    rewrite (ancestor_level t Hwf) in HBl by done.
    split; [lia|]. split_and!; [done|done|done|].
    rewrite found_closer_parent_in_false in Hfc by lia.
    intros j Hj. unfold test, passes. rewrite HBl. apply Hfc. lia.
  - pose proof (colleagues_in_level _ _ HB) as [HBl _].
    rewrite (ancestor_level t Hwf) in HBl by done.
    rewrite Hslice by (by apply ancestor_lt).
    split; [lia|]. split_and!; [done|done|done|].
    rewrite found_closer_parent_in_false by lia.
    intros j Hj. rewrite <- HBl. apply Hfc. lia.
Qed.

(** *** No box twice *)

Lemma colleagues_examine_in_emits (A : nat) (c : coord_vec_t) (l L b : nat) :
  (colleagues_examine_in a_or_o A c l L b).1 = [b]
  ∨ (colleagues_examine_in a_or_o A c l L b).1 = [].
Proof.
  unfold colleagues_examine_in.
  destruct (a_or_o c l b); [|by right].
  destruct ((L + 1 =? l) && negb (b =? A)); [by left|by right].
Qed.

Lemma colleagues_in_NoDup (A : nat) : wf_slots t → NoDup (colleagues_in A).
Proof.
  intros Hslots. unfold colleagues_in.
  destruct (A =? 0); [constructor|].
  destruct (emits_self _ (colleagues_examine_in_emits A (load_center_in A)
                            (box_level t A))) as [He Hn].
  apply walk_rec_NoDup; try done. apply (wf_nboxes t Hwf).
Qed.

Lemma filter_bind_nonzero {A} (f : A → list nat) (l : list A) :
  filter (λ x, x ≠ 0) (l ≫= f) = l ≫= (λ a, filter (λ x, x ≠ 0) (f a)).
Proof.
  induction l as [|a l IH]; [done|].
  by rewrite !bind_cons, filter_app, IH.
Qed.

Lemma sep_siblings_generate_in_eq (starts lists : list nat) (B : nat) :
  sep_siblings_generate_in t load_center_in a_or_o starts lists B
  = if box_parent t B =? B then []
    else
      P ← csr_slice starts lists (box_parent t B);
      m ← seq 0 (nchildren t);
      if negb (a_or_o (load_center_in B) (box_level t B) (box_child t m P))
      then [box_child t m P] else [].
Proof.
  unfold sep_siblings_generate_in, csr_slice.
  destruct (box_parent t B =? B); [done|].
  by rewrite list_fmap_bind.
Qed.

Lemma sep_siblings_in_NoDup (starts lists : list nat) (B : nat) :
  wf_slots t → B < nboxes t →
  (∀ b, b < nboxes t → csr_slice starts lists b = colleagues_in b) →
  NoDup (filter (λ x, x ≠ 0)
           (sep_siblings_generate_in t load_center_in a_or_o starts lists B)).
Proof.
  intros Hslots HB Hslice.
  rewrite sep_siblings_generate_in_eq.
  destruct (box_parent t B =? B) eqn:Ep; [constructor|].
  apply Nat.eqb_neq in Ep.
  assert (HB0 : 0 < B < nboxes t).
  { split; [|done]. destruct (decide (B = 0)) as [->|]; [|lia].
    by rewrite (wf_root_parent t Hwf) in Ep. }
  destruct (parent_of_box t Hwf B HB0) as [Hpb _].
  rewrite Hslice by done.
  rewrite filter_bind_nonzero.
  assert (Hchild : ∀ P m y, P ∈ colleagues_in (box_parent t B) →
            m ∈ seq 0 (nchildren t) →
            y ∈ filter (λ x, x ≠ 0)
                  (if negb (a_or_o (load_center_in B) (box_level t B)
                              (box_child t m P))
                   then [box_child t m P] else []) →
            y = box_child t m P ∧ y ≠ 0 ∧ box_parent t y = P).
  { intros P m y HP Hm Hy. apply elem_of_seq in Hm.
    apply list_elem_of_filter in Hy as [Hy0 Hy].
    destruct (negb _) in Hy; [|by apply elem_of_nil in Hy].
    apply list_elem_of_singleton in Hy. subst y.
    split; [done|]. split; [done|].
    apply (wf_child t Hwf); [by apply (colleagues_in_lt (box_parent t B))
                            |lia|done]. }
  apply NoDup_bind; [| |by apply colleagues_in_NoDup].
  - intros P1 P2 y HP1 HP2 Hy1 Hy2.
    rewrite filter_bind_nonzero in Hy1, Hy2.
    apply list_elem_of_bind in Hy1 as (m1 & Hy1 & Hm1).
    apply list_elem_of_bind in Hy2 as (m2 & Hy2 & Hm2).
    destruct (Hchild P1 m1 y HP1 Hm1 Hy1) as (_ & _ & H1).
    destruct (Hchild P2 m2 y HP2 Hm2 Hy2) as (_ & _ & H2).
    congruence.
  - intros P HP. rewrite filter_bind_nonzero.
    apply NoDup_bind; [| |apply NoDup_seq].
    + intros m1 m2 y Hm1 Hm2 Hy1 Hy2.
      destruct (Hchild P m1 y HP Hm1 Hy1) as (E1 & Hy0 & _).
      destruct (Hchild P m2 y HP Hm2 Hy2) as (E2 & _ & _).
      apply elem_of_seq in Hm1, Hm2.
      apply (Hslots P m1 m2);
        [by apply (colleagues_in_lt (box_parent t B))|lia|lia| |].
      * congruence.
      * congruence.
    + intros m Hm. apply NoDup_filter.
      destruct (negb _); [apply NoDup_singleton|constructor].
Qed.

Lemma sep_bigger_loop_in_NoDup (starts lists : list nat) (A : nat)
    (cA : coord_vec_t) (lA wl cp : nat) :
  wf_slots t →
  (∀ b, b < nboxes t → csr_slice starts lists b = colleagues_in b) →
  cp < nboxes t → box_level t cp = wl →
  NoDup (sep_bigger_nonsiblings_loop_in fl t load_center_in a_or_o
           starts lists A cA lA wl cp).
Proof.
  intros Hslots Hslice. revert cp.
  induction wl as [|wl IH]; intros cp Hcp Hlev; [constructor|].
  simpl. destruct (wl =? 0) eqn:E; [constructor|].
  apply Nat.eqb_neq in E.
  assert (Hcp0 : 0 < cp < nboxes t).
  { split; [|done]. destruct (decide (cp = 0)) as [->|]; [|lia].
    rewrite (wf_root_level t Hwf) in Hlev. lia. }
  destruct (parent_of_box t Hwf cp Hcp0) as [Hpb Hpl].
  apply NoDup_app. split_and!.
  - apply (NoDup_bind_fmap (λ i, lists !!! i)
             (λ x, if negb (a_or_o cA lA x)
                      && flag_set (box_flag t x) (BOX_HAS_OWN_SOURCES fl)
                   then if negb (found_closer_parent_in t a_or_o
                                   (load_center_in x) wl lA A)
                        then [x] else []
                   else [])).
    fold (csr_slice starts lists (box_parent t cp)).
    rewrite Hslice by done.
    apply NoDup_bind; [| |by apply colleagues_in_NoDup].
    + intros x1 x2 y _ _ Hy1 Hy2.
      destruct (_ && _) in Hy1; [|by apply elem_of_nil in Hy1].
      destruct (negb _) in Hy1; [|by apply elem_of_nil in Hy1].
      destruct (_ && _) in Hy2; [|by apply elem_of_nil in Hy2].
      destruct (negb _) in Hy2; [|by apply elem_of_nil in Hy2].
      apply list_elem_of_singleton in Hy1, Hy2. congruence.
    + intros x _. destruct (_ && _); [|constructor].
      destruct (negb _); [apply NoDup_singleton|constructor].
  - intros y Hy1 Hy2.
    apply list_elem_of_bind in Hy1 as (i & Hy1 & Hi).
    destruct (_ && _) in Hy1; [|by apply elem_of_nil in Hy1].
    destruct (negb _) in Hy1; [|by apply elem_of_nil in Hy1].
    apply list_elem_of_singleton in Hy1. subst y.
    assert (H1 : lists !!! i ∈ colleagues_in (box_parent t cp)).
    { rewrite <- Hslice by done. unfold csr_slice.
      apply list_elem_of_fmap. by exists i. }
    apply colleagues_in_level in H1 as [H1 _].
    apply elem_of_sep_bigger_loop_in in Hy2 as (k & Hk & Hy2 & _).
    rewrite Hslice in Hy2 by (by apply ancestor_lt).
    apply colleagues_in_level in Hy2 as [Hy2 _].
    rewrite (ancestor_level t Hwf) in Hy2 by done. lia.
  - apply IH; [done|lia].
Qed.

End AnyTest.


(** X3 (colleagues, [COLLEAGUES_TEMPLATE]): on a tree with linked levels,
    parents and children, for every coordinate type and every adjacency test
    the kernel returns, and a box is among the colleagues of [A] exactly when
    it is another box of the level of [A] and the test of [A] passes at it
    and at each of its ancestors below the root. *)
Theorem colleagues_any_test {coord_vec_t : Type} (t : Tree)
    (load_center_in : nat → coord_vec_t)
    (a_or_o : coord_vec_t → nat → nat → bool) (NLEVELS fuel A : nat) :
  wf_links t → nlevels t ≤ NLEVELS →
  walk_bound (nchildren t) (nlevels t - 1) ≤ fuel →
  A < nboxes t →
  ∃ l, colleagues_generate_in t NLEVELS load_center_in a_or_o fuel A = Done l
     ∧ ∀ x, x ∈ l ↔
         x < nboxes t ∧ x ≠ A ∧ box_level t x = box_level t A
         ∧ ∀ j, j < box_level t A →
             passes t load_center_in a_or_o A (ancestor t j x) = true.
Proof.
  intros Hwf HN Hfuel HA. eexists. split.
  - by apply colleagues_generate_in_correct.
  - intros x. by apply elem_of_colleagues_in.
Qed.

Lemma colleagues_any_test_witness :
  ∃ l, colleagues_generate_in refined_quadrant 10
         (load_center refined_quadrant)
         (is_adjacent_or_overlapping refined_quadrant) 84 6 = Done l
     ∧ ∀ x, x ∈ l ↔
         x < nboxes refined_quadrant ∧ x ≠ 6
         ∧ box_level refined_quadrant x = box_level refined_quadrant 6
         ∧ ∀ j, j < box_level refined_quadrant 6 →
             passes refined_quadrant (load_center refined_quadrant)
               (is_adjacent_or_overlapping refined_quadrant) 6
               (ancestor refined_quadrant j x) = true.
Proof.
  apply (colleagues_any_test refined_quadrant (load_center refined_quadrant)
           (is_adjacent_or_overlapping refined_quadrant) 10 84 6).
  - apply check_links_sound. vm_compute. reflexivity.
  - vm_compute. lia.
  - vm_compute. lia.
  - vm_compute. lia.
Defined.

(** X1 (list 1, [NEIGBHOR_SOURCE_BOXES_TEMPLATE]): on a tree with linked
    levels, parents and children, for every coordinate type and every
    adjacency test the kernel returns, and list 1 of a target box holds
    exactly the boxes other than the root that have sources of their own,
    pass the test of the target box, and whose ancestors below the root all
    pass it and carry [HAS_CHILD_SOURCES]. *)
Theorem neighbor_source_boxes_any_test {coord_vec_t : Type}
    (fl : box_flags_enum) (t : Tree) (load_center_in : nat → coord_vec_t)
    (a_or_o : coord_vec_t → nat → nat → bool) (NLEVELS fuel : nat)
    (target_boxes : list nat) (i : nat) :
  wf_links t → nlevels t ≤ NLEVELS →
  walk_bound (nchildren t) (nlevels t - 1) ≤ fuel →
  ∃ l, neighbor_source_boxes_generate_in fl t NLEVELS load_center_in a_or_o
         fuel target_boxes i = Done l
     ∧ ∀ x, x ∈ l ↔
         0 < x < nboxes t
         ∧ passes t load_center_in a_or_o (target_boxes !!! i) x = true
         ∧ flag_set (box_flag t x) (BOX_HAS_OWN_SOURCES fl) = true
         ∧ ∀ j, 1 ≤ j < box_level t x →
             passes t load_center_in a_or_o (target_boxes !!! i)
               (ancestor t j x) = true
             ∧ flag_set (box_flag t (ancestor t j x))
                 (BOX_HAS_CHILD_SOURCES fl) = true.
Proof.
  intros Hwf HN Hfuel. eexists. split.
  - by apply neighbor_source_boxes_generate_in_correct.
  - intros x. by apply elem_of_neighbors_in.
Qed.

Lemma neighbor_source_boxes_any_test_witness :
  ∃ l, neighbor_source_boxes_generate_in boxtree_flags refined_quadrant 10
         (load_center refined_quadrant)
         (is_adjacent_or_overlapping refined_quadrant) 84
         [2; 3; 4; 5; 6; 7; 8] 3 = Done l
     ∧ ∀ x, x ∈ l ↔
         0 < x < nboxes refined_quadrant
         ∧ passes refined_quadrant (load_center refined_quadrant)
             (is_adjacent_or_overlapping refined_quadrant)
             ([2; 3; 4; 5; 6; 7; 8] !!! 3) x = true
         ∧ flag_set (box_flag refined_quadrant x)
             (BOX_HAS_OWN_SOURCES boxtree_flags) = true
         ∧ ∀ j, 1 ≤ j < box_level refined_quadrant x →
             passes refined_quadrant (load_center refined_quadrant)
               (is_adjacent_or_overlapping refined_quadrant)
               ([2; 3; 4; 5; 6; 7; 8] !!! 3)
               (ancestor refined_quadrant j x) = true
             ∧ flag_set (box_flag refined_quadrant
                           (ancestor refined_quadrant j x))
                 (BOX_HAS_CHILD_SOURCES boxtree_flags) = true.
Proof.
  apply (neighbor_source_boxes_any_test boxtree_flags refined_quadrant
           (load_center refined_quadrant)
           (is_adjacent_or_overlapping refined_quadrant) 10 84
           [2; 3; 4; 5; 6; 7; 8] 3).
  - apply check_links_sound. vm_compute. reflexivity.
  - vm_compute. lia.
  - vm_compute. lia.
Defined.

(** X2 (list 3, [SEP_SMALLER_NONSIBLINGS_TEMPLATE]): on a tree with linked
    levels, parents and children, for every coordinate type and every
    adjacency test the kernel returns on the colleague lists of the colleague
    stage, and list 3 of a target box holds exactly the boxes that fail the
    test of the target box and lie below one of its colleagues, with every
    box strictly between them and the colleague passing the test and
    carrying [HAS_CHILDREN]. *)
Theorem sep_smaller_nonsiblings_any_test {coord_vec_t : Type}
    (fl : box_flags_enum) (t : Tree) (load_center_in : nat → coord_vec_t)
    (a_or_o : coord_vec_t → nat → nat → bool) (NLEVELS fuel : nat)
    (target_boxes : list nat) (i : nat) :
  wf_links t → nlevels t ≤ NLEVELS →
  walk_bound (nchildren t) (nlevels t - 1) ≤ fuel →
  target_boxes !!! i < nboxes t →
  ∃ starts lists colleagues l,
    colleagues_table_in t NLEVELS load_center_in a_or_o fuel
    = Done (starts, lists)
    ∧ colleagues_generate_in t NLEVELS load_center_in a_or_o fuel
        (target_boxes !!! i) = Done colleagues
    ∧ sep_smaller_nonsiblings_generate_in fl t NLEVELS load_center_in a_or_o
        fuel target_boxes starts lists i = Done l
    ∧ ∀ x, x ∈ l ↔
        x < nboxes t
        ∧ passes t load_center_in a_or_o (target_boxes !!! i) x = false
        ∧ ∃ k, 1 ≤ k ∧ ancestor t k x ∈ colleagues
             ∧ ∀ j, 1 ≤ j < k →
                 passes t load_center_in a_or_o (target_boxes !!! i)
                   (ancestor t j x) = true
                 ∧ flag_set (box_flag t (ancestor t j x))
                     (BOX_HAS_CHILDREN fl) = true.
Proof.
  intros Hwf HN Hfuel HT.
  destruct (colleagues_table_in_correct t load_center_in a_or_o Hwf
              NLEVELS fuel HN Hfuel) as (starts & lists & Htab & Hslice).
  exists starts, lists. eexists _, _. split_and!; [done| | |].
  - by apply colleagues_generate_in_correct.
  - by apply sep_smaller_nonsiblings_generate_in_correct.
  - intros x. by apply elem_of_smaller_in.
Qed.

Lemma sep_smaller_nonsiblings_any_test_witness :
  ∃ starts lists colleagues l,
    colleagues_table_in refined_quadrant 10 (load_center refined_quadrant)
      (is_adjacent_or_overlapping refined_quadrant) 84
    = Done (starts, lists)
    ∧ colleagues_generate_in refined_quadrant 10
        (load_center refined_quadrant)
        (is_adjacent_or_overlapping refined_quadrant) 84
        ([2; 3; 4; 5; 6; 7; 8] !!! 0) = Done colleagues
    ∧ sep_smaller_nonsiblings_generate_in boxtree_flags refined_quadrant 10
        (load_center refined_quadrant)
        (is_adjacent_or_overlapping refined_quadrant) 84
        [2; 3; 4; 5; 6; 7; 8] starts lists 0 = Done l
    ∧ ∀ x, x ∈ l ↔
        x < nboxes refined_quadrant
        ∧ passes refined_quadrant (load_center refined_quadrant)
            (is_adjacent_or_overlapping refined_quadrant)
            ([2; 3; 4; 5; 6; 7; 8] !!! 0) x = false
        ∧ ∃ k, 1 ≤ k ∧ ancestor refined_quadrant k x ∈ colleagues
             ∧ ∀ j, 1 ≤ j < k →
                 passes refined_quadrant (load_center refined_quadrant)
                   (is_adjacent_or_overlapping refined_quadrant)
                   ([2; 3; 4; 5; 6; 7; 8] !!! 0)
                   (ancestor refined_quadrant j x) = true
                 ∧ flag_set (box_flag refined_quadrant
                               (ancestor refined_quadrant j x))
                     (BOX_HAS_CHILDREN boxtree_flags) = true.
Proof.
  apply (sep_smaller_nonsiblings_any_test boxtree_flags refined_quadrant
           (load_center refined_quadrant)
           (is_adjacent_or_overlapping refined_quadrant) 10 84
           [2; 3; 4; 5; 6; 7; 8] 0).
  - apply check_links_sound. vm_compute. reflexivity.
  - vm_compute. lia.
  - vm_compute. lia.
  - vm_compute. lia.
Defined.

(** X7 (list 4, [SEP_BIGGER_NONSIBLINGS_TEMPLATE]): on a tree with linked
    levels, parents and children, for every coordinate type and every
    adjacency test, on the colleague lists of the colleague stage, list 4 of
    a box [A] holds exactly the boxes [B] with sources of their own that fail
    the test of [A] and are a colleague of an ancestor of [A] below the
    root, [k] levels above [A], such that the test of [B] passes at every
    ancestor of [A] less than [k] levels above [A]. *)
Theorem sep_bigger_nonsiblings_any_test {coord_vec_t : Type}
    (fl : box_flags_enum) (t : Tree) (load_center_in : nat → coord_vec_t)
    (a_or_o : coord_vec_t → nat → nat → bool) (NLEVELS fuel A : nat) :
  wf_links t → nlevels t ≤ NLEVELS →
  walk_bound (nchildren t) (nlevels t - 1) ≤ fuel →
  A < nboxes t →
  ∃ starts lists,
    colleagues_table_in t NLEVELS load_center_in a_or_o fuel
    = Done (starts, lists)
    ∧ ∀ B,
        B ∈ sep_bigger_nonsiblings_generate_in fl t load_center_in a_or_o
              starts lists A ↔
        ∃ k colleagues,
          1 ≤ k < box_level t A
          ∧ colleagues_generate_in t NLEVELS load_center_in a_or_o fuel
              (ancestor t k A) = Done colleagues
          ∧ B ∈ colleagues
          ∧ passes t load_center_in a_or_o A B = false
          ∧ flag_set (box_flag t B) (BOX_HAS_OWN_SOURCES fl) = true
          ∧ ∀ j, 1 ≤ j < k →
              passes t load_center_in a_or_o B (ancestor t j A) = true.
Proof.
  intros Hwf HN Hfuel HA.
  destruct (colleagues_table_in_correct t load_center_in a_or_o Hwf
              NLEVELS fuel HN Hfuel) as (starts & lists & Htab & Hslice).
  exists starts, lists. split; [done|]. intros B.
  rewrite (elem_of_sep_bigger_in fl t load_center_in a_or_o Hwf
             starts lists A B HA Hslice).
  split.
  - intros (k & Hk & HB & Hrest). exists k. eexists. split; [done|].
    split; [by apply colleagues_generate_in_correct|]. by split.
  - intros (k & colleagues & Hk & Hgen & HB & Hrest). exists k.
    rewrite (colleagues_generate_in_correct t load_center_in a_or_o Hwf
               NLEVELS fuel _ HN Hfuel) in Hgen.
    injection Hgen as <-. split; [done|]. by split.
Qed.

Lemma sep_bigger_nonsiblings_any_test_witness :
  ∃ starts lists,
    colleagues_table_in refined_quadrant 10 (load_center refined_quadrant)
      (is_adjacent_or_overlapping refined_quadrant) 84
    = Done (starts, lists)
    ∧ ∀ B,
        B ∈ sep_bigger_nonsiblings_generate_in boxtree_flags refined_quadrant
              (load_center refined_quadrant)
              (is_adjacent_or_overlapping refined_quadrant) starts lists 6 ↔
        ∃ k colleagues,
          1 ≤ k < box_level refined_quadrant 6
          ∧ colleagues_generate_in refined_quadrant 10
              (load_center refined_quadrant)
              (is_adjacent_or_overlapping refined_quadrant) 84
              (ancestor refined_quadrant k 6) = Done colleagues
          ∧ B ∈ colleagues
          ∧ passes refined_quadrant (load_center refined_quadrant)
              (is_adjacent_or_overlapping refined_quadrant) 6 B = false
          ∧ flag_set (box_flag refined_quadrant B)
              (BOX_HAS_OWN_SOURCES boxtree_flags) = true
          ∧ ∀ j, 1 ≤ j < k →
              passes refined_quadrant (load_center refined_quadrant)
                (is_adjacent_or_overlapping refined_quadrant) B
                (ancestor refined_quadrant j 6) = true.
Proof.
  apply (sep_bigger_nonsiblings_any_test boxtree_flags refined_quadrant
           (load_center refined_quadrant)
           (is_adjacent_or_overlapping refined_quadrant) 10 84 6).
  - apply check_links_sound. vm_compute. reflexivity.
  - vm_compute. lia.
  - vm_compute. lia.
  - vm_compute. lia.
Defined.


(** X9 (lists 1 to 4): on a tree with linked levels, parents and children,
    for every coordinate type and every adjacency test, no box is in two of
    the four interaction lists of the same box: list 1 holds boxes that pass
    the test of the box and the others hold boxes that fail it, and what
    lists 2, 3 and 4 hold is the root or of the level of the box, of a deeper
    level, and of a level between the root's and the box's. *)
Theorem interaction_lists_disjoint_any_test {coord_vec_t : Type}
    (fl : box_flags_enum) (t : Tree) (load_center_in : nat → coord_vec_t)
    (a_or_o : coord_vec_t → nat → nat → bool) (NLEVELS fuel : nat)
    (target_boxes : list nat) (i : nat) :
  wf_links t → nlevels t ≤ NLEVELS →
  walk_bound (nchildren t) (nlevels t - 1) ≤ fuel →
  target_boxes !!! i < nboxes t →
  ∃ starts lists list1 list3,
    colleagues_table_in t NLEVELS load_center_in a_or_o fuel
    = Done (starts, lists)
    ∧ neighbor_source_boxes_generate_in fl t NLEVELS load_center_in a_or_o
        fuel target_boxes i = Done list1
    ∧ sep_smaller_nonsiblings_generate_in fl t NLEVELS load_center_in a_or_o
        fuel target_boxes starts lists i = Done list3
    ∧ ∀ x,
        let list2 :=
          sep_siblings_generate_in t load_center_in a_or_o starts lists
            (target_boxes !!! i) in
        let list4 :=
          sep_bigger_nonsiblings_generate_in fl t load_center_in a_or_o
            starts lists (target_boxes !!! i) in
        (x ∈ list1 → (x ∉ list2) ∧ (x ∉ list3) ∧ (x ∉ list4))
        ∧ (x ∈ list2 → (x ∉ list3) ∧ (x ∉ list4))
        ∧ (x ∈ list3 → x ∉ list4).
Proof.
  intros Hwf HN Hfuel HT.
  destruct (colleagues_table_in_correct t load_center_in a_or_o Hwf
              NLEVELS fuel HN Hfuel) as (starts & lists & Htab & Hslice).
  exists starts, lists. eexists _, _.
  split_and!; [done
              |by apply neighbor_source_boxes_generate_in_correct
              |by apply sep_smaller_nonsiblings_generate_in_correct|].
  intros x. cbv zeta.
  set (T := target_boxes !!! i) in *.
  assert (H1 := proj1 (elem_of_neighbors_in fl t load_center_in a_or_o Hwf
                         T x)).
  assert (H2 := sep_siblings_in_level t load_center_in a_or_o Hwf
                  starts lists T x HT Hslice).
  assert (H3 := proj1 (elem_of_smaller_in fl t load_center_in a_or_o Hwf
                         T x HT)).
  assert (H3l := smaller_in_level fl t load_center_in a_or_o Hwf T x HT).
  assert (H4 : x ∈ sep_bigger_nonsiblings_generate_in fl t load_center_in
                     a_or_o starts lists T →
               passes t load_center_in a_or_o T x = false
               ∧ 1 ≤ box_level t x < box_level t T).
  { intros Hx.
    apply (elem_of_sep_bigger_in fl t load_center_in a_or_o Hwf) in Hx
      as (k & Hk & HB & Hna & _); [|done|done].
    split; [done|].
    apply (colleagues_in_level t load_center_in a_or_o Hwf) in HB
      as [HBl HB1].
    rewrite (ancestor_level t Hwf) in HBl by done. lia. }
  split_and!.
  - intros Hx1. apply H1 in Hx1 as (_ & Hx1 & _). split_and!.
    + intros Hx. apply H2 in Hx as [Hx _]. congruence.
    + intros Hx. apply H3 in Hx as (_ & Hx & _). congruence.
    + intros Hx. apply H4 in Hx as [Hx _]. congruence.
  - intros Hx2. apply H2 in Hx2 as [_ Hx2]. split.
    + intros Hx. apply H3l in Hx. destruct Hx2 as [->|Hx2]; [|lia].
      rewrite (wf_root_level t Hwf) in Hx. lia.
    + intros Hx. apply H4 in Hx as [_ Hx]. destruct Hx2 as [->|Hx2]; [|lia].
      rewrite (wf_root_level t Hwf) in Hx. lia.
  - intros Hx3. apply H3l in Hx3.
    intros Hx. apply H4 in Hx as [_ Hx]. lia.
Qed.

Lemma interaction_lists_disjoint_any_test_witness :
  ∃ starts lists list1 list3,
    colleagues_table_in refined_quadrant 10 (load_center refined_quadrant)
      (is_adjacent_or_overlapping refined_quadrant) 84
    = Done (starts, lists)
    ∧ neighbor_source_boxes_generate_in boxtree_flags refined_quadrant 10
        (load_center refined_quadrant)
        (is_adjacent_or_overlapping refined_quadrant) 84
        [2; 3; 4; 5; 6; 7; 8] 0 = Done list1
    ∧ sep_smaller_nonsiblings_generate_in boxtree_flags refined_quadrant 10
        (load_center refined_quadrant)
        (is_adjacent_or_overlapping refined_quadrant) 84
        [2; 3; 4; 5; 6; 7; 8] starts lists 0 = Done list3
    ∧ ∀ x,
        let list2 :=
          sep_siblings_generate_in refined_quadrant
            (load_center refined_quadrant)
            (is_adjacent_or_overlapping refined_quadrant) starts lists
            ([2; 3; 4; 5; 6; 7; 8] !!! 0) in
        let list4 :=
          sep_bigger_nonsiblings_generate_in boxtree_flags refined_quadrant
            (load_center refined_quadrant)
            (is_adjacent_or_overlapping refined_quadrant) starts lists
            ([2; 3; 4; 5; 6; 7; 8] !!! 0) in
        (x ∈ list1 → (x ∉ list2) ∧ (x ∉ list3) ∧ (x ∉ list4))
        ∧ (x ∈ list2 → (x ∉ list3) ∧ (x ∉ list4))
        ∧ (x ∈ list3 → x ∉ list4).
Proof.
  apply (interaction_lists_disjoint_any_test boxtree_flags refined_quadrant
           (load_center refined_quadrant)
           (is_adjacent_or_overlapping refined_quadrant) 10 84
           [2; 3; 4; 5; 6; 7; 8] 0).
  - apply check_links_sound. vm_compute. reflexivity.
  - vm_compute. lia.
  - vm_compute. lia.
  - vm_compute. lia.
Defined.

(** X17 (lists 2 and 4): on a tree with linked levels, parents and children
    whose child slots hold different boxes, for every coordinate type and
    every adjacency test, list 4 of a box names no box twice, and list 2 of
    a box names no box twice apart from box 0, which it names once for every
    empty child slot of a colleague of the parent at which the test fails. *)
Theorem separated_lists_no_duplicates_any_test {coord_vec_t : Type}
    (fl : box_flags_enum) (t : Tree) (load_center_in : nat → coord_vec_t)
    (a_or_o : coord_vec_t → nat → nat → bool) (NLEVELS fuel A : nat) :
  wf_links t → wf_slots t → nlevels t ≤ NLEVELS →
  walk_bound (nchildren t) (nlevels t - 1) ≤ fuel →
  A < nboxes t →
  ∃ starts lists,
    colleagues_table_in t NLEVELS load_center_in a_or_o fuel
    = Done (starts, lists)
    ∧ NoDup (filter (λ x, x ≠ 0)
               (sep_siblings_generate_in t load_center_in a_or_o
                  starts lists A))
    ∧ NoDup (sep_bigger_nonsiblings_generate_in fl t load_center_in a_or_o
               starts lists A).
Proof.
  intros Hwf Hslots HN Hfuel HA.
  destruct (colleagues_table_in_correct t load_center_in a_or_o Hwf
              NLEVELS fuel HN Hfuel) as (starts & lists & Htab & Hslice).
  exists starts, lists. split_and!; [done| |].
  - by apply sep_siblings_in_NoDup.
  - unfold sep_bigger_nonsiblings_generate_in.
    by apply sep_bigger_loop_in_NoDup.
Qed.

Lemma separated_lists_no_duplicates_any_test_witness :
  ∃ starts lists,
    colleagues_table_in refined_quadrant 10 (load_center refined_quadrant)
      (is_adjacent_or_overlapping refined_quadrant) 84
    = Done (starts, lists)
    ∧ NoDup (filter (λ x, x ≠ 0)
               (sep_siblings_generate_in refined_quadrant
                  (load_center refined_quadrant)
                  (is_adjacent_or_overlapping refined_quadrant)
                  starts lists 5))
    ∧ NoDup (sep_bigger_nonsiblings_generate_in boxtree_flags
               refined_quadrant (load_center refined_quadrant)
               (is_adjacent_or_overlapping refined_quadrant)
               starts lists 5).
Proof.
  apply (separated_lists_no_duplicates_any_test boxtree_flags
           refined_quadrant (load_center refined_quadrant)
           (is_adjacent_or_overlapping refined_quadrant) 10 84 5).
  - apply check_links_sound. vm_compute. reflexivity.
  - apply check_slots_sound. vm_compute. reflexivity.
  - vm_compute. lia.
  - vm_compute. lia.
  - vm_compute. lia.
Defined.


(* ================================================================= *)
(** ** What the builder stores *)

Lemma appended_source_boxes_eq (fl : box_flags_enum) (t : Tree) (sat : bool)
    (a n : nat) :
  concat (appended_to "source_boxes"
            <$> (sources_parents_and_targets_generate fl t sat <$> seq a n))
  = filter (λ b, flag_set (box_flag t b) (BOX_HAS_OWN_SOURCES fl) = true)
           (seq a n).
Proof.
  revert a. induction n as [|n IH]; intros a; [done|]. simpl.
  rewrite IH, filter_cons.
  unfold sources_parents_and_targets_generate, appended_to.
  destruct (flag_set (box_flag t a) (BOX_HAS_OWN_SOURCES fl));
    destruct (flag_set (box_flag t a) (BOX_HAS_CHILD_SOURCES fl));
    destruct sat;
    destruct (flag_set (box_flag t a) (BOX_HAS_OWN_TARGETS fl));
    reflexivity.
Qed.

Lemma appended_source_parent_boxes_eq (fl : box_flags_enum) (t : Tree)
    (sat : bool) (a n : nat) :
  concat (appended_to "source_parent_boxes"
            <$> (sources_parents_and_targets_generate fl t sat <$> seq a n))
  = filter (λ b, flag_set (box_flag t b) (BOX_HAS_CHILD_SOURCES fl) = true)
           (seq a n).
Proof.
  revert a. induction n as [|n IH]; intros a; [done|]. simpl.
  rewrite IH, filter_cons.
  unfold sources_parents_and_targets_generate, appended_to.
  destruct (flag_set (box_flag t a) (BOX_HAS_OWN_SOURCES fl));
    destruct (flag_set (box_flag t a) (BOX_HAS_CHILD_SOURCES fl));
    destruct sat;
    destruct (flag_set (box_flag t a) (BOX_HAS_OWN_TARGETS fl));
    reflexivity.
Qed.

Lemma appended_target_boxes_eq (fl : box_flags_enum) (t : Tree) (a n : nat) :
  concat (appended_to "target_boxes"
            <$> (sources_parents_and_targets_generate fl t false <$> seq a n))
  = filter (λ b, flag_set (box_flag t b) (BOX_HAS_OWN_TARGETS fl) = true)
           (seq a n).
Proof.
  revert a. induction n as [|n IH]; intros a; [done|]. simpl.
  rewrite IH, filter_cons.
  unfold sources_parents_and_targets_generate, appended_to.
  destruct (flag_set (box_flag t a) (BOX_HAS_OWN_SOURCES fl));
    destruct (flag_set (box_flag t a) (BOX_HAS_CHILD_SOURCES fl));
    destruct (flag_set (box_flag t a) (BOX_HAS_OWN_TARGETS fl));
    reflexivity.
Qed.

Lemma heap_new0 (h : cl_mem) (a b : list nat) :
  (h ++ [a; b]) !!! length h = a.
Proof.
  pose proof (heap_lookup_new h [a; b] 0) as H.
  by rewrite Nat.add_0_r in H.
Qed.

Lemma heap_new1 (h : cl_mem) (a b : list nat) :
  (h ++ [a; b]) !!! S (length h) = b.
Proof.
  pose proof (heap_lookup_new h [a; b] 1) as H.
  by rewrite Nat.add_1_r in H.
Qed.

(** One stage of the builder that fills one list of lists: the starts and the
    lists are two new arrays. *)
Lemma single_stage_run {B} (name : string) (gen : nat → kres (list nat))
    (f : nat → list nat) (n : nat) (h : cl_mem)
    (k : list_of_lists → M B) :
  (∀ i, i < n → gen i = Done (f i)) →
  ∃ r,
    bind (ListOfListsBuilder [name] (λ i, named name (gen i)) n)
      (λ result, bind (getitem result name) k) h
    = k r (h ++ [starts_from 0 (f <$> seq 0 n); concat (f <$> seq 0 n)])
    ∧ lol_starts r = length h ∧ lol_lists r = S (length h).
Proof.
  intros Hgen.
  destruct (ListOfListsBuilder_single name gen f n h Hgen)
    as (r & E & Hs & Hl).
  exists r. split; [|done].
  erewrite bind_inr by exact E.
  by erewrite bind_getitem by apply lookup_singleton_eq.
Qed.
Ltac run_stage Er f Hgen :=
  match type of Er with
  | _ = bind (ListOfListsBuilder [?name] (λ i, named _ (@?gen i)) ?n)
          (λ result, bind (getitem result _) ?k) ?hh =>
      let r := fresh "r" in let E := fresh "E" in
      let Hs := fresh "Hs" in let Hl := fresh "Hl" in
      destruct (single_stage_run name gen f n hh k Hgen)
        as (r & E & Hs & Hl);
      rewrite E in Er; clear E
  end.

Lemma builder_output (fl : box_flags_enum) (vec : list nat)
    (axis : list string) (fuel : nat) (t : Tree) (h : cl_mem) :
  _is_pruned t = true → dimensions t ∈ vec → dimensions t ≤ length axis →
  wf_links t → walk_bound (nchildren t) (nlevels t - 1) ≤ fuel →
  let sb := filter (λ b, flag_set (box_flag t b) (BOX_HAS_OWN_SOURCES fl)
                         = true) (seq 0 (nboxes t)) in
  let spb := filter (λ b, flag_set (box_flag t b) (BOX_HAS_CHILD_SOURCES fl)
                          = true) (seq 0 (nboxes t)) in
  let tb := if sources_are_targets t then sb
            else filter (λ b, flag_set (box_flag t b)
                                (BOX_HAS_OWN_TARGETS fl) = true)
                        (seq 0 (nboxes t)) in
  let cs := starts_from 0 (colleagues_of t <$> seq 0 (nboxes t)) in
  let cl := concat (colleagues_of t <$> seq 0 (nboxes t)) in
  let l1 := (λ i, neighbor_source_boxes_of fl t (tb !!! i))
            <$> seq 0 (length tb) in
  let l2 := sep_siblings_generate t cs cl <$> seq 0 (nboxes t) in
  let l3 := (λ i, sep_smaller_nonsiblings_of fl t (tb !!! i))
            <$> seq 0 (length tb) in
  let l4 := sep_bigger_nonsiblings_generate fl t cs cl
            <$> seq 0 (nboxes t) in
  ∃ info h',
    FMMTraversalBuilder_call fl vec axis fuel t h = inr (info, h')
    ∧ tree info = t
    ∧ (∀ a, a < length h → h' !!! a = h !!! a)
    ∧ h' !!! source_boxes info = sb
    ∧ h' !!! source_parent_boxes info = spb
    ∧ h' !!! target_boxes info = tb
    ∧ level_start_source_parent_box_nrs info
      = extract_level_start_box_nrs t spb
    ∧ h' !!! colleagues_starts info = cs
    ∧ h' !!! colleagues_lists info = cl
    ∧ h' !!! neighbor_source_boxes_starts info = starts_from 0 l1
    ∧ h' !!! neighbor_source_boxes_lists info = concat l1
    ∧ h' !!! sep_siblings_starts info = starts_from 0 l2
    ∧ h' !!! sep_siblings_lists info = concat l2
    ∧ h' !!! sep_smaller_nonsiblings_starts info = starts_from 0 l3
    ∧ h' !!! sep_smaller_nonsiblings_lists info = concat l3
    ∧ h' !!! sep_bigger_nonsiblings_starts info = starts_from 0 l4
    ∧ h' !!! sep_bigger_nonsiblings_lists info = concat l4.
Proof.
  cbv zeta.
  intros Hp Hv Ha Hwf Hfuel.
  assert (HN := div_ceil_10_ge (nlevels t)).
  remember (FMMTraversalBuilder_call fl vec axis fuel t h) as res eqn:Er.
  unfold FMMTraversalBuilder_call in Er. rewrite Hp in Er. cbn [negb] in Er.
  unfold get_kernel_info in Er. rewrite bool_decide_eq_true_2 in Er by done.
  rewrite (proj2 (Nat.leb_le _ _) Ha), bind_ret in Er.
  cbn [render_sources_are_targets render_max_levels] in Er.
  destruct (sources_parents_and_targets_builder fl t
              (sources_are_targets t) h)
    as (m0 & h2 & E0 & Hspb & Hsb & Hd1 & Hd3 & Hlen & Htb).
  rewrite appended_source_parent_boxes_eq in Hspb, Hd1.
  rewrite appended_source_boxes_eq in Hsb, Hd3.
  set (sb := filter (λ b, flag_set (box_flag t b) (BOX_HAS_OWN_SOURCES fl)
                          = true) (seq 0 (nboxes t))) in *.
  set (spb := filter (λ b, flag_set (box_flag t b) (BOX_HAS_CHILD_SOURCES fl)
                           = true) (seq 0 (nboxes t))) in *.
  erewrite bind_inr in Er by exact E0.
  erewrite bind_getitem in Er by exact Hsb.
  rewrite bind_deref in Er. cbn [lol_lists lol_count] in Er.
  assert (Hsbd : (h ++ h2) !!! (length h + 3) = sb).
  { rewrite heap_lookup_new. exact Hd3. }
  assert (Hspbd : (h ++ h2) !!! (length h + 1) = spb).
  { rewrite heap_lookup_new. exact Hd1. }
  unfold cl_mem, ref in *. rewrite Hsbd in Er.
  erewrite bind_assert in Er by reflexivity.
  set (tb := if sources_are_targets t then sb
             else filter (λ b, flag_set (box_flag t b)
                                 (BOX_HAS_OWN_TARGETS fl) = true)
                         (seq 0 (nboxes t))).
  assert (∃ rt, rt < length (h ++ h2) ∧ length h ≤ rt
            ∧ (h ++ h2) !!! rt = tb
            ∧ ∀ B (k : nat → M B),
                bind (if negb (sources_are_targets t)
                      then bind (getitem m0 "target_boxes")
                             (λ r_target_boxes,
                                bind (deref (lol_lists r_target_boxes))
                                  (λ target_boxes_data,
                                     bind (py_assert
                                             (length target_boxes_data
                                              =? lol_count r_target_boxes))
                                       (λ _, ret (lol_lists r_target_boxes))))
                      else ret (length h + 3)) k (h ++ h2)
                = k rt (h ++ h2)) as (rt & Hrt & Hrt' & Htd & Etb).
  { unfold tb. destruct (sources_are_targets t); cbn [negb].
    - exists (length h + 3). rewrite length_app.
      split_and!; [lia|lia|done|done].
    - destruct Htb as (Ht & Hd5 & Hlen').
      rewrite appended_target_boxes_eq in Ht, Hd5.
      exists (length h + 5). rewrite length_app.
      assert (Htbd : (h ++ h2) !!! (length h + 5)
                     = filter (λ b, flag_set (box_flag t b)
                                      (BOX_HAS_OWN_TARGETS fl) = true)
                              (seq 0 (nboxes t))).
      { rewrite heap_lookup_new. exact Hd5. }
      split_and!; [lia|lia|done|].
      intros B k. unfold bind, getitem, deref, py_assert, ret.
      rewrite Ht. cbn [lol_lists lol_count]. unfold cl_mem, ref in *.
      rewrite Htbd. by rewrite Nat.eqb_refl. }
  rewrite Etb in Er. clear Etb.
  erewrite bind_getitem in Er by exact Hspb.
  rewrite bind_deref in Er. cbn [lol_lists lol_count] in Er.
  unfold cl_mem, ref in *. rewrite Hspbd in Er.
  erewrite bind_assert in Er by reflexivity.
  (* colleagues *)
  assert (Hg1 : ∀ i, i < nboxes t →
            colleagues_generate t (div_ceil (nlevels t) 10 * 10) fuel i
            = Done (colleagues_of t i)).
  { intros i _. by apply colleagues_generate_correct. }
  run_stage Er (colleagues_of t) Hg1.
  rewrite !bind_deref in Er. rewrite Hs, Hl in Er.
  unfold cl_mem, ref in *.
  rewrite heap_new0, heap_new1 in Er.
  rewrite (heap_lookup_old (h ++ h2)) in Er by done.
  unfold cl_mem, ref in *. rewrite Htd in Er.
  set (cs := starts_from 0 (colleagues_of t <$> seq 0 (nboxes t))) in *.
  set (cl := concat (colleagues_of t <$> seq 0 (nboxes t))) in *.
  set (H1 := (h ++ h2) ++ [cs; cl]) in *.
  (* list 1 *)
  assert (Hg2 : ∀ i, i < length tb →
            neighbor_source_boxes_generate fl t
              (div_ceil (nlevels t) 10 * 10) fuel tb i
            = Done (neighbor_source_boxes_of fl t (tb !!! i))).
  { intros i _. by apply neighbor_source_boxes_generate_correct. }
  run_stage Er (λ i, neighbor_source_boxes_of fl t (tb !!! i)) Hg2.
  set (l1 := (λ i, neighbor_source_boxes_of fl t (tb !!! i))
             <$> seq 0 (length tb)) in *.
  set (H2 := H1 ++ [starts_from 0 l1; concat l1]) in *.
  (* list 2 *)
  assert (Hg3 : ∀ i, i < nboxes t →
            Done (sep_siblings_generate t cs cl i)
            = Done (sep_siblings_generate t cs cl i)) by done.
  run_stage Er (sep_siblings_generate t cs cl) Hg3.
  set (l2 := sep_siblings_generate t cs cl <$> seq 0 (nboxes t)) in *.
  set (H3 := H2 ++ [starts_from 0 l2; concat l2]) in *.
  (* list 3 *)
  assert (Htbox : ∀ i, i < length tb → tb !!! i < nboxes t).
  { assert (Hlt : ∀ x, x ∈ tb → x < nboxes t).
    { intros x Hin. unfold tb, sb in Hin.
      destruct (sources_are_targets t);
        apply list_elem_of_filter in Hin as [_ Hin];
        apply elem_of_seq in Hin; lia. }
    intros i Hi. by apply Hlt, list_elem_of_lookup_total_2. }
  assert (Hslice : ∀ b, b < nboxes t → csr_slice cs cl b = colleagues_of t b).
  { intros b Hb. unfold cs, cl.
    rewrite csr_slice_correct by (by rewrite length_fmap, length_seq).
    rewrite (list_lookup_total_fmap (colleagues_of t))
      by (by rewrite length_seq).
    by rewrite lookup_total_seq_lt. }
  assert (Hg4 : ∀ i, i < length tb →
            sep_smaller_nonsiblings_generate fl t
              (div_ceil (nlevels t) 10 * 10) fuel tb cs cl i
            = Done (sep_smaller_nonsiblings_of fl t (tb !!! i))).
  { intros i Hi. apply sep_smaller_nonsiblings_generate_correct; try done.
    by apply Htbox. }
  run_stage Er (λ i, sep_smaller_nonsiblings_of fl t (tb !!! i)) Hg4.
  set (l3 := (λ i, sep_smaller_nonsiblings_of fl t (tb !!! i))
             <$> seq 0 (length tb)) in *.
  set (H4 := H3 ++ [starts_from 0 l3; concat l3]) in *.
  (* list 4 *)
  assert (Hg5 : ∀ i, i < nboxes t →
            Done (sep_bigger_nonsiblings_generate fl t cs cl i)
            = Done (sep_bigger_nonsiblings_generate fl t cs cl i)) by done.
  run_stage Er (sep_bigger_nonsiblings_generate fl t cs cl) Hg5.
  set (l4 := sep_bigger_nonsiblings_generate fl t cs cl
             <$> seq 0 (nboxes t)) in *.
  set (H5 := H4 ++ [starts_from 0 l4; concat l4]) in *.
  unfold ret in Er. rewrite Hs0, Hl0, Hs1, Hl1, Hs2, Hl2, Hs3, Hl3 in Er.
  subst res. eexists _, _. split; [reflexivity|].
  cbn [tree source_boxes source_parent_boxes target_boxes
       level_start_source_parent_box_nrs colleagues_starts colleagues_lists
       neighbor_source_boxes_starts neighbor_source_boxes_lists
       sep_siblings_starts sep_siblings_lists
       sep_smaller_nonsiblings_starts sep_smaller_nonsiblings_lists
       sep_bigger_nonsiblings_starts sep_bigger_nonsiblings_lists].
  assert (HL1 : length H1 = length (h ++ h2) + 2)
    by (unfold H1; rewrite length_app; simpl; lia).
  assert (HL2 : length H2 = length H1 + 2)
    by (unfold H2; rewrite length_app; simpl; lia).
  assert (HL3 : length H3 = length H2 + 2)
    by (unfold H3; rewrite length_app; simpl; lia).
  assert (HL4 : length H4 = length H3 + 2)
    by (unfold H4; rewrite length_app; simpl; lia).
  assert (HL0 : length (h ++ h2) = length h + length h2)
    by apply length_app.
  assert (Hold : ∀ a, a < length (h ++ h2) → H5 !!! a = (h ++ h2) !!! a).
  { intros a Ha'. unfold H5. rewrite heap_lookup_old by lia.
    unfold H4. rewrite heap_lookup_old by lia.
    unfold H3. rewrite heap_lookup_old by lia.
    unfold H2. rewrite heap_lookup_old by lia.
    unfold H1. by rewrite heap_lookup_old by lia. }
  split; [done|].
  split. { intros a Ha'. rewrite Hold by lia. by apply heap_lookup_old. }
  split. { rewrite Hold by lia. done. }
  split. { rewrite Hold by lia. done. }
  split. { rewrite Hold by lia. done. }
  split; [done|].
  split. { unfold H5. rewrite heap_lookup_old by lia.
           unfold H4. rewrite heap_lookup_old by lia.
           unfold H3. rewrite heap_lookup_old by lia.
           unfold H2. rewrite heap_lookup_old by lia.
           unfold H1. apply heap_new0. }
  split. { unfold H5. rewrite heap_lookup_old by lia.
           unfold H4. rewrite heap_lookup_old by lia.
           unfold H3. rewrite heap_lookup_old by lia.
           unfold H2. rewrite heap_lookup_old by lia.
           unfold H1. apply heap_new1. }
  split. { unfold H5. rewrite heap_lookup_old by lia.
           unfold H4. rewrite heap_lookup_old by lia.
           unfold H3. rewrite heap_lookup_old by lia.
           unfold H2. apply heap_new0. }
  split. { unfold H5. rewrite heap_lookup_old by lia.
           unfold H4. rewrite heap_lookup_old by lia.
           unfold H3. rewrite heap_lookup_old by lia.
           unfold H2. apply heap_new1. }
  split. { unfold H5. rewrite heap_lookup_old by lia.
           unfold H4. rewrite heap_lookup_old by lia.
           unfold H3. apply heap_new0. }
  split. { unfold H5. rewrite heap_lookup_old by lia.
           unfold H4. rewrite heap_lookup_old by lia.
           unfold H3. apply heap_new1. }
  split. { unfold H5. rewrite heap_lookup_old by lia.
           unfold H4. apply heap_new0. }
  split. { unfold H5. rewrite heap_lookup_old by lia.
           unfold H4. apply heap_new1. }
  split. { unfold H5. apply heap_new0. }
  unfold H5. apply heap_new1.
Qed.


(* ================================================================= *)
(** ** Reading a list back: [get_box_list] *)

Lemma length_starts_from (off : nat) (pk : list (list nat)) :
  length (starts_from off pk) = S (length pk).
Proof.
  revert off. induction pk as [|l pk IH]; intros off; [done|].
  simpl. by rewrite IH.
Qed.

Lemma csr_decode (pre : list nat) (pk : list (list nat)) (k : nat) :
  k < length pk →
  ∃ a b,
    py_slice (starts_from (length pre) pk) k (k + 2) = [a; b]
    ∧ py_slice (pre ++ concat pk) a b = pk !!! k.
Proof.
  unfold py_slice. replace (k + 2 - k) with 2 by lia.
  revert pre k. induction pk as [|l pk IH]; intros pre k Hk;
    [simpl in Hk; lia|].
  destruct k as [|k].
  - exists (length pre), (length pre + length l). split.
    + simpl. by destruct pk.
    + simpl. rewrite drop_app_length.
      replace (length pre + length l - length pre) with (length l) by lia.
      by rewrite take_app_length.
  - destruct (IH (pre ++ l) k) as (a & b & H1 & H2); [simpl in Hk; lia|].
    exists a, b. split.
    + simpl. by rewrite length_app in H1.
    + simpl. by rewrite <- app_assoc in H2.
Qed.

Lemma csr_decode_out (off : nat) (pk : list (list nat)) (k : nat) :
  length pk ≤ k →
  length (py_slice (starts_from off pk) k (k + 2)) < 2.
Proof.
  intros Hk. unfold py_slice.
  rewrite length_take, length_drop, length_starts_from. lia.
Qed.

Lemma getattr_array_names (info : FMMTraversalInfo) :
  getattr_array info "colleagues_starts" = inr (colleagues_starts info)
  ∧ getattr_array info "colleagues_lists" = inr (colleagues_lists info)
  ∧ getattr_array info "neighbor_source_boxes_starts"
    = inr (neighbor_source_boxes_starts info)
  ∧ getattr_array info "neighbor_source_boxes_lists"
    = inr (neighbor_source_boxes_lists info)
  ∧ getattr_array info "sep_siblings_starts"
    = inr (sep_siblings_starts info)
  ∧ getattr_array info "sep_siblings_lists" = inr (sep_siblings_lists info)
  ∧ getattr_array info "sep_smaller_nonsiblings_starts"
    = inr (sep_smaller_nonsiblings_starts info)
  ∧ getattr_array info "sep_smaller_nonsiblings_lists"
    = inr (sep_smaller_nonsiblings_lists info)
  ∧ getattr_array info "sep_bigger_nonsiblings_starts"
    = inr (sep_bigger_nonsiblings_starts info)
  ∧ getattr_array info "sep_bigger_nonsiblings_lists"
    = inr (sep_bigger_nonsiblings_lists info).
Proof. repeat split. Qed.

Lemma getattr_host_names (h : cl_mem) (info : FMMTraversalInfo) :
  let host := FMMTraversalInfo_get h info in
  getattr_host host "colleagues_starts" = inr (h !!! colleagues_starts info)
  ∧ getattr_host host "colleagues_lists" = inr (h !!! colleagues_lists info)
  ∧ getattr_host host "neighbor_source_boxes_starts"
    = inr (h !!! neighbor_source_boxes_starts info)
  ∧ getattr_host host "neighbor_source_boxes_lists"
    = inr (h !!! neighbor_source_boxes_lists info)
  ∧ getattr_host host "sep_siblings_starts"
    = inr (h !!! sep_siblings_starts info)
  ∧ getattr_host host "sep_siblings_lists"
    = inr (h !!! sep_siblings_lists info)
  ∧ getattr_host host "sep_smaller_nonsiblings_starts"
    = inr (h !!! sep_smaller_nonsiblings_starts info)
  ∧ getattr_host host "sep_smaller_nonsiblings_lists"
    = inr (h !!! sep_smaller_nonsiblings_lists info)
  ∧ getattr_host host "sep_bigger_nonsiblings_starts"
    = inr (h !!! sep_bigger_nonsiblings_starts info)
  ∧ getattr_host host "sep_bigger_nonsiblings_lists"
    = inr (h !!! sep_bigger_nonsiblings_lists info).
Proof. repeat split. Qed.

(** On the host, a key in range reads the list of the key. *)
Lemma get_box_list_host_in_range (arrays : host_arrays) (what : string)
    (pk : list (list nat)) (index : nat) :
  getattr_host arrays (what +:+ "_starts") = inr (starts_from 0 pk) →
  getattr_host arrays (what +:+ "_lists") = inr (concat pk) →
  index < length pk →
  get_box_list_host arrays what index = inr (pk !!! index).
Proof.
  intros Hs Hl Hi. unfold get_box_list_host. rewrite Hs, Hl.
  destruct (csr_decode [] pk index Hi) as (a & b & H1 & H2).
  simpl in H1, H2. by rewrite H1, H2.
Qed.

(** On the device, a key in range gets as far as the slice of [lists]. *)
Lemma get_box_list_device_in_range (h : cl_mem) (info : FMMTraversalInfo)
    (what : string) (s l : ref) (pk : list (list nat)) (index : nat) :
  getattr_array info (what +:+ "_starts") = inr s →
  getattr_array info (what +:+ "_lists") = inr l →
  h !!! s = starts_from 0 pk →
  index < length pk →
  get_box_list h info what index = inl SliceTypeError.
Proof.
  intros Hs Hl Hds Hi. unfold get_box_list. rewrite Hs, Hl.
  unfold cl_mem, ref in *. rewrite Hds.
  destruct (csr_decode [] pk index Hi) as (a & b & H1 & H2).
  simpl in H1. by rewrite H1.
Qed.

Lemma get_box_list_out_of_range (h : cl_mem) (info : FMMTraversalInfo)
    (what : string) (s l : ref) (pk : list (list nat)) (index : nat) :
  getattr_array info (what +:+ "_starts") = inr s →
  getattr_array info (what +:+ "_lists") = inr l →
  h !!! s = starts_from 0 pk →
  length pk ≤ index →
  ∃ n, n < 2 ∧ get_box_list h info what index = inl (UnpackValueError n).
Proof.
  intros Hs Hl Hds Hi. unfold get_box_list. rewrite Hs, Hl.
  unfold cl_mem, ref in *. rewrite Hds.
  pose proof (csr_decode_out 0 pk index Hi) as Hlen.
  destruct (py_slice (starts_from 0 pk) index (index + 2))
    as [|a [|b [|c rest]]]; simpl in Hlen.
  - exists 0. split; [lia|done].
  - exists 1. split; [lia|done].
  - lia.
  - lia.
Qed.

Lemma getattr_array_missing (info : FMMTraversalInfo) (name : string) :
  name ∉ (array_attributes info).*1 →
  getattr_array info name = inl (AttributeError name).
Proof.
  intros Hn. unfold getattr_array.
  destruct (filter _ _) as [|p rest] eqn:E; [done|].
  exfalso. apply Hn.
  assert (Hp : p ∈ filter (λ p, p.1 = name) (array_attributes info))
    by (rewrite E; by left).
  apply list_elem_of_filter in Hp as [Hp1 Hp2].
  apply list_elem_of_fmap. by exists p.
Qed.

(** X10 ([get_box_list] after [__call__] and [get]): on a pruned tree with
    linked levels, of a dimension the kernels can be rendered for, the build
    returns a traversal whose arrays are on the device.  From its copy on
    the host ([get]) [get_box_list] reads back, for every key in range,
    exactly the list the kernel of that name generated for the key: the keys
    of the colleagues and of lists 2 and 4 are the boxes, those of lists 1
    and 3 the indices into [target_boxes].  On the traversal as the build
    returns it, [get_box_list] raises the [TypeError] of the slice for every
    key in range. *)
Theorem get_box_list_host_round_trip (fl : box_flags_enum) (vec : list nat)
    (axis : list string) (fuel : nat) (t : Tree) (h : cl_mem) :
  _is_pruned t = true → dimensions t ∈ vec → dimensions t ≤ length axis →
  wf_links t → walk_bound (nchildren t) (nlevels t - 1) ≤ fuel →
  ∃ info h',
    FMMTraversalBuilder_call fl vec axis fuel t h = inr (info, h')
    ∧ let max_levels := div_ceil (nlevels t) 10 * 10 in
      let host := FMMTraversalInfo_get h' info in
      let tb := h' !!! target_boxes info in
      let cs := h' !!! colleagues_starts info in
      let cl := h' !!! colleagues_lists info in
      (∀ b, b < nboxes t →
         ∃ l, colleagues_generate t max_levels fuel b = Done l
              ∧ get_box_list_host host "colleagues" b = inr l)
      ∧ (∀ i, i < length tb →
           ∃ l, neighbor_source_boxes_generate fl t max_levels fuel tb i
                = Done l
                ∧ get_box_list_host host "neighbor_source_boxes" i = inr l)
      ∧ (∀ b, b < nboxes t →
           get_box_list_host host "sep_siblings" b
           = inr (sep_siblings_generate t cs cl b))
      ∧ (∀ i, i < length tb →
           ∃ l, sep_smaller_nonsiblings_generate fl t max_levels fuel tb
                  cs cl i = Done l
                ∧ get_box_list_host host "sep_smaller_nonsiblings" i
                  = inr l)
      ∧ (∀ b, b < nboxes t →
           get_box_list_host host "sep_bigger_nonsiblings" b
           = inr (sep_bigger_nonsiblings_generate fl t cs cl b))
      ∧ (∀ what b,
           what ∈ ["colleagues"; "sep_siblings"; "sep_bigger_nonsiblings"]
           → b < nboxes t →
           get_box_list h' info what b = inl SliceTypeError)
      ∧ (∀ what i,
           what ∈ ["neighbor_source_boxes"; "sep_smaller_nonsiblings"] →
           i < length tb →
           get_box_list h' info what i = inl SliceTypeError).
Proof.
  intros Hp Hv Ha Hwf Hfuel.
  assert (HN := div_ceil_10_ge (nlevels t)).
  destruct (builder_output fl vec axis fuel t h Hp Hv Ha Hwf Hfuel)
    as (info & h' & E & _ & _ & _ & _ & Htb & _ & Hcs & Hcl & H1s & H1l
        & H2s & H2l & H3s & H3l & H4s & H4l).
  exists info, h'. split; [done|]. cbv zeta.
  destruct (getattr_array_names info)
    as (A1 & A2 & A3 & A4 & A5 & A6 & A7 & A8 & A9 & A10).
  destruct (getattr_host_names h' info)
    as (G1 & G2 & G3 & G4 & G5 & G6 & G7 & G8 & G9 & G10).
  unfold cl_mem, ref in *.
  rewrite Hcs in G1. rewrite Hcl in G2. rewrite H1s in G3. rewrite H1l in G4.
  rewrite H2s in G5. rewrite H2l in G6. rewrite H3s in G7. rewrite H3l in G8.
  rewrite H4s in G9. rewrite H4l in G10.
  rewrite Htb, Hcs, Hcl.
  set (tb := if sources_are_targets t then _ else _) in *.
  set (cs := starts_from 0 _) in *. set (cl := concat _) in *.
  assert (Htbox : ∀ i, i < length tb → tb !!! i < nboxes t).
  { assert (Hlt : ∀ x, x ∈ tb → x < nboxes t).
    { intros x Hin. unfold tb in Hin.
      destruct (sources_are_targets t);
        apply list_elem_of_filter in Hin as [_ Hin];
        apply elem_of_seq in Hin; lia. }
    intros i Hi. by apply Hlt, list_elem_of_lookup_total_2. }
  assert (Hslice : ∀ b, b < nboxes t → csr_slice cs cl b = colleagues_of t b).
  { intros b Hb. unfold cs, cl.
    rewrite csr_slice_correct by (by rewrite length_fmap, length_seq).
    rewrite (list_lookup_total_fmap (colleagues_of t))
      by (by rewrite length_seq).
    by rewrite lookup_total_seq_lt. }
  split_and!.
  - intros b Hb. exists (colleagues_of t b).
    split; [by apply colleagues_generate_correct|].
    erewrite (get_box_list_host_in_range _ "colleagues"); try done.
    + rewrite (list_lookup_total_fmap (colleagues_of t))
        by (by rewrite length_seq).
      by rewrite lookup_total_seq_lt.
    + by rewrite length_fmap, length_seq.
  - intros i Hi. exists (neighbor_source_boxes_of fl t (tb !!! i)).
    split; [by apply neighbor_source_boxes_generate_correct|].
    erewrite (get_box_list_host_in_range _ "neighbor_source_boxes");
      try done.
    + rewrite (list_lookup_total_fmap
                 (λ i, neighbor_source_boxes_of fl t (tb !!! i)))
        by (by rewrite length_seq).
      by rewrite lookup_total_seq_lt.
    + by rewrite length_fmap, length_seq.
  - intros b Hb.
    erewrite (get_box_list_host_in_range _ "sep_siblings"); try done.
    + rewrite (list_lookup_total_fmap (sep_siblings_generate t cs cl))
        by (by rewrite length_seq).
      by rewrite lookup_total_seq_lt.
    + by rewrite length_fmap, length_seq.
  - intros i Hi. exists (sep_smaller_nonsiblings_of fl t (tb !!! i)).
    split.
    { apply sep_smaller_nonsiblings_generate_correct; try done.
      by apply Htbox. }
    erewrite (get_box_list_host_in_range _ "sep_smaller_nonsiblings");
      try done.
    + rewrite (list_lookup_total_fmap
                 (λ i, sep_smaller_nonsiblings_of fl t (tb !!! i)))
        by (by rewrite length_seq).
      by rewrite lookup_total_seq_lt.
    + by rewrite length_fmap, length_seq.
  - intros b Hb.
    erewrite (get_box_list_host_in_range _ "sep_bigger_nonsiblings");
      try done.
    + rewrite (list_lookup_total_fmap
                 (sep_bigger_nonsiblings_generate fl t cs cl))
        by (by rewrite length_seq).
      by rewrite lookup_total_seq_lt.
    + by rewrite length_fmap, length_seq.
  - intros what b Hw Hb.
    repeat (apply elem_of_cons in Hw as [->|Hw]);
      [| | |by apply elem_of_nil in Hw].
    + eapply get_box_list_device_in_range; [exact A1|exact A2|exact Hcs|].
      by rewrite length_fmap, length_seq.
    + eapply get_box_list_device_in_range; [exact A5|exact A6|exact H2s|].
      by rewrite length_fmap, length_seq.
    + eapply get_box_list_device_in_range; [exact A9|exact A10|exact H4s|].
      by rewrite length_fmap, length_seq.
  - intros what i Hw Hi.
    repeat (apply elem_of_cons in Hw as [->|Hw]);
      [| |by apply elem_of_nil in Hw].
    + eapply get_box_list_device_in_range; [exact A3|exact A4|exact H1s|].
      by rewrite length_fmap, length_seq.
    + eapply get_box_list_device_in_range; [exact A7|exact A8|exact H3s|].
      by rewrite length_fmap, length_seq.
Qed.

Lemma get_box_list_host_round_trip_witness :
  ∃ info h',
    FMMTraversalBuilder_call boxtree_flags pyopencl_vec_type_counts
      boxtree_AXIS_NAMES 84 refined_quadrant [] = inr (info, h')
    ∧ let max_levels := div_ceil (nlevels refined_quadrant) 10 * 10 in
      let host := FMMTraversalInfo_get h' info in
      let tb := h' !!! target_boxes info in
      let cs := h' !!! colleagues_starts info in
      let cl := h' !!! colleagues_lists info in
      (∀ b, b < nboxes refined_quadrant →
         ∃ l, colleagues_generate refined_quadrant max_levels 84 b = Done l
              ∧ get_box_list_host host "colleagues" b = inr l)
      ∧ (∀ i, i < length tb →
           ∃ l, neighbor_source_boxes_generate boxtree_flags
                  refined_quadrant max_levels 84 tb i = Done l
                ∧ get_box_list_host host "neighbor_source_boxes" i = inr l)
      ∧ (∀ b, b < nboxes refined_quadrant →
           get_box_list_host host "sep_siblings" b
           = inr (sep_siblings_generate refined_quadrant cs cl b))
      ∧ (∀ i, i < length tb →
           ∃ l, sep_smaller_nonsiblings_generate boxtree_flags
                  refined_quadrant max_levels 84 tb cs cl i = Done l
                ∧ get_box_list_host host "sep_smaller_nonsiblings" i
                  = inr l)
      ∧ (∀ b, b < nboxes refined_quadrant →
           get_box_list_host host "sep_bigger_nonsiblings" b
           = inr (sep_bigger_nonsiblings_generate boxtree_flags
                    refined_quadrant cs cl b))
      ∧ (∀ what b,
           what ∈ ["colleagues"; "sep_siblings"; "sep_bigger_nonsiblings"]
           → b < nboxes refined_quadrant →
           get_box_list h' info what b = inl SliceTypeError)
      ∧ (∀ what i,
           what ∈ ["neighbor_source_boxes"; "sep_smaller_nonsiblings"] →
           i < length tb →
           get_box_list h' info what i = inl SliceTypeError).
Proof.
  apply (get_box_list_host_round_trip boxtree_flags pyopencl_vec_type_counts
           boxtree_AXIS_NAMES 84 refined_quadrant []).
  - reflexivity.
  - vm_compute. apply list_elem_of_here.
  - vm_compute. lia.
  - apply check_links_sound. vm_compute. reflexivity.
  - vm_compute. lia.
Defined.

(** X11 ([get_box_list], bounds): on the traversal the build returns,
    [get_box_list] raises the [ValueError] of the unpacking for every index
    from the number of keys on (the number of boxes, or of target boxes for
    lists 1 and 3), and an [AttributeError] for a name that is none of the
    array attributes. *)
Theorem get_box_list_out_of_bounds (fl : box_flags_enum) (vec : list nat)
    (axis : list string) (fuel : nat) (t : Tree) (h : cl_mem) :
  _is_pruned t = true → dimensions t ∈ vec → dimensions t ≤ length axis →
  wf_links t → walk_bound (nchildren t) (nlevels t - 1) ≤ fuel →
  ∃ info h',
    FMMTraversalBuilder_call fl vec axis fuel t h = inr (info, h')
    ∧ (∀ what index,
         what ∈ ["colleagues"; "sep_siblings"; "sep_bigger_nonsiblings"]
         → nboxes t ≤ index →
         ∃ n, n < 2
              ∧ get_box_list h' info what index = inl (UnpackValueError n))
    ∧ (∀ what index,
         what ∈ ["neighbor_source_boxes"; "sep_smaller_nonsiblings"] →
         length (h' !!! target_boxes info) ≤ index →
         ∃ n, n < 2
              ∧ get_box_list h' info what index = inl (UnpackValueError n))
    ∧ (∀ what index,
         (what +:+ "_starts") ∉ (array_attributes info).*1 →
         get_box_list h' info what index
         = inl (AttributeError (what +:+ "_starts"))).
Proof.
  intros Hp Hv Ha Hwf Hfuel.
  destruct (builder_output fl vec axis fuel t h Hp Hv Ha Hwf Hfuel)
    as (info & h' & E & _ & _ & _ & _ & Htb & _ & Hcs & Hcl & H1s & H1l
        & H2s & H2l & H3s & H3l & H4s & H4l).
  exists info, h'. split; [done|].
  destruct (getattr_array_names info)
    as (A1 & A2 & A3 & A4 & A5 & A6 & A7 & A8 & A9 & A10).
  unfold cl_mem, ref in *. rewrite Htb.
  split_and!.
  - intros what index Hw Hi.
    repeat (apply elem_of_cons in Hw as [->|Hw]);
      [| | |by apply elem_of_nil in Hw].
    + eapply get_box_list_out_of_range; [exact A1|exact A2|exact Hcs|].
      by rewrite length_fmap, length_seq.
    + eapply get_box_list_out_of_range; [exact A5|exact A6|exact H2s|].
      by rewrite length_fmap, length_seq.
    + eapply get_box_list_out_of_range; [exact A9|exact A10|exact H4s|].
      by rewrite length_fmap, length_seq.
  - intros what index Hw Hi.
    repeat (apply elem_of_cons in Hw as [->|Hw]);
      [| |by apply elem_of_nil in Hw].
    + eapply get_box_list_out_of_range; [exact A3|exact A4|exact H1s|].
      by rewrite length_fmap, length_seq.
    + eapply get_box_list_out_of_range; [exact A7|exact A8|exact H3s|].
      by rewrite length_fmap, length_seq.
  - intros what index Hn. unfold get_box_list.
    by rewrite getattr_array_missing.
Qed.

Lemma get_box_list_out_of_bounds_witness :
  ∃ info h',
    FMMTraversalBuilder_call boxtree_flags pyopencl_vec_type_counts
      boxtree_AXIS_NAMES 84 refined_quadrant [] = inr (info, h')
    ∧ (∀ what index,
         what ∈ ["colleagues"; "sep_siblings"; "sep_bigger_nonsiblings"]
         → nboxes refined_quadrant ≤ index →
         ∃ n, n < 2
              ∧ get_box_list h' info what index = inl (UnpackValueError n))
    ∧ (∀ what index,
         what ∈ ["neighbor_source_boxes"; "sep_smaller_nonsiblings"] →
         length (h' !!! target_boxes info) ≤ index →
         ∃ n, n < 2
              ∧ get_box_list h' info what index = inl (UnpackValueError n))
    ∧ (∀ what index,
         (what +:+ "_starts") ∉ (array_attributes info).*1 →
         get_box_list h' info what index
         = inl (AttributeError (what +:+ "_starts"))).
Proof.
  apply (get_box_list_out_of_bounds boxtree_flags pyopencl_vec_type_counts
           boxtree_AXIS_NAMES 84 refined_quadrant []).
  - reflexivity.
  - vm_compute. apply list_elem_of_here.
  - vm_compute. lia.
  - apply check_links_sound. vm_compute. reflexivity.
  - vm_compute. lia.
Defined.

(** X12 (first stage of [__call__], [SOURCES_PARENTS_AND_TARGETS_TEMPLATE]):
    the traversal's [source_boxes], [source_parent_boxes] and [target_boxes]
    hold, in increasing order and once each, exactly the boxes flagged
    [HAS_OWN_SOURCES], [HAS_CHILD_SOURCES] and [HAS_OWN_TARGETS]; with
    [sources_are_targets] the target boxes are the source boxes, whatever
    the target flags; the level starts are those of [source_parent_boxes];
    and the arrays that existed before the call are unchanged. *)
Theorem traversal_box_lists (fl : box_flags_enum) (vec : list nat)
    (axis : list string) (fuel : nat) (t : Tree) (h : cl_mem) :
  _is_pruned t = true → dimensions t ∈ vec → dimensions t ≤ length axis →
  wf_links t → walk_bound (nchildren t) (nlevels t - 1) ≤ fuel →
  ∃ info h',
    FMMTraversalBuilder_call fl vec axis fuel t h = inr (info, h')
    ∧ h' !!! source_boxes info
      = filter (λ b, flag_set (box_flag t b) (BOX_HAS_OWN_SOURCES fl) = true)
               (seq 0 (nboxes t))
    ∧ h' !!! source_parent_boxes info
      = filter (λ b, flag_set (box_flag t b) (BOX_HAS_CHILD_SOURCES fl)
                     = true) (seq 0 (nboxes t))
    ∧ h' !!! target_boxes info
      = (if sources_are_targets t
         then filter (λ b, flag_set (box_flag t b) (BOX_HAS_OWN_SOURCES fl)
                           = true) (seq 0 (nboxes t))
         else filter (λ b, flag_set (box_flag t b) (BOX_HAS_OWN_TARGETS fl)
                           = true) (seq 0 (nboxes t)))
    ∧ level_start_source_parent_box_nrs info
      = extract_level_start_box_nrs t (h' !!! source_parent_boxes info)
    ∧ ∀ a, a < length h → h' !!! a = h !!! a.
Proof.
  intros Hp Hv Ha Hwf Hfuel.
  destruct (builder_output fl vec axis fuel t h Hp Hv Ha Hwf Hfuel)
    as (info & h' & E & _ & Hold & Hsb & Hspb & Htb & Hls & _).
  exists info, h'. unfold cl_mem, ref in *. rewrite Hspb.
  split_and!; done.
Qed.

Lemma traversal_box_lists_witness :
  ∃ info h',
    FMMTraversalBuilder_call boxtree_flags pyopencl_vec_type_counts
      boxtree_AXIS_NAMES 84 refined_quadrant [[7]] = inr (info, h')
    ∧ h' !!! source_boxes info
      = filter (λ b, flag_set (box_flag refined_quadrant b)
                       (BOX_HAS_OWN_SOURCES boxtree_flags) = true)
               (seq 0 (nboxes refined_quadrant))
    ∧ h' !!! source_parent_boxes info
      = filter (λ b, flag_set (box_flag refined_quadrant b)
                       (BOX_HAS_CHILD_SOURCES boxtree_flags) = true)
               (seq 0 (nboxes refined_quadrant))
    ∧ h' !!! target_boxes info
      = (if sources_are_targets refined_quadrant
         then filter (λ b, flag_set (box_flag refined_quadrant b)
                             (BOX_HAS_OWN_SOURCES boxtree_flags) = true)
                     (seq 0 (nboxes refined_quadrant))
         else filter (λ b, flag_set (box_flag refined_quadrant b)
                             (BOX_HAS_OWN_TARGETS boxtree_flags) = true)
                     (seq 0 (nboxes refined_quadrant)))
    ∧ level_start_source_parent_box_nrs info
      = extract_level_start_box_nrs refined_quadrant
          (h' !!! source_parent_boxes info)
    ∧ ∀ a, a < length [[7]] → h' !!! a = [[7]] !!! a.
Proof.
  apply (traversal_box_lists boxtree_flags pyopencl_vec_type_counts
           boxtree_AXIS_NAMES 84 refined_quadrant [[7]]).
  - reflexivity.
  - vm_compute. apply list_elem_of_here.
  - vm_compute. lia.
  - apply check_links_sound. vm_compute. reflexivity.
  - vm_compute. lia.
Defined.


(* ================================================================= *)
(** ** Roman numerals *)

Lemma roman_ok_all : forallb roman_ok (seq 0 4000) = true.
Proof. vm_compute. reflexivity. Qed.

Lemma roman_ok_in_range (inp : Z) :
  (0 <= inp < 4000)%Z →
  ∃ s, int_to_roman inp = inr s
       ∧ roman_value s = inp ∧ all_letters s = true ∧ s ≠ ""%string.
Proof.
  intros Hr. pose proof roman_ok_all as H. rewrite forallb_forall in H.
  specialize (H (Z.to_nat inp)).
  assert (Hin : In (Z.to_nat inp) (seq 0 4000)) by (apply in_seq; lia).
  apply H in Hin. unfold roman_ok in Hin.
  rewrite Z2Nat.id in Hin by lia.
  destruct (int_to_roman inp) as [e|s]; [done|].
  apply andb_true_iff in Hin as [Hin Hne].
  apply andb_true_iff in Hin as [Hv Hl].
  exists s. split_and!; [done|by apply Z.eqb_eq|done|].
  apply negb_true_iff in Hne. by apply String.eqb_neq.
Qed.

(** X13 ([int_to_roman]): the function returns exactly for the integers from
    0 to 3999 and raises its [ValueError] for all others; the numeral it
    returns reads as the number ([Z] for zero), is not empty, and is made of
    letters only. *)
Theorem int_to_roman_round_trip (inp : Z) :
  match int_to_roman inp with
  | inr s =>
      (0 <= inp < 4000)%Z
      ∧ roman_value s = inp ∧ all_letters s = true ∧ s ≠ ""%string
  | inl e => ¬ (0 <= inp < 4000)%Z ∧ e = RomanValueError inp
  end.
Proof.
  destruct (decide (0 <= inp < 4000)%Z) as [Hr|Hr].
  - destruct (roman_ok_in_range inp Hr) as (s & -> & Hv & Hl & Hne). done.
  - unfold int_to_roman.
    destruct (inp =? 0)%Z eqn:E0; [apply Z.eqb_eq in E0; lia|].
    destruct ((0 <? inp)%Z && (inp <? 4000)%Z) eqn:E1; [|done].
    apply andb_true_iff in E1 as [H1 H2].
    apply Z.ltb_lt in H1, H2. lia.
Qed.

(** X14 ([int_to_roman] in [get_tikz_for_tree]): different numbers from 0 to
    3999 get different numerals, so the TeX macros named after the boxes do
    not clash. *)
Theorem int_to_roman_injective (a b : Z) :
  (0 <= a < 4000)%Z → (0 <= b < 4000)%Z → a ≠ b →
  int_to_roman a ≠ int_to_roman b.
Proof.
  intros Ha Hb Hne Heq.
  destruct (roman_ok_in_range a Ha) as (sa & Ea & Hva & _).
  destruct (roman_ok_in_range b Hb) as (sb & Eb & Hvb & _).
  rewrite Ea, Eb in Heq. injection Heq as ->. congruence.
Qed.

Lemma int_to_roman_injective_witness : int_to_roman 4 ≠ int_to_roman 6.
Proof.
  apply (int_to_roman_injective 4 6); lia.
Defined.


(* ================================================================= *)
(** ** Views of the expansions by level *)

Lemma level_starts_le (t : Tree) (l l' : nat) :
  wf_level_starts t → l ≤ l' → l' ≤ nlevels t →
  level_start_box_nrs t !!! l ≤ level_start_box_nrs t !!! l'.
Proof.
  intros Hls Hl Hl'. induction l' as [|l' IH].
  - by replace l with 0 by lia.
  - destruct (decide (l = S l')) as [->|]; [done|].
    assert (H := wf_ls_step t Hls l' ltac:(lia)).
    rewrite Nat.add_1_r in H. etrans; [apply IH; lia|done].
Qed.

Lemma py_slice_pair (r : list nat) (level : nat) :
  level + 1 < length r →
  py_slice r level (level + 2) = [r !!! level; r !!! (level + 1)].
Proof.
  intros Hl. unfold py_slice. replace (level + 2 - level) with 2 by lia.
  revert level Hl. induction r as [|x r IH]; intros level Hl;
    [simpl in Hl; lia|].
  destruct level as [|level].
  - destruct r as [|y r]; [simpl in Hl; lia|]. done.
  - simpl. rewrite IH by (simpl in Hl; lia). done.
Qed.

Lemma take_drop_lookup {A} `{Inhabited A} (l : list A) (a b k : nat) :
  a + k < b →
  take (b - a) (drop a l) !!! k = l !!! (a + k).
Proof.
  intros Hk. rewrite lookup_total_take_lt by lia.
  by rewrite lookup_total_drop.
Qed.

Lemma concat_views {A} (L : list A) (r : list nat) (n : nat) :
  r !!! 0 = 0 →
  (∀ l, l < n → r !!! l ≤ r !!! (l + 1)) →
  concat ((λ l, take (r !!! (l + 1) - r !!! l) (drop (r !!! l) L))
          <$> seq 0 n)
  = take (r !!! n) L.
Proof.
  intros H0 Hmono. induction n as [|n IH]; [by rewrite H0|].
  rewrite seq_S, fmap_app, concat_app, IH by (intros; apply Hmono; lia).
  simpl. rewrite app_nil_r.
  rewrite take_take_drop. f_equal.
  specialize (Hmono n). rewrite Nat.add_1_r in *. lia.
Qed.

(** X15 ([multipole_expansions_view], [local_expansions_view]): when the
    level starts of the tree bracket the boxes of every level and the data
    vector has one row per box, the view of a level starts at the first box
    of the level and holds the rows of its boxes, so the row of a box is
    found in the view of its level at the box number less the start; the
    views of all levels, one after the other, are the data vector; and from
    [nlevels] on the unpacking raises. *)
Theorem expansions_views_partition {A} `{Inhabited A} (t : Tree)
    (exps : list A) :
  wf_level_starts t → 0 < nboxes t → box_level t 0 = 0 →
  length (level_start_box_nrs t) = nlevels t + 1 →
  length exps = nboxes t →
  local_expansions_view t exps = multipole_expansions_view t exps
  ∧ (∀ b, b < nboxes t →
       ∃ box_start view,
         multipole_expansions_view t exps (box_level t b)
         = inr (box_start, view)
         ∧ box_start ≤ b ∧ view !!! (b - box_start) = exps !!! b)
  ∧ (∀ level, level < nlevels t →
       multipole_expansions_view t exps level
       = inr (level_start_box_nrs t !!! level,
              take (level_start_box_nrs t !!! (level + 1)
                    - level_start_box_nrs t !!! level)
                   (drop (level_start_box_nrs t !!! level) exps)))
  ∧ concat ((λ level,
               match multipole_expansions_view t exps level with
               | inr (_, view) => view
               | inl _ => []
               end) <$> seq 0 (nlevels t))
    = exps
  ∧ ∀ level, nlevels t ≤ level →
      ∃ n, n < 2
           ∧ multipole_expansions_view t exps level
             = inl (ViewUnpackValueError n).
Proof.
  intros Hls Hn Hroot Hlen Hexps.
  assert (Hview : ∀ level, level < nlevels t →
            multipole_expansions_view t exps level
            = inr (level_start_box_nrs t !!! level,
                   take (level_start_box_nrs t !!! (level + 1)
                         - level_start_box_nrs t !!! level)
                        (drop (level_start_box_nrs t !!! level) exps))).
  { intros level Hl. unfold multipole_expansions_view.
    by rewrite py_slice_pair by lia. }
  assert (H0 : level_start_box_nrs t !!! 0 = 0).
  { destruct (wf_ls_box t Hls 0 Hn) as (_ & H0 & _).
    rewrite Hroot in H0. lia. }
  assert (Hlast : nboxes t ≤ level_start_box_nrs t !!! nlevels t).
  { destruct (wf_ls_box t Hls (nboxes t - 1) ltac:(lia)) as (Hl & _ & Hb).
    pose proof (level_starts_le t (box_level t (nboxes t - 1) + 1)
                  (nlevels t) Hls ltac:(lia) ltac:(lia)). lia. }
  split_and!.
  - done.
  - intros b Hb. destruct (wf_ls_box t Hls b Hb) as (Hl & Hlo & Hhi).
    eexists _, _. split; [by apply Hview|]. split; [done|].
    rewrite take_drop_lookup by lia. f_equal. lia.
  - done.
  - rewrite (list_fmap_ext _
               (λ l, take (level_start_box_nrs t !!! (l + 1)
                           - level_start_box_nrs t !!! l)
                          (drop (level_start_box_nrs t !!! l) exps))).
    + rewrite (concat_views exps (level_start_box_nrs t) (nlevels t) H0)
        by (intros l Hl; by apply (wf_ls_step t Hls)).
      apply take_ge. lia.
    + intros i level Hi. apply lookup_seq in Hi as [-> Hi].
      simpl. by rewrite Hview by lia.
  - intros level Hl. unfold multipole_expansions_view.
    assert (Hshort : length (py_slice (level_start_box_nrs t) level
                               (level + 2)) < 2).
    { unfold py_slice. rewrite length_take, length_drop. lia. }
    destruct (py_slice (level_start_box_nrs t) level (level + 2))
      as [|a [|b [|c rest]]]; simpl in Hshort.
    + exists 0. split; [lia|done].
    + exists 1. split; [lia|done].
    + lia.
    + lia.
Qed.

Lemma expansions_views_partition_witness :
  local_expansions_view refined_quadrant (seq 100 9)
  = multipole_expansions_view refined_quadrant (seq 100 9)
  ∧ (∀ b, b < nboxes refined_quadrant →
       ∃ box_start view,
         multipole_expansions_view refined_quadrant (seq 100 9)
           (box_level refined_quadrant b)
         = inr (box_start, view)
         ∧ box_start ≤ b ∧ view !!! (b - box_start) = seq 100 9 !!! b)
  ∧ (∀ level, level < nlevels refined_quadrant →
       multipole_expansions_view refined_quadrant (seq 100 9) level
       = inr (level_start_box_nrs refined_quadrant !!! level,
              take (level_start_box_nrs refined_quadrant !!! (level + 1)
                    - level_start_box_nrs refined_quadrant !!! level)
                   (drop (level_start_box_nrs refined_quadrant !!! level)
                      (seq 100 9))))
  ∧ concat ((λ level,
               match multipole_expansions_view refined_quadrant (seq 100 9)
                       level with
               | inr (_, view) => view
               | inl _ => []
               end) <$> seq 0 (nlevels refined_quadrant))
    = seq 100 9
  ∧ ∀ level, nlevels refined_quadrant ≤ level →
      ∃ n, n < 2
           ∧ multipole_expansions_view refined_quadrant (seq 100 9) level
             = inl (ViewUnpackValueError n).
Proof.
  apply (expansions_views_partition refined_quadrant (seq 100 9)).
  - apply check_level_starts_sound. vm_compute. reflexivity.
  - vm_compute. lia.
  - reflexivity.
  - reflexivity.
  - reflexivity.
Defined.


(* ================================================================= *)
(** ** The walk as a descent *)

(** X16 (the walk macros of [TRAVERSAL_PREAMBLE_TEMPLATE]): on a tree with
    linked levels, with a stack of at least [nlevels] entries, the walk from
    any box returns within [walk_bound] iterations for whatever test the
    kernel makes of a child, and what it appends is what the depth-first
    descent through the child slots in Morton order appends. *)
Theorem walk_loop_is_descent (t : Tree) (NLEVELS fuel : nat)
    (examine : nat → nat → list nat * bool) (start : nat) (out : list nat) :
  wf_links t → nlevels t ≤ NLEVELS →
  walk_bound (nchildren t) (nlevels t - 1) ≤ fuel →
  start < nboxes t →
  walk_loop t NLEVELS examine fuel (walk_init NLEVELS start) out
  = Done (out ++ walk_rec t examine (nlevels t - 1) 0 start).
Proof.
  intros Hwf HN Hfuel Hs.
  apply walk_loop_correct; [|done].
  apply walk_fits_levels; [done|done|done|lia|lia].
Qed.

Lemma walk_loop_is_descent_witness :
  walk_loop refined_quadrant 10
    (λ L c, ([c + 10 * L], true)) 84 (walk_init 10 0) [99]
  = Done ([99] ++ walk_rec refined_quadrant (λ L c, ([c + 10 * L], true))
                    (nlevels refined_quadrant - 1) 0 0).
Proof.
  apply (walk_loop_is_descent refined_quadrant 10 84
           (λ L c, ([c + 10 * L], true)) 0 [99]).
  - apply check_links_sound. vm_compute. reflexivity.
  - vm_compute. lia.
  - vm_compute. lia.
  - vm_compute. lia.
Defined.
